(** * PlaylistRX: a shallow embedding of [PlaylistRX.py]

    The development follows the layout of the program:

    - [Executor]    : [SpotifyConnection._call_with_timeout] and
                      [SpotifyConnection._withRetry];
    - [Fetch]       : [getPlaylistTracks], [getLikedTracks], [getTracksInfo];
    - [PyFloat]     : the arithmetic of Python floats;
    - [Curation]    : [isTitleExcluded], the weight computations of
                      [SpotifyRadio.generateRadio] and of [main], and the two
                      selection loops;
    - [Playlists]   : the lookup and the creation of playlists, the top
                      tracks, the writes to a playlist and the lookups
                      entity by entity;
    - [Orchestration] : the dictionaries and the artist sets [main]
                      prepares, and the write-back of the two playlists.

    Python integers are [Z].  The weight modifier and the weights are
    Python numbers: the embedding keeps their values as rationals ([Q]) and
    rounds the result of every operation to the nearest double, as Python
    does on floats ([PyFloat]).  Strings are the UTF-8 bytes of the Python
    texts; [str.lower()] is the library's ([StrLower]).  Python
    dictionaries are insertion-ordered association lists. *)

From Stdlib Require Import ZArith NArith QArith Qminmax List String Ascii Bool Lia Lqa.
From Stdlib Require Import Permutation.
Import ListNotations.

Set Implicit Arguments.

(* ================================================================== *)
(** * The remote-call executor *)
(* ================================================================== *)

Module Executor.

(** The exceptions an attempt can end with.  [TimeoutError] is what
    [_call_with_timeout] raises when the worker thread is still alive after
    the deadline; [SpotifyException] carries the HTTP status and the value
    of the [Retry-After] header when the service sent one (a number of
    seconds); every other exception is an [OtherException]. *)
Inductive PyException : Type :=
| TimeoutError (msg : string)
| SpotifyException (http_status : Z) (retry_after : option N) (msg : string)
| OtherException (msg : string).

(** What a call yields: a value, or a raised exception. *)
Inductive Outcome (R : Type) : Type :=
| Returns (result : R)
| Raises (e : PyException).
Arguments Returns {R} result.
Arguments Raises {R} e.

(** A remote operation with its arguments bound.  The service is outside
    the program, so the operation is an oracle: [func k] is what the
    operation does when it is the [k]-th remote invocation of the run. *)
Definition RemoteOp (R : Type) : Type := nat -> Outcome R.

(** What the environment sees of a run: the invocations sent to the
    service, numbered, and the calls of [time.sleep] with their argument. *)
Inductive Event : Type :=
| Call (k : nat)
| Sleep (secs : N).

(** The connection.  [apiCallCount] is the field of the source; [invoked]
    counts the raw invocations sent to the service and [log] records the
    events of the run, oldest first: both observe the environment. *)
Record Conn : Type := mkConn {
  apiCallCount : Z;
  invoked : nat;
  log : list Event
}.

Definition countCall (c : Conn) : Conn :=
  mkConn (apiCallCount c + 1) (invoked c) (log c).

Definition time_sleep (secs : N) (c : Conn) : Conn :=
  mkConn (apiCallCount c) (invoked c) (log c ++ [Sleep secs]).

(** [_call_with_timeout]: one invocation of the operation.  The thread and
    the deadline are folded into the oracle: an invocation that misses the
    deadline is an invocation whose outcome is [Raises (TimeoutError _)]. *)
Definition _call_with_timeout {R} (func : RemoteOp R) (c : Conn) : Outcome R * Conn :=
  (func (invoked c),
   mkConn (apiCallCount c) (S (invoked c)) (log c ++ [Call (invoked c)])).

Definition maxRetries : Z := 5.

(** [e.headers.get("Retry-After", 1)] *)
Definition retryAfterOf (retry_after : option N) : N :=
  match retry_after with
  | Some t => t
  | None => 1%N
  end.

Definition failedAfter : PyException :=
  OtherException "Failed after 5 attempts".

(** The [while retryCount < maxRetries] loop of [_withRetry].  Every
    iteration that does not leave the function adds one to [retryCount], so
    the loop runs at most [maxRetries - retryCount] times; [remaining] is
    that bound, and the loop test is kept as the source writes it. *)
Fixpoint retryLoop {R} (remaining : nat) (func : RemoteOp R)
         (retryCount : Z) (c : Conn) : Outcome R * Conn :=
  match remaining with
  | O => (Raises failedAfter, c)
  | S remaining' =>
    if (retryCount <? maxRetries)%Z then
      match _call_with_timeout func c with
      | (Returns result, c1) => (Returns result, countCall c1)
      | (Raises e, c1) =>
        let retryCount := (retryCount + 1)%Z in
        match e with
        | TimeoutError _ =>
          if (retryCount >=? maxRetries)%Z then (Raises e, c1)
          else retryLoop remaining' func retryCount c1
        | SpotifyException http_status retry_after _ =>
          if (http_status =? 429)%Z then
            retryLoop remaining' func retryCount
                      (time_sleep (retryAfterOf retry_after) c1)
          else if (http_status =? 503)%Z then
            retryLoop remaining' func retryCount (time_sleep 5 c1)
          else if (http_status >=? 500)%Z then
            retryLoop remaining' func retryCount (time_sleep 10 c1)
          else if (retryCount >=? maxRetries)%Z then (Raises e, c1)
          else retryLoop remaining' func retryCount c1
        | OtherException _ =>
          if (retryCount >=? maxRetries)%Z then (Raises e, c1)
          else retryLoop remaining' func retryCount c1
        end
      end
    else (Raises failedAfter, c)
  end.

Definition _withRetry {R} (func : RemoteOp R) (c : Conn) : Outcome R * Conn :=
  retryLoop (Z.to_nat maxRetries) func 0 c.

(** The failure taxonomy of the specification, read off the branches of
    [_withRetry]. *)
Inductive FailureClass : Type :=
| Timeout | RateLimited | ServiceUnavailable | ServerError | ClientError
| Unexpected.

Definition classify (e : PyException) : FailureClass :=
  match e with
  | TimeoutError _ => Timeout
  | SpotifyException http_status _ _ =>
    if (http_status =? 429)%Z then RateLimited
    else if (http_status =? 503)%Z then ServiceUnavailable
    else if (http_status >=? 500)%Z then ServerError
    else ClientError
  | OtherException _ => Unexpected
  end.

(** The pause the executor takes after a failed attempt, as the list of
    [time.sleep] arguments it issues for it. *)
Definition delayOf (e : PyException) : list N :=
  match e with
  | SpotifyException http_status retry_after _ =>
    if (http_status =? 429)%Z then [retryAfterOf retry_after]
    else if (http_status =? 503)%Z then [5%N]
    else if (http_status >=? 500)%Z then [10%N]
    else []
  | _ => []
  end.

(** Whether exhausting the attempts on this failure re-raises it (the
    [raise] inside the handler) or falls out of the loop. *)
Definition reraisedWhenExhausted (e : PyException) : bool :=
  match classify e with
  | Timeout | ClientError | Unexpected => true
  | RateLimited | ServiceUnavailable | ServerError => false
  end.

(** The invocation number [k] of the operation ends with an exception. *)
Definition failsAt {R} (func : RemoteOp R) (k : nat) : Prop :=
  exists e, func k = Raises e.

(** The events of the attempts numbered [from .. from+n-1]: each is the
    invocation followed by the pauses its failure asks for. *)
Definition attemptEvents {R} (func : RemoteOp R) (k : nat) : list Event :=
  Call k :: match func k with
            | Returns _ => []
            | Raises e => map Sleep (delayOf e)
            end.

Fixpoint eventsOf {R} (func : RemoteOp R) (from n : nat) : list Event :=
  match n with
  | O => []
  | S n' => attemptEvents func from ++ eventsOf func (S from) n'
  end.


(** What a run of the retry loop that may use [n] more attempts does to the
    connection [c], in terms of the invocations [func] receives. *)
Definition RunsAs {R} (func : RemoteOp R) (n : nat) (c : Conn)
           (res : Outcome R * Conn) : Prop :=
  let (o, c') := res in
  exists m : nat,
    (m <= n)%nat /\
    invoked c' = (invoked c + m)%nat /\
    log c' = log c ++ eventsOf func (invoked c) m /\
    match o with
    | Returns r =>
      (1 <= m)%nat /\
      func (invoked c + m - 1)%nat = Returns r /\
      (forall i, (i < m - 1)%nat -> failsAt func (invoked c + i)) /\
      apiCallCount c' = (apiCallCount c + 1)%Z
    | Raises e =>
      m = n /\
      (forall i, (i < n)%nat -> failsAt func (invoked c + i)) /\
      apiCallCount c' = apiCallCount c /\
      (n = O -> e = failedAfter) /\
      (forall e0, (1 <= n)%nat -> func (invoked c + n - 1)%nat = Raises e0 ->
                  e = if reraisedWhenExhausted e0 then e0 else failedAfter)
    end.

(** Inputs used to exercise the executor. *)

(** The connection as [__init__] leaves it. *)
Definition freshConn : Conn := mkConn 0 0 [].

Definition alwaysUnavailable : RemoteOp unit :=
  fun _ => Raises (SpotifyException 503 None "Service Unavailable").

Definition alwaysTimesOut : RemoteOp unit :=
  fun k => Raises (TimeoutError ("API call timed out after 60 seconds")).

(** Two time-outs, then the value 7. *)
Definition succeedsThird : RemoteOp Z :=
  fun k => if (k <? 2)%nat then Raises (TimeoutError "API call timed out after 60 seconds")
           else Returns 7%Z.

(** Rate-limited once with [Retry-After: 2], then the value 7. *)
Definition rateLimitedOnce : RemoteOp Z :=
  fun k => if (k <? 1)%nat then Raises (SpotifyException 429 (Some 2%N) "Too Many Requests")
           else Returns 7%Z.

End Executor.

(* ================================================================== *)
(** * Python dictionaries keyed by strings *)
(* ================================================================== *)

Module PyDict.

(** A dictionary lists its entries in insertion order; assigning to a key
    that is present replaces the value where the key stands. *)
Definition Dict (V : Type) : Type := list (string * V).

Fixpoint dict_get {V} (k : string) (d : Dict V) : option V :=
  match d with
  | [] => None
  | (k', v) :: d' => if (k =? k')%string then Some v else dict_get k d'
  end.

Fixpoint dict_set {V} (k : string) (v : V) (d : Dict V) : Dict V :=
  match d with
  | [] => [(k, v)]
  | (k', v') :: d' =>
    if (k =? k')%string then (k', v) :: d' else (k', v') :: dict_set k v d'
  end.

Definition dict_keys {V} (d : Dict V) : list string := map fst d.

Definition dict_in {V} (k : string) (d : Dict V) : bool :=
  match dict_get k d with Some _ => true | None => false end.

(** [d.get(k, default)] *)
Definition dict_get_default {V} (k : string) (default : V) (d : Dict V) : V :=
  match dict_get k d with Some v => v | None => default end.

End PyDict.

(* ================================================================== *)
(** * Paginated and batched fetches *)
(* ================================================================== *)

Module Fetch.
Import Executor PyDict.

(** A playlist or saved-track item as the program reads it:
    [item.get("track")] and, inside, [track.get("id")]. *)
Record TrackRef : Type := mkTrackRef { ref_id : option string }.
Record Item : Type := mkItem { item_track : option TrackRef }.

(** A page of a listing.  [next] is the address of the following page when
    there is one; the embedding keeps what that address encodes, the offset
    and the limit of the following page. *)
Record Page : Type := mkPage {
  items : list Item;
  next : option (nat * nat)
}.

(** A catalog track as [client.tracks] and [client.artist_top_tracks]
    return it. *)
Record Artist : Type := mkArtist {
  artist_name : string;
  artist_id : option string
}.

Record TrackObj : Type := mkTrackObj {
  track_id : string;
  track_name : string;
  track_artists : list Artist
}.

(** The remote operations of [self.client] the program uses, with the
    arguments that vary.  A response that is [None] or an empty dictionary
    is [None] here: this is what [while results:] tests. *)
Record Client : Type := mkClient {
  playlist_items : string -> Z -> RemoteOp (option Page);
  client_next : Page -> RemoteOp (option Page);
  current_user_saved_tracks : Z -> Z -> RemoteOp Page;
  tracks : list string -> RemoteOp (list (option TrackObj));
  artist_top_tracks : string -> RemoteOp (list TrackObj)
}.

(** The [for item in items] loop shared by the two listings. *)
Definition appendTrackIds (its : list Item) (trackIds : list string) : list string :=
  fold_left
    (fun trackIds item =>
       match item_track item with
       | Some track =>
         match ref_id track with
         | Some tid => if (tid =? EmptyString)%string then trackIds else trackIds ++ [tid]
         | None => trackIds
         end
       | None => trackIds
       end)
    its trackIds.

(** The [while results:] loop of [getPlaylistTracks].  [None] is a run
    that needs more than [fuel] iterations. *)
Fixpoint playlistPages (fuel : nat) (client : Client) (results : option Page)
         (trackIds : list string) (c : Conn)
  : option (Outcome (list string) * Conn) :=
  match fuel with
  | O => None
  | S fuel' =>
    match results with
    | None => Some (Returns trackIds, c)
    | Some page =>
      let trackIds := appendTrackIds (items page) trackIds in
      match next page with
      | Some _ =>
        match _withRetry (client_next client page) c with
        | (Returns results, c1) => playlistPages fuel' client results trackIds c1
        | (Raises e, c1) => Some (Raises e, c1)
        end
      | None => Some (Returns trackIds, c)
      end
    end
  end.

Definition getPlaylistTracks (fuel : nat) (client : Client) (playlistId : string)
           (c : Conn) : option (Outcome (list string) * Conn) :=
  match _withRetry (playlist_items client playlistId 100) c with
  | (Returns results, c1) => playlistPages fuel client results [] c1
  | (Raises e, c1) => Some (Raises e, c1)
  end.

(** The [while True:] loop of [getLikedTracks]. *)
Fixpoint likedPages (fuel : nat) (client : Client) (offset : Z)
         (trackIds : list string) (c : Conn)
  : option (Outcome (list string) * Conn) :=
  match fuel with
  | O => None
  | S fuel' =>
    match _withRetry (current_user_saved_tracks client 50 offset) c with
    | (Returns results, c1) =>
      match items results with
      | [] => Some (Returns trackIds, c1)
      | its =>
        likedPages fuel' client (offset + Z.of_nat (List.length its))
                   (appendTrackIds its trackIds) c1
      end
    | (Raises e, c1) => Some (Raises e, c1)
    end
  end.

Definition getLikedTracks (fuel : nat) (client : Client) (c : Conn)
  : option (Outcome (list string) * Conn) :=
  likedPages fuel client 0 [] c.

(** ** Bulk track details *)

(** An element of the [trackIds] argument: Python does not type it, and
    [getTracksInfo] tests what it finds. *)
Inductive PyValue : Type :=
| PyNone
| PyStr (s : string)
| PyInt (z : Z).

(** [[tid for tid in trackIds if tid and isinstance(tid, str) and len(tid) > 0]] *)
Definition validTrackIds (trackIds : list PyValue) : list string :=
  flat_map
    (fun tid =>
       match tid with
       | PyStr s => if (0 <? String.length s)%nat then [s] else []
       | PyNone | PyInt _ => []
       end)
    trackIds.

(** [(name, artistName, artistId)] *)
Definition TrackInfo : Type := (string * string * option string)%type.

Definition infoOf (t : TrackObj) : TrackInfo :=
  match track_artists t with
  | a :: _ => (track_name t, artist_name a, artist_id a)
  | [] => (track_name t, "Unknown"%string, None)
  end.

(** One turn of [for t in results["tracks"]]. *)
Definition recordTrack (info : Dict TrackInfo) (t : option TrackObj) : Dict TrackInfo :=
  match t with
  | Some t => dict_set (track_id t) (infoOf t) info
  | None => info
  end.

Definition batchSize : nat := 50.

(** [range(0, stop, step)] *)
Definition range_step (stop step : nat) : list nat :=
  map (fun j => j * step)%nat (seq 0 ((stop + step - 1) / step)).

(** [validTrackIds[i:i+batchSize]] *)
Definition batchAt (valid : list string) (i : nat) : list string :=
  firstn batchSize (skipn i valid).

(** One turn of the batch loop: the [try] with its two handlers, both of
    which go on to the next batch. *)
Definition fetchBatch (client : Client) (valid : list string)
           (st : Dict TrackInfo * Conn) (i : nat) : Dict TrackInfo * Conn :=
  let (info, c) := st in
  let batch := batchAt valid i in
  match _withRetry (tracks client batch) c with
  | (Returns results, c1) => (fold_left recordTrack results info, c1)
  | (Raises _, c1) => (info, c1)
  end.

Definition getTracksInfo (client : Client) (trackIds : list PyValue) (c : Conn)
  : Dict TrackInfo * Conn :=
  let info : Dict TrackInfo := [] in
  let valid := validTrackIds trackIds in
  if (List.length valid =? 0)%nat then (info, c)
  else fold_left (fetchBatch client valid)
                 (range_step (List.length valid) batchSize) (info, c).

(** The batches [getTracksInfo] sends, in order. *)
Definition batchesOf (valid : list string) : list (list string) :=
  map (batchAt valid) (range_step (List.length valid) batchSize).

(** The outcomes of the calls [getTracksInfo] makes for its batches in
    one run from [c], in order: every call starts on the connection the
    call before it left. *)
Fixpoint batchOutcomes (client : Client) (batches : list (list string)) (c : Conn)
  : list (Outcome (list (option TrackObj))) :=
  match batches with
  | [] => []
  | batch :: rest =>
    let (o, c1) := _withRetry (tracks client batch) c in
    o :: batchOutcomes client rest c1
  end.

(** ** A service that answers every request *)

(** The page of [limit] items at [offset] of a listing, with the address of
    the following page when items remain after it. *)
Definition pageOf (contents : list Item) (limit offset : nat) : Page :=
  mkPage (firstn limit (skipn offset contents))
         (if (offset + limit <? List.length contents)%nat
          then Some ((offset + limit)%nat, limit) else None).

Definition lookupTrack (catalog : list TrackObj) (tid : string) : option TrackObj :=
  find (fun t => (track_id t =? tid)%string) catalog.

(** A service holding one playlist, the saved tracks and a catalog, none of
    whose requests fails. *)
Definition reliableClient (playlist liked : list Item) (catalog : list TrackObj)
  : Client :=
  mkClient
    (fun _ limit _ => Returns (Some (pageOf playlist (Z.to_nat limit) 0)))
    (fun page _ =>
       match next page with
       | Some (offset, limit) => Returns (Some (pageOf playlist limit offset))
       | None => Returns None
       end)
    (fun limit offset _ => Returns (pageOf liked (Z.to_nat limit) (Z.to_nat offset)))
    (fun batch _ => Returns (map (lookupTrack catalog) batch))
    (fun _ _ => Returns []).

(** The ids a listing yields: those of the items that carry a track with a
    non-empty id. *)
Definition trackIdsOf (contents : list Item) : list string :=
  flat_map
    (fun item =>
       match item_track item with
       | Some (mkTrackRef (Some tid)) => if (tid =? EmptyString)%string then [] else [tid]
       | _ => []
       end)
    contents.

Definition hasTrackId (item : Item) : Prop :=
  exists tid, item_track item = Some (mkTrackRef (Some tid)) /\ tid <> EmptyString.

(** The connection after [n] more requests, each answered at once. *)
Definition afterRequests (n : nat) (c : Conn) : Conn :=
  mkConn (apiCallCount c + Z.of_nat n) (invoked c + n)
         (log c ++ map Call (seq (invoked c) n)).

Definition itemOf (tid : string) : Item := mkItem (Some (mkTrackRef (Some tid))).

(** The dictionary entry of an id the catalog resolves to [resolve tid]. *)
Definition entryOf (resolve : string -> TrackObj) (tid : string)
  : string * TrackInfo :=
  (tid, infoOf (resolve tid)).

Definition plainTrack (tid : string) : TrackObj :=
  mkTrackObj tid ("Title of " ++ tid) [mkArtist "Artist" (Some "artist-1"%string)].

(** A service whose bulk lookup is refused for the batches holding [bad]
    and answered for the others. *)
Definition clientRefusing (bad : string) : Client :=
  mkClient
    (fun _ _ _ => Returns None)
    (fun _ _ => Returns None)
    (fun _ _ _ => Returns (mkPage [] None))
    (fun batch _ =>
       if existsb (String.eqb bad) batch
       then Raises (SpotifyException 400 None "invalid id")
       else Returns (map (fun tid => Some (plainTrack tid)) batch))
    (fun _ _ => Returns []).

(** A service that lets the invocations 1 to 5 of the run time out and
    answers the others. *)
Definition clientTimingOut : Client :=
  mkClient
    (fun _ _ _ => Returns None)
    (fun _ _ => Returns None)
    (fun _ _ _ => Returns (mkPage [] None))
    (fun batch k =>
       if ((1 <=? k) && (k <=? 5))%nat
       then Raises (TimeoutError "API call timed out after 60 seconds")
       else Returns (map (fun tid => Some (plainTrack tid)) batch))
    (fun _ _ => Returns []).

(** Fifty-one ids in two batches: fifty times ["a"], then ["b"]. *)
Definition repeatedIds : list PyValue := repeat (PyStr "a") 50 ++ [PyStr "b"].

(** Distinct ids: ["t"], ["xt"], ["xxt"], ... *)
Fixpoint unaryId (n : nat) : string :=
  match n with
  | O => "t"
  | S n' => String "x" (unaryId n')
  end.

(** A hundred and twenty distinct ids, preceded by values that are not
    ids: three batches, of 50, 50 and 20 ids. *)
Definition manyIds : list PyValue :=
  [PyNone; PyStr EmptyString; PyInt 7] ++ map (fun n => PyStr (unaryId n)) (seq 0 120).

(** The ids of the batches that start elsewhere than at [failedAt]. *)
Definition keptIds (valid : list string) (failedAt : nat) (offsets : list nat)
  : list string :=
  List.concat (map (batchAt valid)
                   (filter (fun i => negb (i =? failedAt)%nat) offsets)).

End Fetch.

(* ================================================================== *)
(** * Python floats *)
(* ================================================================== *)

(** A Python [float] is a binary64 double.  The embedding keeps the value
    of a finite double as a rational, and makes every arithmetic operation
    round its exact result to the nearest double, ties to even, as IEEE 754
    does.  The exponent is left unbounded above: a result beyond the range
    of the doubles stays a large rational where Python has [inf], and both
    compare alike with the weights and the draws of the program. *)
Module PyFloat.

#[local] Open Scope Z_scope.

(** The integer nearest to [a / b], the even one of the two when [a / b]
    lies half-way; [0 <= a] and [0 < b]. *)
Definition rne (a b : Z) : Z :=
  let q := a / b in
  let r := a mod b in
  match 2 * r ?= b with
  | Lt => q
  | Gt => q + 1
  | Eq => if Z.even q then q else q + 1
  end.

(** The natural number with at most 53 significant bits nearest to
    [a / b]: below [2 ^ 53] the naturals themselves, then the multiples of
    2, of 4 and so on. *)
Definition roundNat (a b : Z) : Z :=
  let s := Z.max 0 (Z.log2 (a / b) - 52) in
  rne a (b * 2 ^ s) * 2 ^ s.

(** The doubles are the numbers [n / 2 ^ 1074] for such naturals [n] (and
    their opposites). *)
Definition subnormalScale : positive := (2 ^ 1074)%positive.

Definition roundNonneg (n : Z) (d : positive) : Q :=
  Qred (roundNat (n * Zpos subnormalScale) (Zpos d) # subnormalScale).

(** The double nearest to [x], ties to even. *)
Definition fl (x : Q) : Q :=
  if Qnum x <? 0 then Qopp (roundNonneg (- Qnum x) (Qden x))
  else roundNonneg (Qnum x) (Qden x).


(** [a * b], [a - b] and [a / b] on floats, or on a float and an [int]:
    an [int] operand takes part by its value (those the program meets here,
    5, 7, 9, 4, 3, 2 and 10, are doubles). *)
Definition py_mul (a b : Q) : Q := fl (a * b).
Definition py_sub (a b : Q) : Q := fl (a - b).
Definition py_div (a b : Q) : Q := fl (a / b).

End PyFloat.

(* ================================================================== *)
(** * Curation: exclusions, weights and the two selection loops *)
(* ================================================================== *)

Module Curation.
Import PyDict Fetch PyFloat.

(** ** Strings *)

(** A Python [str] is kept as the bytes of its UTF-8 encoding: equality,
    emptiness, concatenation and the substring test [in] on texts are
    those of their encodings. *)

(** The letters [A] to [Z] folded to [a] to [z], every other byte left as
    it is. *)
Definition lower_ascii (a : ascii) : ascii :=
  let n := nat_of_ascii a in
  if ((65 <=? n) && (n <=? 90))%nat then ascii_of_nat (n + 32) else a.

Fixpoint asciiLower (s : string) : string :=
  match s with
  | EmptyString => EmptyString
  | String a s' => String (lower_ascii a) (asciiLower s')
  end.

(** The text holds ASCII characters only. *)
Fixpoint isAscii (s : string) : bool :=
  match s with
  | EmptyString => true
  | String a s' => (nat_of_ascii a <? 128)%nat && isAscii s'
  end.

(** [str.lower()] is Unicode's lower-casing: it maps every cased
    character, not the letters [A] to [Z] only, it depends on the context
    (the final sigma) and it can change the length of the text.  It is
    taken here as the library provides it, a function on texts, with the
    one law the examples need: on ASCII text it folds [A] to [Z] and leaves
    the rest. *)
Class StrLower : Type := {
  lower : string -> string;
  lower_of_ascii : forall s, isAscii s = true -> lower s = asciiLower s
}.

(** A lower-casing that is right on ASCII text, to run the examples on
    ASCII titles and names. *)
Definition asciiOnlyLower : StrLower :=
  Build_StrLower asciiLower (fun s _ => eq_refl).

(** [needle in hay] on strings. *)
Fixpoint str_in (needle hay : string) : bool :=
  prefix needle hay ||
  match hay with
  | EmptyString => false
  | String _ hay' => str_in needle hay'
  end.

(** [needle.lower() in hay.lower()] *)
Definition lowerContains {L : StrLower} (needle hay : string) : bool :=
  str_in (lower needle) (lower hay).

(** ** Configuration *)

Record Config : Type := mkConfig {
  numberOfRadioArtists : Z;
  radioArtistSongs : Z;
  removeRadioSongsByWeight : bool;
  includeRadioInMaster : bool;
  includeDiscoverWeeklyInRadio : bool;
  excludedWords : list string;
  artistIHearTooMuch : bool;
  artistBlacklist : bool;
  masterSongs : Z;
  weightModifier : Q
}.

(** [weightModifier] is the value of the configured number: an [int] (the
    default is 1) or a [float], that is a double.  With an [int] Python
    computes the weight in exact integers down to the final division; the
    operations below round to doubles, which leaves these integers as they
    are up to a modifier of [2 ^ 48] in magnitude (see [weights_exact]
    among the facts), beyond the need of any configuration. *)

(** ** The [random] module *)

(** [random.random()] yields a number of [[0, 1)]; [random.sample] picks
    [k] distinct positions of a population of [n] elements.  The generator
    state is threaded through the calls. *)
Class RandomSource (G : Type) : Type := {
  random_random : G -> Q * G;
  sample_positions : nat -> nat -> G -> list nat * G;
  random_random_range :
    forall g, 0 <= fst (random_random g) /\ fst (random_random g) < 1;
  sample_positions_ok :
    forall n k g, (k <= n)%nat ->
      List.length (fst (sample_positions n k g)) = k /\
      NoDup (fst (sample_positions n k g)) /\
      Forall (fun i => (i < n)%nat) (fst (sample_positions n k g))
}.

(** A choice of [k] distinct positions among [n], in the order drawn. *)
Definition Arrangement (n k : nat) (positions : list nat) : Prop :=
  List.length positions = k /\ NoDup positions /\
  Forall (fun i => (i < n)%nat) positions.

(** How many elements of [l] satisfy [P]. *)
Definition countWhere {A} (P : A -> bool) (l : list A) : nat :=
  List.length (filter P l).

Definition positions_eqb (p q : list nat) : bool :=
  if list_eq_dec Nat.eq_dec p q then true else false.

Definition ids_eqb (p q : list string) : bool :=
  if list_eq_dec string_dec p q then true else false.

(** What the documentation of [random.sample] promises beyond distinct
    positions: the sample is uniform.  With the generator in one of the
    equally likely states [states], every arrangement of [k] positions
    among [n] comes out in the same number of them. *)
Definition UniformSample {G} `{RandomSource G} (states : list G) (n k : nat)
  : Prop :=
  forall p q, Arrangement n k p -> Arrangement n k q ->
    countWhere (fun g => positions_eqb (fst (sample_positions n k g)) p) states =
    countWhere (fun g => positions_eqb (fst (sample_positions n k g)) q) states.

(** In how many of the states [sample] returns this selection. *)
Definition timesSelected {G} (sample : G -> option (list string * G))
           (selection : list string) (states : list G) : nat :=
  countWhere (fun g => match sample g with
                       | Some (picked, _) => ids_eqb picked selection
                       | None => false
                       end) states.

(** The elements of [population] at [positions], in that order. *)
Definition pickAt {A} (population : list A) (positions : list nat) : list A :=
  flat_map (fun i => match nth_error population i with
                     | Some x => [x]
                     | None => []
                     end) positions.

(** [random.sample(population, k)]: [None] is the [ValueError] raised for a
    negative [k] or a [k] larger than the population. *)
Definition random_sample {G} `{RandomSource G} {A} (population : list A) (k : Z)
           (g : G) : option (list A * G) :=
  if ((k <? 0) || (Z.of_nat (List.length population) <? k))%Z then None
  else
    let (positions, g') :=
        sample_positions (List.length population) (Z.to_nat k) g in
    Some (pickAt population positions, g').

(** ** Exclusions *)

(** [SpotifyConnection.isTitleExcluded] *)
Definition isTitleExcluded {L : StrLower} (title : string)
           (excludedWords : list string) : bool :=
  if (match excludedWords with [] => true | _ => false end) || (title =? EmptyString)%string
  then false
  else
    let titleLower := lower title in
    existsb (fun word => str_in (lower word) titleLower) excludedWords.

(** The blacklist test, written twice in the source with the same text:
    in [generateRadio] on the chosen artist's name and in [main] on the
    track's artist name. *)
Definition isBlacklisted {L : StrLower} (config : Config)
           (artistBlacklistNames : list string) (artistName : string) : bool :=
  if artistBlacklist config then
    existsb (fun blacklistedName => str_in (lower blacklistedName) (lower artistName))
            artistBlacklistNames
  else false.

(** ** Weights *)

Definition Qlt_bool (x y : Q) : bool := negb (Qle_bool y x).

(** [generateRadio], the body of [if self.removeByWeight:] down to the
    clamp.  [max] and [min] return one of their arguments. *)
Definition radioWeight (tooMuchCounts topPositions : Dict Z) (weightModifier : Q)
           (tid : string) : Q :=
  let weight : Q := 10 in
  let tmCount := dict_get_default tid 0%Z tooMuchCounts in
  let weight :=
      if (tmCount =? 1)%Z then py_sub weight (py_mul 5 weightModifier)
      else if (tmCount =? 2)%Z then py_sub weight (py_mul 7 weightModifier)
      else if (tmCount >=? 3)%Z then py_sub weight (py_mul 9 weightModifier)
      else weight in
  let weight :=
      match dict_get tid topPositions with
      | Some pos =>
        if (pos <? 50)%Z then py_sub weight (py_mul 5 weightModifier)
        else if (pos <? 100)%Z then py_sub weight (py_mul 4 weightModifier)
        else if (pos <? 200)%Z then py_sub weight (py_mul 3 weightModifier)
        else weight
      | None => weight
      end in
  Qmax 0 (Qmin 10 weight).

(** [trackArtistId == artistId] on values that are an id or [None]. *)
Definition artistId_eqb (x y : option string) : bool :=
  match x, y with
  | Some a, Some b => (a =? b)%string
  | None, None => true
  | _, _ => false
  end.

(** [main], the inner loop that adds up the overplay counts of the tracks
    of [artistId] among the resolved tracks. *)
Definition artistCountOf (allInfo : Dict TrackInfo) (tooMuchCounts : Dict Z)
           (artistId : option string) : Z :=
  fold_left
    (fun artistCount (entry : string * TrackInfo) =>
       let '(trackId, (_, _, trackArtistId)) := entry in
       if artistId_eqb trackArtistId artistId && dict_in trackId tooMuchCounts
       then (artistCount + dict_get_default trackId 0%Z tooMuchCounts)%Z
       else artistCount)
    allInfo 0%Z.

(** [artistId in artistTooMuch]: the set holds artist ids, never [None]. *)
Definition inArtistTooMuch (artistTooMuch : list string) (artistId : option string)
  : bool :=
  match artistId with
  | Some a => existsb (String.eqb a) artistTooMuch
  | None => false
  end.

(** [main], from [weight = 10] to the line before the draw. *)
Definition masterWeight (config : Config) (tooMuchCounts topPositions : Dict Z)
           (artistTooMuch : list string) (allInfo : Dict TrackInfo)
           (tid : string) : Q :=
  let weightModifier := weightModifier config in
  let weight : Q := 10 in
  let count := dict_get_default tid 0%Z tooMuchCounts in
  let weight :=
      if (count =? 1)%Z then py_sub weight (py_mul 5 weightModifier)
      else if (count =? 2)%Z then py_sub weight (py_mul 7 weightModifier)
      else if (count >=? 3)%Z then py_sub weight (py_mul 9 weightModifier)
      else weight in
  let weight :=
      match dict_get tid topPositions with
      | Some pos =>
        if (pos <? 50)%Z then py_sub weight (py_mul 5 weightModifier)
        else if (pos <? 100)%Z then py_sub weight (py_mul 4 weightModifier)
        else if (pos <? 200)%Z then py_sub weight (py_mul 3 weightModifier)
        else weight
      | None => weight
      end in
  match dict_get tid allInfo with
  | Some (_, _, artistId) =>
    if artistIHearTooMuch config then
      if inArtistTooMuch artistTooMuch artistId then
        let artistCount := artistCountOf allInfo tooMuchCounts artistId in
        if (artistCount >=? 6)%Z then py_sub weight (py_mul 3 weightModifier)
        else if (artistCount >=? 3)%Z then py_sub weight (py_mul 2 weightModifier)
        else weight
      else weight
    else weight
  | None => weight
  end.

(** ** The specification's weight, in its own words *)

Definition clamp (w : Q) : Q := Qmax 0 (Qmin 10 w).

(** The multiples of the modifier the specification takes off: 5, 7 or 9
    for an overplay count of 1, 2 or at least 3; 5, 4 or 3 for a top rank
    below 50, from 50 below 100, from 100 below 200. *)
Definition overplayFactor (c : Z) : Z :=
  if (c =? 1)%Z then 5
  else if (c =? 2)%Z then 7
  else if (3 <=? c)%Z then 9
  else 0.

Definition rankFactor (r : option Z) : Z :=
  match r with
  | Some r =>
    if (r <? 50)%Z then 5
    else if ((50 <=? r) && (r <? 100))%Z then 4
    else if ((100 <=? r) && (r <? 200))%Z then 3
    else 0
  | None => 0
  end.

(** [w - k * m] as Python computes it on doubles: the product is rounded,
    then the difference.  A deduction that does not apply ([k = 0]) leaves
    the weight as it is. *)
Definition deduct (w : Q) (k : Z) (m : Q) : Q :=
  if (k =? 0)%Z then w else py_sub w (py_mul (inject_Z k) m).

(** The weight of the specification, evaluated in double arithmetic. *)
Definition floatWeight (c : Z) (r : option Z) (m : Q) : Q :=
  clamp (deduct (deduct 10 (overplayFactor c) m) (rankFactor r) m).


(** The amounts of the specification in exact arithmetic. *)

(** [5 * m] if the overplay count is 1, [7 * m] if it is 2, [9 * m] from 3. *)
Definition overplayDeduction (c : Z) (m : Q) : Q :=
  if (c =? 1)%Z then 5 * m
  else if (c =? 2)%Z then 7 * m
  else if (3 <=? c)%Z then 9 * m
  else 0.

(** [5 * m] below rank 50, [4 * m] from 50 below 100, [3 * m] from 100
    below 200; nothing without a rank. *)
Definition rankDeduction (r : option Z) (m : Q) : Q :=
  match r with
  | Some r =>
    if (r <? 50)%Z then 5 * m
    else if ((50 <=? r) && (r <? 100))%Z then 4 * m
    else if ((100 <=? r) && (r <? 200))%Z then 3 * m
    else 0
  | None => 0
  end.

Definition specWeight (c : Z) (r : option Z) (m : Q) : Q :=
  clamp (10 - overplayDeduction c m - rankDeduction r m).

(** The artist-overplay term of master curation: [3 * m] when the artist of
    the track totals 6 overplay occurrences or more, [2 * m] from 3 to 5;
    it applies when the feature is on and the artist is in the overplayed
    set. *)
Definition artistFactor (config : Config) (tooMuchCounts : Dict Z)
           (artistTooMuch : list string) (allInfo : Dict TrackInfo)
           (tid : string) : Z :=
  match dict_get tid allInfo with
  | Some (_, _, artistId) =>
    if artistIHearTooMuch config && inArtistTooMuch artistTooMuch artistId then
      let n := artistCountOf allInfo tooMuchCounts artistId in
      if (6 <=? n)%Z then 3
      else if (3 <=? n)%Z then 2
      else 0
    else 0
  | None => 0
  end.

Definition artistDeduction (config : Config) (tooMuchCounts : Dict Z)
           (artistTooMuch : list string) (allInfo : Dict TrackInfo)
           (tid : string) : Q :=
  match dict_get tid allInfo with
  | Some (_, _, artistId) =>
    if artistIHearTooMuch config && inArtistTooMuch artistTooMuch artistId then
      let n := artistCountOf allInfo tooMuchCounts artistId in
      if (6 <=? n)%Z then 3 * weightModifier config
      else if (3 <=? n)%Z then 2 * weightModifier config
      else 0
    else 0
  | None => 0
  end.

(** ** The two selection loops *)

(** [{f"{n} - {a}": (tid, n, a) for tid, (n, a, _) in allInfo.items()}] *)
Definition trackKey (n a : string) : string := (n ++ " - " ++ a)%string.

Definition trackMapStep (trackMap : Dict (string * string * string))
           (entry : string * TrackInfo) : Dict (string * string * string) :=
  let '(tid, (n, a, _)) := entry in
  dict_set (trackKey n a) (tid, n, a) trackMap.

Definition trackMapOf (allInfo : Dict TrackInfo)
  : Dict (string * string * string) :=
  fold_left trackMapStep allInfo [].

(** [generateRadio]: one turn of the loop that fills the dictionaries
    [artistMap] and [artistNames]. *)
Definition artistMapsStep (maps : Dict (list string) * Dict string)
           (entry : string * TrackInfo) : Dict (list string) * Dict string :=
  let (artistMap, artistNames) := maps in
  let '(tid, (_, artistName, artistId)) := entry in
  match artistId with
  | Some aid =>
    if (aid =? EmptyString)%string then maps
    else (dict_set aid (dict_get_default aid [] artistMap ++ [tid]) artistMap,
          dict_set aid artistName artistNames)
  | None => maps
  end.

Definition artistMapsOf (masterInfo : Dict TrackInfo)
  : Dict (list string) * Dict string :=
  fold_left artistMapsStep masterInfo ([], []).

Section WithRandom.
Context {G : Type} `{RandomSource G} {L : StrLower}.
Variable config : Config.
Variables tooMuchCounts topPositions : Dict Z.
Variable artistTooMuch : list string.
Variable artistBlacklistNames : list string.

(** [generateRadio]: one turn of [for t in topResults]. *)
Definition eligibleStep (st : list string * G) (t : TrackObj) : list string * G :=
  let (eligibleSongs, g) := st in
  let tid := track_id t in
  let title := track_name t in
  if isTitleExcluded title (excludedWords config) then (eligibleSongs, g)
  else if removeRadioSongsByWeight config then
    let weight := radioWeight tooMuchCounts topPositions (weightModifier config) tid in
    let (draw, g') := random_random g in
    if Qle_bool (py_div weight 10) draw then (eligibleSongs, g')
    else (eligibleSongs ++ [tid], g')
  else (eligibleSongs ++ [tid], g).

(** [generateRadio]: the choice among the eligible songs of one artist.
    [None] is a run ended by an exception. *)
Definition selectSongs (eligibleSongs : list string) (g : G)
  : option (list string * G) :=
  match eligibleSongs with
  | [] => Some ([], g)
  | _ =>
    let numToSelect :=
        Z.min (radioArtistSongs config) (Z.of_nat (List.length eligibleSongs)) in
    if (numToSelect >=? Z.of_nat (List.length eligibleSongs))%Z
    then Some (eligibleSongs, g)
    else random_sample eligibleSongs numToSelect g
  end.

(** [generateRadio]: one turn of [for i, artistId in enumerate(chosen)]. *)
Definition radioArtist (allTopTracks : Dict (list TrackObj))
           (artistNames : Dict string) (st : list string * G) (artistId : string)
  : option (list string * G) :=
  let (radioTracks, g) := st in
  match dict_get artistId artistNames with
  | None => None
  | Some artistName =>
    if isBlacklisted config artistBlacklistNames artistName then Some (radioTracks, g)
    else
      let topResults := dict_get_default artistId [] allTopTracks in
      let (eligibleSongs, g1) := fold_left eligibleStep topResults ([], g) in
      match selectSongs eligibleSongs g1 with
      | Some (selectedSongs, g2) => Some (radioTracks ++ selectedSongs, g2)
      | None => None
      end
  end.

Fixpoint radioLoop (allTopTracks : Dict (list TrackObj))
         (artistNames : Dict string) (chosen : list string)
         (st : list string * G) : option (list string * G) :=
  match chosen with
  | [] => Some st
  | artistId :: chosen' =>
    match radioArtist allTopTracks artistNames st artistId with
    | Some st' => radioLoop allTopTracks artistNames chosen' st'
    | None => None
    end
  end.

(** [random.sample(list(artistMap.keys()), min(self.numArtists, len(artistMap)))] *)
Definition chooseArtists (artistMap : Dict (list string)) (g : G)
  : option (list string * G) :=
  random_sample (dict_keys artistMap)
                (Z.min (numberOfRadioArtists config)
                       (Z.of_nat (List.length artistMap))) g.

(** [generateRadio] from the resolved master tracks to [radioTracks] as it
    stands before the final shuffle.  [discoverTracks] is what the
    Discover Weekly playlist yielded and [topTracksOf] what
    [getArtistsTopTracks] answers for the chosen artists. *)
Definition radioTracksOf (discoverTracks : list string)
           (masterInfo : Dict TrackInfo)
           (topTracksOf : list string -> Dict (list TrackObj)) (g : G)
  : option (list string * G) :=
  let radioTracks :=
      if includeDiscoverWeeklyInRadio config then discoverTracks else [] in
  let (artistMap, artistNames) := artistMapsOf masterInfo in
  match chooseArtists artistMap g with
  | None => None
  | Some (chosen, g1) =>
    radioLoop (topTracksOf chosen) artistNames chosen (radioTracks, g1)
  end.

(** [main]: one turn of [for key, (tid, name, artist) in trackMap.items()]. *)
Definition masterStep (allInfo : Dict TrackInfo) (st : list string * G)
           (entry : string * (string * string * string)) : list string * G :=
  let (selected, g) := st in
  let '(key, (tid, name, artist)) := entry in
  if isBlacklisted config artistBlacklistNames artist then (selected, g)
  else
    let weight :=
        masterWeight config tooMuchCounts topPositions artistTooMuch allInfo tid in
    let (draw, g') := random_random g in
    let included := Qlt_bool draw (py_div weight 10) in
    if included then (selected ++ [tid], g') else (selected, g').

(** [main] from the resolved tracks to [selected] as it stands before the
    shuffle. *)
Definition masterSelection (allInfo : Dict TrackInfo) (g : G) : list string * G :=
  fold_left (masterStep allInfo) (trackMapOf allInfo) ([], g).

End WithRandom.

(** The title and artist name [allInfo] records for a track id. *)
Definition titleArtistOf (allInfo : Dict TrackInfo) (tid : string)
  : option (string * string) :=
  match dict_get tid allInfo with
  | Some (n, a, _) => Some (n, a)
  | None => None
  end.

(** The track ids that stand in [trackMap], in order: the tracks the master
    loop goes through. *)
Definition consideredIds (trackMap : Dict (string * string * string))
  : list string :=
  map (fun entry => fst (fst (snd entry))) trackMap.

(** Every entry of [trackMap] is keyed by the title and artist of a
    resolved track, and no key stands twice. *)
Definition TrackMapOk (allInfo : Dict TrackInfo)
           (trackMap : Dict (string * string * string)) : Prop :=
  NoDup (dict_keys trackMap) /\
  forall key tid n a,
    In (key, (tid, n, a)) trackMap ->
    key = trackKey n a /\ exists x, In (tid, (n, a, x)) allInfo.

(** [l1] is [l2] with some elements left out. *)
Inductive Subseq {A : Type} : list A -> list A -> Prop :=
| Subseq_nil : Subseq [] []
| Subseq_skip (x : A) (l1 l2 : list A) : Subseq l1 l2 -> Subseq l1 (x :: l2)
| Subseq_keep (x : A) (l1 l2 : list A) : Subseq l1 l2 -> Subseq (x :: l1) (x :: l2).

(** ** A random source read off a tape *)

(** The draws are read off a list, oldest first (0 once the list is used
    up, and for an entry outside [[0, 1)]); a sample takes the first
    positions. *)
Definition tape_random (g : list Q) : Q * list Q :=
  match g with
  | d :: g' => (if Qle_bool 0 d && Qlt_bool d 1 then d else 0, g')
  | [] => (0, [])
  end.

Definition tape_sample (n k : nat) (g : list Q) : list nat * list Q :=
  (seq 0 k, g).

#[export] Instance TapeRandom : RandomSource (list Q).
Proof.
  refine (Build_RandomSource tape_random tape_sample _ _).
  - intros [|d g]; cbn; [split; [apply Qle_refl|reflexivity]|].
    destruct (Qle_bool 0 d) eqn:H0; cbn; [|split; [apply Qle_refl|reflexivity]].
    unfold Qlt_bool. destruct (Qle_bool 1 d) eqn:H1; cbn;
      [split; [apply Qle_refl|reflexivity]|].
    split; [apply Qle_bool_iff; exact H0|].
    apply Qnot_le_lt. intros Hle. apply Qle_bool_iff in Hle. congruence.
  - intros n k g Hk. cbn. split; [apply length_seq|]. split; [apply seq_NoDup|].
    apply Forall_forall. intros i Hi. apply in_seq in Hi. lia.
Defined.

(** ** A random source whose samples are scripted *)

Fixpoint distinctb (l : list nat) : bool :=
  match l with
  | [] => true
  | x :: l' => negb (existsb (Nat.eqb x) l') && distinctb l'
  end.

Definition isArrangement (n k : nat) (p : list nat) : bool :=
  (List.length p =? k)%nat && distinctb p && forallb (fun i => (i <? n)%nat) p.

(** The state of the generator is the arrangement the next sample returns
    (the first positions when the state is no arrangement of the size
    asked for); every draw is 0. *)
Definition scripted_sample (n k : nat) (g : list nat) : list nat * list nat :=
  (if isArrangement n k g then g else seq 0 k, g).

#[export] Instance ScriptedSample : RandomSource (list nat).
Proof.
  refine (Build_RandomSource (fun g => (0, g)) scripted_sample _ _).
  - intros g. cbn. split; [apply Qle_refl|reflexivity].
  - intros n k g Hk. unfold scripted_sample. cbn [fst].
    destruct (isArrangement n k g) eqn:Ha.
    + unfold isArrangement in Ha. apply andb_prop in Ha. destruct Ha as [Ha Hf].
      apply andb_prop in Ha. destruct Ha as [Hl Hd].
      split; [apply Nat.eqb_eq; exact Hl|]. split.
      * clear - Hd. induction g as [|x l IH]; [constructor|].
        cbn in Hd. apply andb_prop in Hd. destruct Hd as [Hx Hl].
        constructor; [|exact (IH Hl)].
        intros Hin. apply negb_true_iff in Hx.
        assert (Hex : existsb (Nat.eqb x) l = true); [|congruence].
        apply existsb_exists. exists x. split; [exact Hin|apply Nat.eqb_refl].
      * apply Forall_forall. intros i Hi.
        apply Nat.ltb_lt. exact (proj1 (forallb_forall _ _) Hf i Hi).
    + split; [apply length_seq|]. split; [apply seq_NoDup|].
      apply Forall_forall. intros i Hi. apply in_seq in Hi. lia.
Defined.

(** The six arrangements of two positions among three, each once. *)
Definition pairsOfThree : list (list nat) :=
  [[0; 1]; [0; 2]; [1; 0]; [1; 2]; [2; 0]; [2; 1]]%nat.

(** ** Inputs used to exercise the curation *)

Definition baseConfig : Config :=
  mkConfig 5 10 true false false [] false false 1000 1.

(** Excluded words set; no blacklist, no artist-overplay term. *)
Definition liveConfig : Config :=
  mkConfig 5 10 true false false ["live"%string] false false 1000 1.

(** The artist-overplay term enabled. *)
Definition artistConfig : Config :=
  mkConfig 5 10 true false false [] true false 1000 1.

(** The blacklist enabled. *)
Definition blacklistConfig : Config :=
  mkConfig 5 10 true false false [] false true 1000 1.

(** Two tracks of one artist: ["t1"] overplayed once, ["t2"] five times. *)
Definition bandInfo : Dict TrackInfo :=
  [("t1", ("Song", "Band", Some "a1")); ("t2", ("Other", "Band", Some "a1"))]%string.

Definition bandCounts : Dict Z := [("t1", 1%Z); ("t2", 5%Z)]%string.

(** The same tracks when only ["t2"] is overplayed, three times. *)
Definition otherCounts : Dict Z := [("t2", 3%Z)]%string.

(** A live recording, and the dictionary that resolves it. *)
Definition liveTrack : TrackObj :=
  mkTrackObj "t1" "Song (Live)" [mkArtist "Band" (Some "a1"%string)].

Definition liveInfo : Dict TrackInfo :=
  [("t1", ("Song (Live)", "Band", Some "a1"))]%string.

(** The scenario of the specification: track ["A"] overplayed three times
    and at top rank 10. *)
Definition scenarioCounts : Dict Z := [("A", 3%Z)]%string.
Definition scenarioRanks : Dict Z := [("A", 10%Z)]%string.
Definition scenarioTrack : TrackObj :=
  mkTrackObj "A" "Anthem" [mkArtist "Band" (Some "a1"%string)].
Definition scenarioInfo : Dict TrackInfo :=
  [("A", ("Anthem", "Band", Some "a1"))]%string.

(** Two radio artists, two songs of each. *)
Definition pairConfig : Config :=
  mkConfig 2 2 true false false [] false false 1000 1.

(** Three tracks of three artists. *)
Definition trioInfo : Dict TrackInfo :=
  [("t1", ("One", "Ann", Some "a1"));
   ("t2", ("Two", "Bob", Some "a2"));
   ("t3", ("Three", "Cy", Some "a3"))]%string.

(** The modifier 0.1 of a configuration file: the double nearest to
    [1 / 10]. *)
Definition tenthConfig : Config :=
  mkConfig 5 10 true false false [] false false 1000 (fl (1 # 10)).

(** A track overplayed once that stands at top rank 150. *)
Definition tenthCounts : Dict Z := [("t1", 1%Z)]%string.
Definition tenthRanks : Dict Z := [("t1", 150%Z)]%string.

(** Two recordings that share title and artist name under distinct ids. *)
Definition twinInfo : Dict TrackInfo :=
  [("t1", ("Song", "Band", Some "a1"));
   ("t2", ("Song", "Band", Some "a1"));
   ("t3", ("Other", "Band", Some "a1"))]%string.

End Curation.

(* ================================================================== *)
(** * The other operations of [SpotifyConnection] *)
(* ================================================================== *)

Module Playlists.
Import Executor PyDict Fetch.

(** The seconds a run has spent in [time.sleep], read off its events. *)
Definition sleptSeconds (events : list Event) : N :=
  fold_right (fun ev total => match ev with
                              | Sleep secs => (secs + total)%N
                              | Call _ => total
                              end) 0%N events.

(** Rate-limited twice, with [Retry-After: 30] and without the header,
    then unavailable for good. *)
Definition limitedThenDown : RemoteOp unit :=
  fun k => if (k =? 0)%nat
           then Raises (SpotifyException 429 (Some 30%N) "Too Many Requests")
           else if (k =? 1)%nat
                then Raises (SpotifyException 429 None "Too Many Requests")
                else Raises (SpotifyException 503 None "Service Unavailable").

(** An entry of the listing of the user's playlists: [p["name"]] and
    [p["id"]]. *)
Record PlaylistObj : Type := mkPlaylistObj {
  playlist_name : string;
  playlist_id : string
}.

(** A page of that listing, with the offset and limit of the following
    page when there is one. *)
Record PlaylistPage : Type := mkPlaylistPage {
  playlists : list PlaylistObj;
  playlists_next : option (nat * nat)
}.

(** What a request that returned asked the service to do to a playlist. *)
Inductive Request : Type :=
| ReplaceItems (playlistId : string) (newItems : list string)
| AddItems (playlistId : string) (newItems : list string).

(** The remote operations of [self.client] besides those of [Client].
    [next_playlists] is [client.next] on a page of playlists. *)
Record ClientMore : Type := mkClientMore {
  current_user_playlists : Z -> RemoteOp (option PlaylistPage);
  next_playlists : PlaylistPage -> RemoteOp (option PlaylistPage);
  user_playlist_create : string -> string -> RemoteOp PlaylistObj;
  current_user_top_tracks : Z -> Z -> string -> RemoteOp (list TrackObj);
  playlist_replace_items : string -> list string -> RemoteOp unit;
  playlist_add_items : string -> list string -> RemoteOp unit;
  artist_albums : string -> RemoteOp (list string);
  album_tracks : string -> RemoteOp (list TrackObj)
}.

(** [for p in results["items"]: if p["name"] == playlistName: return p["id"]] *)
Definition findPlaylist (playlistName : string) (ps : list PlaylistObj)
  : option string :=
  match find (fun p => (playlist_name p =? playlistName)%string) ps with
  | Some p => Some (playlist_id p)
  | None => None
  end.

(** The [while results:] loop of [getPlaylistIdByName]. *)
Fixpoint playlistIdPages (fuel : nat) (ops : ClientMore) (playlistName : string)
         (results : option PlaylistPage) (c : Conn)
  : option (Outcome (option string) * Conn) :=
  match fuel with
  | O => None
  | S fuel' =>
    match results with
    | None => Some (Returns None, c)
    | Some page =>
      match findPlaylist playlistName (playlists page) with
      | Some pid => Some (Returns (Some pid), c)
      | None =>
        match playlists_next page with
        | Some _ =>
          match _withRetry (next_playlists ops page) c with
          | (Returns results, c1) => playlistIdPages fuel' ops playlistName results c1
          | (Raises e, c1) => Some (Raises e, c1)
          end
        | None => Some (Returns None, c)
        end
      end
    end
  end.

Definition getPlaylistIdByName (fuel : nat) (ops : ClientMore)
           (playlistName : string) (c : Conn)
  : option (Outcome (option string) * Conn) :=
  match _withRetry (current_user_playlists ops 50) c with
  | (Returns results, c1) => playlistIdPages fuel ops playlistName results c1
  | (Raises e, c1) => Some (Raises e, c1)
  end.

(** [if not playlistId]: [None] or the empty string. *)
Definition noPlaylistId (playlistId : option string) : bool :=
  match playlistId with
  | Some pid => (pid =? EmptyString)%string
  | None => true
  end.

(** [user_playlist_create] through [_withRetry], and [newPl["id"]]. *)
Definition createPlaylist (ops : ClientMore) (playlistName description : string)
           (c : Conn) : Outcome string * Conn :=
  match _withRetry (user_playlist_create ops playlistName description) c with
  | (Returns newPl, c1) => (Returns (playlist_id newPl), c1)
  | (Raises e, c1) => (Raises e, c1)
  end.

Definition getOrCreatePlaylist (fuel : nat) (ops : ClientMore)
           (playlistName description : string) (c : Conn)
  : option (Outcome string * Conn) :=
  match getPlaylistIdByName fuel ops playlistName c with
  | None => None
  | Some (Raises e, c1) => Some (Raises e, c1)
  | Some (Returns playlistId, c1) =>
    match playlistId with
    | Some pid =>
      if (pid =? EmptyString)%string
      then Some (createPlaylist ops playlistName description c1)
      else Some (Returns pid, c1)
    | None => Some (createPlaylist ops playlistName description c1)
    end
  end.

(** The [for offset in range(0, maxTracks, 50)] loop of
    [getUserTopTracks], with its two [break]s. *)
Fixpoint topTracksLoop (ops : ClientMore) (maxTracks : Z) (timeRange : string)
         (offsets : list nat) (allIds : list string) (c : Conn)
  : Outcome (list string) * Conn :=
  match offsets with
  | [] => (Returns allIds, c)
  | offset :: offsets' =>
    let limitPerRequest := Z.min 50 (maxTracks - Z.of_nat offset) in
    match _withRetry (current_user_top_tracks ops limitPerRequest
                                              (Z.of_nat offset) timeRange) c with
    | (Returns its, c1) =>
      match its with
      | [] => (Returns allIds, c1)
      | _ =>
        let allIds := allIds ++ map track_id its in
        if (Z.of_nat (List.length its) <? limitPerRequest)%Z
        then (Returns allIds, c1)
        else topTracksLoop ops maxTracks timeRange offsets' allIds c1
      end
    | (Raises e, c1) => (Raises e, c1)
    end
  end.

Definition getUserTopTracks (ops : ClientMore) (maxTracks : Z) (timeRange : string)
           (c : Conn) : Outcome (list string) * Conn :=
  topTracksLoop ops maxTracks timeRange (range_step (Z.to_nat maxTracks) 50) [] c.

(** The state the write operations run in: the connection, and the
    requests the service has answered, oldest first.  An invocation that
    ends with an exception is taken to have left the playlists as they
    were. *)
Definition Wire : Type := (Conn * list Request)%type.

Definition clearPlaylist (ops : ClientMore) (playlistId : string) (w : Wire)
  : Outcome unit * Wire :=
  let (c, accepted) := w in
  match _withRetry (playlist_replace_items ops playlistId []) c with
  | (Returns _, c1) => (Returns tt, (c1, accepted ++ [ReplaceItems playlistId []]))
  | (Raises e, c1) => (Raises e, (c1, accepted))
  end.

(** The [for i in range(0, len(trackIds), 100)] loop of
    [addTracksToPlaylist]: an exception of [_withRetry] leaves the loop. *)
Fixpoint addBatches (ops : ClientMore) (playlistId : string)
         (trackIds : list string) (offsets : list nat) (w : Wire)
  : Outcome unit * Wire :=
  match offsets with
  | [] => (Returns tt, w)
  | i :: offsets' =>
    let (c, accepted) := w in
    let batch := firstn 100 (skipn i trackIds) in
    match _withRetry (playlist_add_items ops playlistId batch) c with
    | (Returns _, c1) =>
      addBatches ops playlistId trackIds offsets'
                 (c1, accepted ++ [AddItems playlistId batch])
    | (Raises e, c1) => (Raises e, (c1, accepted))
    end
  end.

Definition addTracksToPlaylist (ops : ClientMore) (playlistId : string)
           (trackIds : list string) (w : Wire) : Outcome unit * Wire :=
  addBatches ops playlistId trackIds (range_step (List.length trackIds) 100) w.

(** What a playlist holds once the service has carried out the requests
    it answered. *)
Definition applyRequest (playlistId : string) (contents : list string)
           (r : Request) : list string :=
  match r with
  | ReplaceItems pid newItems =>
    if (pid =? playlistId)%string then newItems else contents
  | AddItems pid newItems =>
    if (pid =? playlistId)%string then contents ++ newItems else contents
  end.

Definition contentsAfter (playlistId : string) (contents : list string)
           (accepted : list Request) : list string :=
  fold_left (applyRequest playlistId) accepted contents.

(** The loop body [getArtistsTopTracks], [getArtistsAlbums] and
    [getAlbumsTracks] share: one call for the entity, an empty list
    recorded when the call raised. *)
Definition lookupOne {A : Type} (op : string -> RemoteOp (list A))
           (st : Dict (list A) * Conn) (entityId : string)
  : Dict (list A) * Conn :=
  let (found, c) := st in
  match _withRetry (op entityId) c with
  | (Returns results, c1) => (dict_set entityId results found, c1)
  | (Raises _, c1) => (dict_set entityId [] found, c1)
  end.

(** The two loops the three functions share: [for i in range(0, len(ids),
    20)] over the batches [ids[i:i+20]], and inside it the loop over the
    entities of the batch. *)
Definition lookupAll {A : Type} (op : string -> RemoteOp (list A))
           (ids : list string) (c : Conn) : Dict (list A) * Conn :=
  fold_left
    (fun st i => fold_left (lookupOne op) (firstn 20 (skipn i ids)) st)
    (range_step (List.length ids) 20) ([], c).

Definition getArtistsTopTracks (client : Client) (artistIds : list string)
           (c : Conn) : Dict (list TrackObj) * Conn :=
  lookupAll (artist_top_tracks client) artistIds c.

Definition getArtistsAlbums (ops : ClientMore) (artistIds : list string)
           (c : Conn) : Dict (list string) * Conn :=
  lookupAll (artist_albums ops) artistIds c.

Definition getAlbumsTracks (ops : ClientMore) (albumIds : list string)
           (c : Conn) : Dict (list TrackObj) * Conn :=
  lookupAll (album_tracks ops) albumIds c.

(** One turn of [for i, name in enumerate(playlistNames)] of
    [getPlaylistsTracks]. *)
Definition playlistTracksOf (fuel : nat) (client : Client) (ops : ClientMore)
           (name : string) (c : Conn)
  : option (Outcome (list string) * Conn) :=
  if (name =? "Liked Songs")%string then getLikedTracks fuel client c
  else
    match getPlaylistIdByName fuel ops name c with
    | None => None
    | Some (Raises e, c1) => Some (Raises e, c1)
    | Some (Returns playlistId, c1) =>
      if noPlaylistId playlistId then Some (Returns [], c1)
      else
        match playlistId with
        | Some pid => getPlaylistTracks fuel client pid c1
        | None => Some (Returns [], c1)
        end
    end.

Fixpoint playlistsLoop (fuel : nat) (client : Client) (ops : ClientMore)
         (playlistNames : list string) (allPlaylistTracks : Dict (list string))
         (c : Conn) : option (Outcome (Dict (list string)) * Conn) :=
  match playlistNames with
  | [] => Some (Returns allPlaylistTracks, c)
  | name :: names' =>
    match playlistTracksOf fuel client ops name c with
    | None => None
    | Some (Raises e, c1) => Some (Raises e, c1)
    | Some (Returns tracks, c1) =>
      playlistsLoop fuel client ops names'
                    (dict_set name tracks allPlaylistTracks) c1
    end
  end.

Definition getPlaylistsTracks (fuel : nat) (client : Client) (ops : ClientMore)
           (playlistNames : list string) (c : Conn)
  : option (Outcome (Dict (list string)) * Conn) :=
  playlistsLoop fuel client ops playlistNames [] c.

(** ** A service that answers every request *)

Definition playlistPageOf (listing : list PlaylistObj) (limit offset : nat)
  : PlaylistPage :=
  mkPlaylistPage (firstn limit (skipn offset listing))
                 (if (offset + limit <? List.length listing)%nat
                  then Some ((offset + limit)%nat, limit) else None).

(** A service holding the listing of the user's playlists and the user's
    top tracks; a playlist it is asked to create gets the id [newId]. *)
Definition reliableMore (listing : list PlaylistObj) (top : list TrackObj)
           (newId : string) : ClientMore :=
  mkClientMore
    (fun limit _ => Returns (Some (playlistPageOf listing (Z.to_nat limit) 0)))
    (fun page _ =>
       match playlists_next page with
       | Some (offset, limit) => Returns (Some (playlistPageOf listing limit offset))
       | None => Returns None
       end)
    (fun name _ _ => Returns (mkPlaylistObj name newId))
    (fun limit offset _ _ =>
       Returns (firstn (Z.to_nat limit) (skipn (Z.to_nat offset) top)))
    (fun _ _ _ => Returns tt)
    (fun _ _ _ => Returns tt)
    (fun _ _ => Returns [])
    (fun _ _ => Returns []).

(** A service that answers every request but the addition of a batch
    that holds [bad], which it refuses. *)
Definition refusingAdd (bad : string) : ClientMore :=
  mkClientMore
    (fun _ _ => Returns None)
    (fun _ _ => Returns None)
    (fun name _ _ => Returns (mkPlaylistObj name "new"))
    (fun _ _ _ _ => Returns [])
    (fun _ _ _ => Returns tt)
    (fun _ batch _ =>
       if existsb (String.eqb bad) batch
       then Raises (SpotifyException 400 None "invalid id")
       else Returns tt)
    (fun _ _ => Returns [])
    (fun _ _ => Returns []).

Definition topTrack (tid : string) : TrackObj :=
  mkTrackObj tid ("Title of " ++ tid) [mkArtist "Artist" (Some "artist-1"%string)].

(** A service that does not know the artist [gone] and answers every
    other request. *)
Definition clientWithoutArtist (gone : string) : Client :=
  mkClient
    (fun _ _ _ => Returns None)
    (fun _ _ => Returns None)
    (fun _ _ _ => Returns (mkPage [] None))
    (fun batch _ => Returns (map (fun tid => Some (plainTrack tid)) batch))
    (fun artistId _ =>
       if (artistId =? gone)%string
       then Raises (SpotifyException 404 None "not found")
       else Returns [topTrack (artistId ++ "-hit")]).

(** A service whose saved-tracks listing answers every request with the
    same page of one track, whatever the offset. *)
Definition clientIgnoringOffset : Client :=
  mkClient
    (fun _ _ _ => Returns None)
    (fun _ _ => Returns None)
    (fun _ _ _ => Returns (mkPage [itemOf "s1"] None))
    (fun batch _ => Returns (map (fun tid => Some (plainTrack tid)) batch))
    (fun _ _ => Returns []).

(** A listing of three playlists, two of them with the same name. *)
Definition threePlaylists : list PlaylistObj :=
  [mkPlaylistObj "Road" "p1"; mkPlaylistObj "[RX] Master" "p2";
   mkPlaylistObj "Road" "p3"].

End Playlists.

(* ================================================================== *)
(** * The preparation and the write-back of [main] *)
(* ================================================================== *)

Module Orchestration.
Import Executor PyDict Fetch Curation Playlists.

(** [{tid: idx for idx, tid in enumerate(topTrackIds)}] *)
Definition topPositionsOf (topTrackIds : list string) : Dict Z :=
  fold_left
    (fun topPositions (p : nat * string) =>
       dict_set (snd p) (Z.of_nat (fst p)) topPositions)
    (combine (seq 0 (List.length topTrackIds)) topTrackIds) [].

(** The key under which an entry of [allInfo] goes into [trackMap]. *)
Definition keyOfEntry (entry : string * TrackInfo) : string :=
  let '(_, (n, a, _)) := entry in trackKey n a.

(** [counts[tid] = counts.get(tid, 0) + 1] for every [tid] of the
    listing: the loop that fills [tooMuchCounts], and again
    [trackOccurrences]. *)
Definition countTracks (tracks : list string) : Dict Z :=
  fold_left
    (fun counts tid => dict_set tid (dict_get_default tid 0%Z counts + 1)%Z counts)
    tracks [].

(** The loop that fills [artistNameCounts]. *)
Definition artistNameCountsOf (trackOccurrences : Dict Z)
           (tooMuchInfo : Dict TrackInfo) : Dict Z :=
  fold_left
    (fun artistNameCounts (entry : string * TrackInfo) =>
       let '(tid, (_, artistName, _)) := entry in
       if (artistName =? EmptyString)%string then artistNameCounts
       else
         let count := dict_get_default tid 1%Z trackOccurrences in
         dict_set artistName
                  (dict_get_default artistName 0%Z artistNameCounts + count)%Z
                  artistNameCounts)
    tooMuchInfo [].

(** The occurrences in the overplayed playlist of the resolved tracks
    whose first artist has this name: what [artistNameCounts] is meant to
    hold for the name. *)
Definition artistTotal (trackOccurrences : Dict Z) (tooMuchInfo : Dict TrackInfo)
           (artistName : string) : Z :=
  fold_right Z.add 0%Z
    (map (fun entry : string * TrackInfo =>
            dict_get_default (fst entry) 1%Z trackOccurrences)
         (filter (fun entry : string * TrackInfo =>
                    (snd (fst (snd entry)) =? artistName)%string)
                 tooMuchInfo)).

(** [s.add(x)] on a set kept as the list of its elements. *)
Definition set_add (x : string) (s : list string) : list string :=
  if existsb (String.eqb x) s then s else s ++ [x].

(** The loop that fills [artistTooMuch]. *)
Definition artistTooMuchOf (artistNameCounts : Dict Z)
           (tooMuchInfo : Dict TrackInfo) : list string :=
  fold_left
    (fun artistTooMuch (entry : string * TrackInfo) =>
       let '(_, (_, artistName, artistId)) := entry in
       match artistId with
       | Some aid =>
         if (aid =? EmptyString)%string then artistTooMuch
         else if (dict_get_default artistName 0%Z artistNameCounts >=? 3)%Z
              then set_add aid artistTooMuch
              else artistTooMuch
       | None => artistTooMuch
       end)
    tooMuchInfo [].

(** [{name for name, count in artistNameCounts.items() if count >= 10}] *)
Definition artistBlacklistNamesOf (artistNameCounts : Dict Z) : list string :=
  map fst (filter (fun entry : string * Z => (snd entry >=? 10)%Z) artistNameCounts).

(** [main], from [artistTooMuch = set()] to the two sets as the radio and
    the master loop receive them: [(artistTooMuch, artistBlacklistNames)].
    [tooMuchId] is what [getOrCreatePlaylist] answered for the overplayed
    playlist; the playlist is listed here a second time, after the listing
    that fills [tooMuchCounts].  [None] is a run that needs more than
    [fuel] pages. *)
Definition artistSets (fuel : nat) (client : Client) (config : Config)
           (tooMuchId : string) (c : Conn)
  : option (Outcome (list string * list string) * Conn) :=
  let artistTooMuch : list string := [] in
  let artistBlacklistNames : list string := [] in
  if artistIHearTooMuch config || artistBlacklist config then
    if (tooMuchId =? EmptyString)%string
    then Some (Returns (artistTooMuch, artistBlacklistNames), c)
    else
      match getPlaylistTracks fuel client tooMuchId c with
      | None => None
      | Some (Raises e, c1) => Some (Raises e, c1)
      | Some (Returns tooMuchTracks, c1) =>
        match tooMuchTracks with
        | [] => Some (Returns (artistTooMuch, artistBlacklistNames), c1)
        | _ =>
          let trackOccurrences := countTracks tooMuchTracks in
          let trackIds := dict_keys trackOccurrences in
          let (tooMuchInfo, c2) := getTracksInfo client (map PyStr trackIds) c1 in
          let artistNameCounts := artistNameCountsOf trackOccurrences tooMuchInfo in
          Some (Returns
                  (if artistIHearTooMuch config
                   then artistTooMuchOf artistNameCounts tooMuchInfo
                   else artistTooMuch,
                   if artistBlacklist config
                   then artistBlacklistNamesOf artistNameCounts
                   else artistBlacklistNames), c2)
        end
      end
  else Some (Returns (artistTooMuch, artistBlacklistNames), c).

(** [rawIds]: the listings of [allPlaylistTracks], one after the other. *)
Definition rawIdsOf (allPlaylistTracks : Dict (list string)) : list string :=
  fold_left (fun rawIds (entry : string * list string) => rawIds ++ snd entry)
            allPlaylistTracks [].

(** [list(set(rawIds))] lists every id once, in an order Python does not
    fix: [set_list] is that listing. *)
Definition SetListing (set_list : list string -> list string) : Prop :=
  forall l, NoDup (set_list l) /\ forall x, In x (set_list l) <-> In x l.

(** A listing of a set: the elements in the order of their first
    occurrence. *)
Definition firstOccurrences (l : list string) : list string :=
  rev (nodup string_dec (rev l)).

(** [random.shuffle] reorders a list. *)
Class ShuffleSource (G : Type) : Type := {
  random_shuffle : forall A : Type, list A -> G -> list A * G;
  random_shuffle_perm :
    forall (A : Type) (l : list A) (g : G),
      Permutation l (fst (random_shuffle l g))
}.

(** [l[:k]]: a negative [k] counts from the end. *)
Definition slice_to {A : Type} (l : list A) (k : Z) : list A :=
  if (k <? 0)%Z then firstn (List.length l - Z.to_nat (- k)) l
  else firstn (Z.to_nat k) l.

(** [main], the body of [if selected:] down to [finalTracks] as it is
    written to the master playlist.  [radioTracks] is what the lookup and
    the listing of the radio playlist gave: [None] when the playlist was
    not found. *)
Definition finalMasterTracks {G} `{ShuffleSource G} (config : Config)
           (selected : list string) (radioTracks : option (list string)) (g : G)
  : list string * G :=
  let (selected, g1) := random_shuffle selected g in
  let selected :=
      if (Z.of_nat (List.length selected) >? masterSongs config)%Z
      then slice_to selected (masterSongs config) else selected in
  let finalTracks := selected in
  if includeRadioInMaster config then
    match radioTracks with
    | Some ((_ :: _) as radioTracks) =>
      random_shuffle (finalTracks ++ radioTracks) g1
    | _ => (finalTracks, g1)
    end
  else (finalTracks, g1).

(** Three resolved tracks of the overplayed playlist, two of one artist,
    and the occurrences of the three ids in the playlist. *)
Definition overplayedInfo : Dict TrackInfo :=
  [("t1", ("Song", "Band", Some "a1"));
   ("t2", ("Other", "Band", Some "a1"));
   ("t3", ("Tune", "Solo", Some "a2"))]%string.

Definition overplayedOccurrences : Dict Z :=
  [("t1", 4%Z); ("t2", 7%Z); ("t3", 2%Z)]%string.

(** The configuration of the defaults with the word [live] excluded and
    Discover Weekly included in the radio. *)
Definition discoverConfig : Config :=
  mkConfig 5 10 true false true ["live"%string] false false 1000 1.

(** A shuffle that leaves the list as it is. *)
#[export] Instance KeepOrder : ShuffleSource unit.
Proof.
  refine (Build_ShuffleSource (fun A l g => (l, g)) _).
  intros A l g. apply Permutation_refl.
Defined.

(** [generateRadio], from [radioId = self.conn.getOrCreatePlaylist(...)]
    to the end: the radio playlist is emptied, and filled again with the
    shuffled tracks when there are any. *)
Definition writeRadio {G} `{ShuffleSource G} (fuel : nat) (ops : ClientMore)
           (description : string) (radioTracks : list string) (g : G) (w : Wire)
  : option (Outcome unit * Wire) :=
  let (c, accepted) := w in
  match getOrCreatePlaylist fuel ops "[RX] Radio" description c with
  | None => None
  | Some (Raises e, c1) => Some (Raises e, (c1, accepted))
  | Some (Returns radioId, c1) =>
    match clearPlaylist ops radioId (c1, accepted) with
    | (Raises e, w1) => Some (Raises e, w1)
    | (Returns _, w1) =>
      match radioTracks with
      | [] => Some (Returns tt, w1)
      | _ =>
        let (radioTracks, _) := random_shuffle radioTracks g in
        Some (addTracksToPlaylist ops radioId radioTracks w1)
      end
    end
  end.

(** [main], the body of [if config.get("includeRadioInMaster", False):]
    down to the listing of the radio playlist: [None] when the option is
    off or the playlist is not found. *)
Definition radioTracksForMaster (fuel : nat) (client : Client) (ops : ClientMore)
           (config : Config) (c : Conn)
  : option (Outcome (option (list string)) * Conn) :=
  if includeRadioInMaster config then
    match getPlaylistIdByName fuel ops "[RX] Radio" c with
    | None => None
    | Some (Raises e, c1) => Some (Raises e, c1)
    | Some (Returns radioId, c1) =>
      if noPlaylistId radioId then Some (Returns None, c1)
      else
        match radioId with
        | Some rid =>
          match getPlaylistTracks fuel client rid c1 with
          | None => None
          | Some (Raises e, c2) => Some (Raises e, c2)
          | Some (Returns radioTracks, c2) => Some (Returns (Some radioTracks), c2)
          end
        | None => Some (Returns None, c1)
        end
    end
  else Some (Returns None, c).

(** [main], from [if selected:] to the update of the master playlist. *)
Definition writeMaster {G} `{ShuffleSource G} (fuel : nat) (client : Client)
           (ops : ClientMore) (config : Config) (masterId : string)
           (selected : list string) (g : G) (w : Wire)
  : option (Outcome unit * Wire) :=
  match selected with
  | [] => Some (Returns tt, w)
  | _ =>
    let (c, accepted) := w in
    match radioTracksForMaster fuel client ops config c with
    | None => None
    | Some (Raises e, c1) => Some (Raises e, (c1, accepted))
    | Some (Returns radioTracks, c1) =>
      let (finalTracks, _) := finalMasterTracks config selected radioTracks g in
      match clearPlaylist ops masterId (c1, accepted) with
      | (Raises e, w1) => Some (Raises e, w1)
      | (Returns _, w1) => Some (addTracksToPlaylist ops masterId finalTracks w1)
      end
    end
  end.

(** The configuration of the defaults with a master playlist capped at
    two songs and the radio tracks shuffled into it. *)
Definition cappedConfig : Config :=
  mkConfig 5 10 true true false [] false false 2 1.

End Orchestration.

(* ================================================================== *)
(** * Facts about the executor *)
(* ================================================================== *)

Section ExecutorFacts.
Import Executor.
Variable R : Type.
Variable func : RemoteOp R.

Lemma eventsOf_app (from n m : nat) :
  eventsOf func from (n + m) =
  eventsOf func from n ++ eventsOf func (from + n) m.
Proof.
  revert from; induction n as [|n IH]; intros from.
  - simpl. rewrite Nat.add_0_r. reflexivity.
  - cbn [eventsOf Nat.add]. rewrite IH, <- app_assoc.
    replace (S from + n)%nat with (from + S n)%nat by lia. reflexivity.
Qed.

Lemma eventsOf_one (from : nat) :
  eventsOf func from 1 = attemptEvents func from.
Proof. cbn [eventsOf]. apply app_nil_r. Qed.

Lemma attemptEvents_failure (k : nat) (e : PyException) :
  func k = Raises e -> attemptEvents func k = Call k :: map Sleep (delayOf e).
Proof. intros H. unfold attemptEvents. rewrite H. reflexivity. Qed.

(** Gluing a failed first attempt in front of the run of the rest. *)
Lemma RunsAs_after_failure (n : nat) (c c1 : Conn) (e : PyException)
      (res : Outcome R * Conn) :
  func (invoked c) = Raises e ->
  invoked c1 = S (invoked c) ->
  apiCallCount c1 = apiCallCount c ->
  log c1 = log c ++ Call (invoked c) :: map Sleep (delayOf e) ->
  (n = O -> reraisedWhenExhausted e = false) ->
  RunsAs func n c1 res ->
  RunsAs func (S n) c res.
Proof.
  intros Hf Hi Ha Hs Hlast. destruct res as [o c']. unfold RunsAs.
  intros (m & Hm & Hinv & Hsl & Ho).
  exists (S m). split; [lia|]. split; [lia|]. split.
  - rewrite Hsl, Hs. change (S m) with (1 + m)%nat.
    rewrite eventsOf_app, eventsOf_one, (attemptEvents_failure Hf), Hi.
    replace (invoked c + 1)%nat with (S (invoked c)) by lia.
    rewrite <- !app_assoc. reflexivity.
  - destruct o as [r|e'].
    + destruct Ho as (H1 & Hr & Hfail & Hcnt).
      split; [lia|]. split.
      * rewrite <- Hr. f_equal. lia.
      * split; [|lia]. intros i Hi'. destruct i as [|i].
        -- rewrite Nat.add_0_r. exists e. exact Hf.
        -- replace (invoked c + S i)%nat with (invoked c1 + i)%nat by lia.
           apply Hfail. lia.
    + destruct Ho as (Hmn & Hfail & Hcnt & H0 & Hlst).
      split; [lia|]. split; [|split; [lia|split; [discriminate|]]].
      * intros i Hi'. destruct i as [|i].
        -- rewrite Nat.add_0_r. exists e. exact Hf.
        -- replace (invoked c + S i)%nat with (invoked c1 + i)%nat by lia.
           apply Hfail. lia.
      * intros e0 _ He0. destruct n as [|n].
        -- replace (invoked c + 1 - 1)%nat with (invoked c) in He0 by lia.
           rewrite Hf in He0. injection He0 as <-.
           rewrite (Hlast eq_refl). apply H0. reflexivity.
        -- apply Hlst; [lia|]. rewrite <- He0. f_equal. lia.
Qed.

Lemma RunsAs_raise_now (c c1 : Conn) (e : PyException) :
  func (invoked c) = Raises e ->
  invoked c1 = S (invoked c) ->
  apiCallCount c1 = apiCallCount c ->
  log c1 = log c ++ [Call (invoked c)] ->
  delayOf e = [] ->
  reraisedWhenExhausted e = true ->
  RunsAs func 1 c (Raises e, c1).
Proof.
  intros Hf Hi Ha Hs Hd Hr. exists 1%nat.
  split; [lia|]. split; [lia|]. split.
  - rewrite eventsOf_one, (attemptEvents_failure Hf), Hd. exact Hs.
  - split; [reflexivity|]. split; [|split; [exact Ha|split; [discriminate|]]].
    + intros i Hi'. replace i with O by lia. rewrite Nat.add_0_r. exists e; exact Hf.
    + intros e0 _ He0. replace (invoked c + 1 - 1)%nat with (invoked c) in He0 by lia.
      rewrite Hf in He0. injection He0 as <-. rewrite Hr. reflexivity.
Qed.

(** The loop, started with as many attempts left as the counter allows. *)
Lemma retryLoop_RunsAs (n : nat) (retryCount : Z) (c : Conn) :
  Z.of_nat n = (maxRetries - retryCount)%Z ->
  RunsAs func n c (retryLoop n func retryCount c).
Proof.
  revert retryCount c. induction n as [|n IH]; intros rc c Hn.
  - simpl. exists O. rewrite Nat.add_0_r, app_nil_r.
    repeat split; auto; intros; lia.
  - cbn [retryLoop].
    assert (Hlt : (rc <? maxRetries)%Z = true) by (apply Z.ltb_lt; lia).
    rewrite Hlt. unfold _call_with_timeout.
    assert (Hrec : Z.of_nat n = (maxRetries - (rc + 1))%Z) by lia.
    destruct (func (invoked c)) as [r|e] eqn:Hf.
    + exists 1%nat. rewrite eventsOf_one. unfold attemptEvents. rewrite Hf. cbn.
      replace (invoked c + 1 - 1)%nat with (invoked c) by lia.
      rewrite Hf. repeat split; auto; try lia.
      all: try (intros i Hi; lia).
    + destruct e as [msg|st ra msg|msg].
      * destruct (rc + 1 >=? maxRetries)%Z eqn:Hge.
        -- assert (n = O) by (apply Z.geb_le in Hge; lia). subst n.
           apply RunsAs_raise_now; auto.
        -- refine (@RunsAs_after_failure _ _ _ _ _ Hf _ _ _ _ (IH _ _ Hrec));
             [reflexivity|reflexivity| | ].
           ++ reflexivity.
           ++ intros ->. rewrite Z.geb_leb in Hge. apply Z.leb_gt in Hge. lia.
      * destruct (st =? 429)%Z eqn:H429;
          [|destruct (st =? 503)%Z eqn:H503;
            [|destruct (st >=? 500)%Z eqn:H500;
              [|destruct (rc + 1 >=? maxRetries)%Z eqn:Hge]]].
        -- refine (@RunsAs_after_failure _ _ _ _ _ Hf _ _ _ _ (IH _ _ Hrec));
             [reflexivity|reflexivity| | ].
           ++ cbn. rewrite H429. cbn. rewrite <- app_assoc. reflexivity.
           ++ intros _. unfold reraisedWhenExhausted. simpl. rewrite H429. reflexivity.
        -- refine (@RunsAs_after_failure _ _ _ _ _ Hf _ _ _ _ (IH _ _ Hrec));
             [reflexivity|reflexivity| | ].
           ++ cbn. rewrite H429, H503. cbn. rewrite <- app_assoc. reflexivity.
           ++ intros _. unfold reraisedWhenExhausted. simpl.
              rewrite H429, H503. reflexivity.
        -- refine (@RunsAs_after_failure _ _ _ _ _ Hf _ _ _ _ (IH _ _ Hrec));
             [reflexivity|reflexivity| | ].
           ++ cbn. rewrite H429, H503, H500. cbn. rewrite <- app_assoc. reflexivity.
           ++ intros _. unfold reraisedWhenExhausted. simpl.
              rewrite H429, H503, H500. reflexivity.
        -- assert (n = O) by (apply Z.geb_le in Hge; lia). subst n.
           apply RunsAs_raise_now; auto; simpl.
           ++ rewrite H429, H503, H500. reflexivity.
           ++ unfold reraisedWhenExhausted. simpl.
              rewrite H429, H503, H500. reflexivity.
        -- refine (@RunsAs_after_failure _ _ _ _ _ Hf _ _ _ _ (IH _ _ Hrec));
             [reflexivity|reflexivity| | ].
           ++ cbn. rewrite H429, H503, H500. reflexivity.
           ++ intros ->. rewrite Z.geb_leb in Hge. apply Z.leb_gt in Hge. lia.
      * destruct (rc + 1 >=? maxRetries)%Z eqn:Hge.
        -- assert (n = O) by (apply Z.geb_le in Hge; lia). subst n.
           apply RunsAs_raise_now; auto.
        -- refine (@RunsAs_after_failure _ _ _ _ _ Hf _ _ _ _ (IH _ _ Hrec));
             [reflexivity|reflexivity| | ].
           ++ reflexivity.
           ++ intros ->. rewrite Z.geb_leb in Hge. apply Z.leb_gt in Hge. lia.
Qed.

Lemma _withRetry_RunsAs (c : Conn) :
  RunsAs func 5 c (_withRetry func c).
Proof. apply (retryLoop_RunsAs 5 0 c). reflexivity. Qed.

Lemma _withRetry_all_fail (c : Conn) :
  (forall k, failsAt func k) ->
  exists e c', _withRetry func c = (Raises e, c').
Proof.
  intros Hall. pose proof (_withRetry_RunsAs c) as Hrun.
  destruct (_withRetry func c) as [[r|e] c']; [|eauto].
  destruct Hrun as (m & _ & _ & _ & _ & Hr & _).
  destruct (Hall (invoked c + m - 1)%nat) as [e He]. congruence.
Qed.

End ExecutorFacts.

Import Executor.

(** C3, as the code has it.  When the five attempts of a logical call all
    fail, [_withRetry] never returns a value and makes exactly five
    invocations.  If the last failure is a time-out, a client error (a
    status other than 429 and 503 below 500) or an unexpected error, the
    exception raised is that last failure itself; if it is rate-limited,
    service-unavailable or a server error, the exception raised is the
    generic [Exception("Failed after 5 attempts")], which carries no
    underlying error. *)
Theorem withRetry_exhausted (R : Type) (func : RemoteOp R) (c : Conn) :
  (forall i, (i < 5)%nat -> failsAt func (invoked c + i)) ->
  exists e,
    func (invoked c + 4)%nat = Raises e /\
    fst (_withRetry func c) =
      Raises (match classify e with
              | Timeout | ClientError | Unexpected => e
              | RateLimited | ServiceUnavailable | ServerError => failedAfter
              end) /\
    invoked (snd (_withRetry func c)) = (invoked c + 5)%nat.
Proof.
  intros Hall. pose proof (_withRetry_RunsAs func c) as Hrun.
  destruct (_withRetry func c) as [o c']. cbn [fst snd].
  destruct Hrun as (m & Hm & Hinv & Hlog & Ho).
  destruct (Hall 4%nat ltac:(lia)) as [e He]. exists e. split; [exact He|].
  destruct o as [r|e'].
  - destruct Ho as (H1 & Hr & _). exfalso.
    destruct (Hall (m - 1)%nat ltac:(lia)) as [e1 He1].
    replace (invoked c + (m - 1))%nat with (invoked c + m - 1)%nat in He1 by lia.
    congruence.
  - destruct Ho as (-> & _ & _ & _ & Hlast). split; [|exact Hinv].
    rewrite (Hlast e); [|lia|rewrite <- He; f_equal; lia].
    unfold reraisedWhenExhausted. destruct (classify e); reflexivity.
Qed.

Lemma withRetry_exhausted_witness :
  exists e,
    alwaysTimesOut (invoked freshConn + 4)%nat = Raises e /\
    fst (_withRetry alwaysTimesOut freshConn) =
      Raises (match classify e with
              | Timeout | ClientError | Unexpected => e
              | RateLimited | ServiceUnavailable | ServerError => failedAfter
              end) /\
    invoked (snd (_withRetry alwaysTimesOut freshConn)) = (invoked freshConn + 5)%nat.
Proof.
  apply (@withRetry_exhausted unit alwaysTimesOut freshConn).
  intros i _. eexists. reflexivity.
Defined.

(** C3 as stated fails: an operation answered 503 five times makes
    [_withRetry] raise the generic exception, not the last underlying
    error. *)
Lemma unavailable_five_times_drops_error :
  (forall i, failsAt alwaysUnavailable i) /\
  fst (_withRetry alwaysUnavailable freshConn) =
    Raises (OtherException "Failed after 5 attempts") /\
  ~ (forall (func : RemoteOp unit) (c : Conn),
        (forall i, (i < 5)%nat -> failsAt func (invoked c + i)) ->
        exists e, func (invoked c + 4)%nat = Raises e /\
                  fst (_withRetry func c) = Raises e).
Proof.
  split; [intros i; eexists; reflexivity|]. split; [reflexivity|].
  intros H. destruct (H alwaysUnavailable freshConn) as (e & He & Hr).
  - intros i _. eexists; reflexivity.
  - cbv in He. cbv in Hr. congruence.
Qed.

(** C4.  A logical call adds one to [apiCallCount] exactly when it returns
    a value, and nothing otherwise: a call whose first success is attempt
    [k] (after [k] failed attempts) returns that value with the counter one
    higher; a call whose five attempts all fail raises and leaves the
    counter as it was. *)
Theorem withRetry_apiCallCount (R : Type) (func : RemoteOp R) (c : Conn) :
  apiCallCount (snd (_withRetry func c)) =
    (apiCallCount c +
     match fst (_withRetry func c) with Returns _ => 1 | Raises _ => 0 end)%Z /\
  (forall k r,
      (k < 5)%nat ->
      (forall i, (i < k)%nat -> failsAt func (invoked c + i)) ->
      func (invoked c + k)%nat = Returns r ->
      fst (_withRetry func c) = Returns r /\
      apiCallCount (snd (_withRetry func c)) = (apiCallCount c + 1)%Z) /\
  ((forall i, (i < 5)%nat -> failsAt func (invoked c + i)) ->
   (exists e, fst (_withRetry func c) = Raises e) /\
   apiCallCount (snd (_withRetry func c)) = apiCallCount c).
Proof.
  pose proof (_withRetry_RunsAs func c) as Hrun.
  destruct (_withRetry func c) as [o c']. cbn [fst snd].
  destruct Hrun as (m & Hm & Hinv & Hlog & Ho).
  split; [|split].
  - destruct o; [destruct Ho as (_ & _ & _ & ->)|destruct Ho as (_ & _ & -> & _)]; lia.
  - intros k r Hk Hfail Hok. destruct o as [r'|e].
    + destruct Ho as (H1 & Hr & Hbefore & Hcnt). split; [|exact Hcnt].
      assert (m - 1 = k)%nat as Hmk.
      { destruct (Nat.lt_trichotomy (m - 1) k) as [Hlt|[Heq|Hgt]]; [|exact Heq|].
        - destruct (Hfail (m - 1)%nat Hlt) as [e He].
          replace (invoked c + (m - 1))%nat with (invoked c + m - 1)%nat in He by lia.
          congruence.
        - destruct (Hbefore k Hgt) as [e He]. congruence. }
      replace (invoked c + m - 1)%nat with (invoked c + k)%nat in Hr by lia.
      congruence.
    + destruct Ho as (-> & Hall & _). destruct (Hall k Hk) as [e0 He0]. congruence.
  - intros Hall. destruct o as [r|e].
    + destruct Ho as (H1 & Hr & _). exfalso.
      destruct (Hall (m - 1)%nat ltac:(lia)) as [e1 He1].
      replace (invoked c + (m - 1))%nat with (invoked c + m - 1)%nat in He1 by lia.
      congruence.
    + destruct Ho as (_ & _ & Hcnt & _). split; [eexists; reflexivity|exact Hcnt].
Qed.

Lemma withRetry_apiCallCount_witness :
  (fst (_withRetry succeedsThird freshConn) = Returns 7%Z /\
   apiCallCount (snd (_withRetry succeedsThird freshConn)) = 1%Z) /\
  ((exists e, fst (_withRetry alwaysTimesOut freshConn) = Raises e) /\
   apiCallCount (snd (_withRetry alwaysTimesOut freshConn)) = 0%Z).
Proof.
  split.
  - destruct (@withRetry_apiCallCount Z succeedsThird freshConn) as (_ & H & _).
    apply (H 2%nat 7%Z).
    + lia.
    + intros i Hi. destruct i as [|[|i]]; [eexists; reflexivity|eexists; reflexivity|lia].
    + reflexivity.
  - destruct (@withRetry_apiCallCount unit alwaysTimesOut freshConn) as (_ & _ & H).
    apply H. intros i _. eexists; reflexivity.
Defined.

(** C7.  In the events of a logical call, an attempt answered 429 is
    followed by exactly one [time.sleep] of the [Retry-After] value (of 1
    when the header is absent) and then by the next attempt, if there is
    one; the call makes at most five attempts, rate-limited ones included,
    and exactly five when it fails. *)
Theorem withRetry_rate_limited_sleep (R : Type) (func : RemoteOp R) (c : Conn)
        (i : nat) (retry_after : option N) (msg : string) :
  let c' := snd (_withRetry func c) in
  let n := (invoked c' - invoked c)%nat in
  (i < n)%nat ->
  func (invoked c + i)%nat = Raises (SpotifyException 429 retry_after msg) ->
  (n <= 5)%nat /\
  (forall e, fst (_withRetry func c) = Raises e -> n = 5%nat) /\
  log c' =
    log c ++ eventsOf func (invoked c) i
          ++ [Call (invoked c + i);
              Sleep (match retry_after with Some t => t | None => 1%N end)]
          ++ eventsOf func (invoked c + S i) (n - S i).
Proof.
  pose proof (_withRetry_RunsAs func c) as Hrun.
  destruct (_withRetry func c) as [o c']. cbn [fst snd].
  destruct Hrun as (m & Hm & Hinv & Hlog & Ho).
  intros Hi Hf. rewrite Hinv in *.
  replace (invoked c + m - invoked c)%nat with m in * by lia.
  split; [exact Hm|]. split.
  - intros e ->. destruct Ho as (-> & _). reflexivity.
  - rewrite Hlog. f_equal.
    replace m with (i + (1 + (m - S i)))%nat at 1 by lia.
    rewrite eventsOf_app, eventsOf_app, eventsOf_one, (@attemptEvents_failure _ func _ _ Hf).
    replace (invoked c + i + 1)%nat with (invoked c + S i)%nat by lia.
    reflexivity.
Qed.

Lemma withRetry_rate_limited_sleep_witness :
  log (snd (_withRetry rateLimitedOnce freshConn)) =
    [Call 0; Sleep 2%N; Call 1].
Proof.
  destruct (@withRetry_rate_limited_sleep Z rateLimitedOnce freshConn 0%nat
              (Some 2%N) "Too Many Requests") as (_ & _ & H).
  - vm_compute. lia.
  - reflexivity.
  - exact H.
Defined.

(* ================================================================== *)
(** * Facts about the fetches *)
(* ================================================================== *)

Import PyDict Fetch.

Lemma div_step (x k : nat) :
  (0 < k)%nat -> (k <= x)%nat -> (x / k = S ((x - k) / k))%nat.
Proof.
  intros Hk Hx. replace x with ((x - k) + 1 * k)%nat at 1 by lia.
  rewrite Nat.div_add by lia. lia.
Qed.

Lemma retryLoop_first_success (R : Type) (func : RemoteOp R) (n : nat)
      (retryCount : Z) (c : Conn) (r : R) :
  (retryCount <? maxRetries)%Z = true ->
  func (invoked c) = Returns r ->
  retryLoop (S n) func retryCount c = (Returns r, afterRequests 1 c).
Proof.
  intros Hlt H. cbn [retryLoop]. rewrite Hlt. unfold _call_with_timeout.
  rewrite H. unfold countCall, afterRequests. cbn. rewrite Nat.add_1_r.
  reflexivity.
Qed.

Lemma _withRetry_first_success (R : Type) (func : RemoteOp R) (c : Conn) (r : R) :
  func (invoked c) = Returns r ->
  _withRetry func c = (Returns r, afterRequests 1 c).
Proof.
  intros H. unfold _withRetry. change (Z.to_nat maxRetries) with 5%nat.
  apply retryLoop_first_success; [reflexivity|exact H].
Qed.

Lemma afterRequests_0 (c : Conn) : afterRequests 0 c = c.
Proof.
  destruct c as [a i l]. unfold afterRequests. cbn.
  rewrite Z.add_0_r, Nat.add_0_r, app_nil_r. reflexivity.
Qed.

Lemma afterRequests_add (n m : nat) (c : Conn) :
  afterRequests m (afterRequests n c) = afterRequests (n + m) c.
Proof.
  destruct c as [a i l]. unfold afterRequests. cbn. f_equal.
  - lia.
  - lia.
  - rewrite <- app_assoc, seq_app, map_app. reflexivity.
Qed.

Lemma appendTrackIds_trackIdsOf (its : list Item) (acc : list string) :
  appendTrackIds its acc = acc ++ trackIdsOf its.
Proof.
  unfold appendTrackIds. revert acc.
  induction its as [|[[[[tid|]]|]] its IH]; intros acc; cbn.
  - rewrite app_nil_r. reflexivity.
  - destruct (tid =? EmptyString)%string; cbn; rewrite IH; [reflexivity|].
    rewrite <- app_assoc. reflexivity.
  - apply IH.
  - apply IH.
Qed.

Lemma trackIdsOf_app (l1 l2 : list Item) :
  trackIdsOf (l1 ++ l2) = trackIdsOf l1 ++ trackIdsOf l2.
Proof. unfold trackIdsOf. apply flat_map_app. Qed.

Lemma trackIdsOf_length (contents : list Item) :
  Forall hasTrackId contents ->
  List.length (trackIdsOf contents) = List.length contents.
Proof.
  induction 1 as [|item l (tid & Ht & Hne) _ IH]; [reflexivity|].
  change (item :: l) with ([item] ++ l). rewrite trackIdsOf_app, length_app, IH.
  cbn. rewrite Ht. apply String.eqb_neq in Hne. rewrite Hne. reflexivity.
Qed.

Section ReliableService.
Variables (playlist liked : list Item) (catalog : list TrackObj).
Let client := reliableClient playlist liked catalog.

(** From the page at [offset] on, the playlist loop asks for the pages that
    remain and stops at the first page without a following one. *)
Lemma playlistPages_reliable (fuel offset : nat) (acc : list string) (c : Conn) :
  ((List.length playlist - offset - 1) / 100 < fuel)%nat ->
  playlistPages fuel client (Some (pageOf playlist 100 offset)) acc c =
  Some (Returns (acc ++ trackIdsOf (skipn offset playlist)),
        afterRequests ((List.length playlist - offset - 1) / 100) c).
Proof.
  revert offset acc c. induction fuel as [|fuel IH]; intros offset acc c Hfuel; [lia|].
  cbn [playlistPages pageOf next items].
  destruct (offset + 100 <? List.length playlist)%nat eqn:Hmore.
  - apply Nat.ltb_lt in Hmore.
    assert (Hdiv : ((List.length playlist - offset - 1) / 100 =
                    S ((List.length playlist - (offset + 100) - 1) / 100))%nat).
    { rewrite (@div_step (List.length playlist - offset - 1) 100) by lia.
      do 2 f_equal. lia. }
    rewrite Hdiv in *.
    rewrite (@_withRetry_first_success _ _ c (Some (pageOf playlist 100 (offset + 100))));
      [|unfold client, reliableClient; cbn [client_next next pageOf];
        apply Nat.ltb_lt in Hmore; rewrite Hmore; reflexivity].
    rewrite IH by lia. rewrite afterRequests_add, appendTrackIds_trackIdsOf.
    rewrite <- app_assoc, <- trackIdsOf_app.
    replace (skipn (offset + 100) playlist) with (skipn 100 (skipn offset playlist))
      by (rewrite skipn_skipn; f_equal; lia).
    rewrite firstn_skipn. reflexivity.
  - apply Nat.ltb_ge in Hmore.
    rewrite appendTrackIds_trackIdsOf, firstn_all2
      by (rewrite length_skipn; lia).
    rewrite (Nat.div_small (List.length playlist - offset - 1) 100) by lia.
    rewrite afterRequests_0. reflexivity.
Qed.

Lemma getPlaylistTracks_reliable (fuel : nat) (playlistId : string) (c : Conn) :
  ((List.length playlist - 1) / 100 < fuel)%nat ->
  getPlaylistTracks fuel client playlistId c =
  Some (Returns (trackIdsOf playlist),
        afterRequests (1 + (List.length playlist - 1) / 100) c).
Proof.
  intros Hfuel. unfold getPlaylistTracks.
  rewrite (@_withRetry_first_success _ _ c (Some (pageOf playlist 100 0)))
    by reflexivity.
  rewrite playlistPages_reliable by (rewrite Nat.sub_0_r; exact Hfuel).
  rewrite afterRequests_add, Nat.sub_0_r. reflexivity.
Qed.

(** From [offset] on, the liked-tracks loop asks for the pages that remain
    and for one more, the empty page that ends it. *)
Lemma likedPages_reliable (fuel offset : nat) (acc : list string) (c : Conn) :
  ((List.length liked - offset + 49) / 50 < fuel)%nat ->
  likedPages fuel client (Z.of_nat offset) acc c =
  Some (Returns (acc ++ trackIdsOf (skipn offset liked)),
        afterRequests ((List.length liked - offset + 49) / 50 + 1) c).
Proof.
  revert offset acc c. induction fuel as [|fuel IH]; intros offset acc c Hfuel; [lia|].
  cbn [likedPages].
  rewrite (@_withRetry_first_success _ _ c (pageOf liked 50 offset))
    by (unfold client, reliableClient; cbn [current_user_saved_tracks];
        rewrite Nat2Z.id; reflexivity).
  cbn [pageOf items].
  destruct (firstn 50 (skipn offset liked)) as [|item its] eqn:Hpage.
  - assert (Hlen : List.length (firstn 50 (skipn offset liked)) = 0%nat)
      by (rewrite Hpage; reflexivity).
    rewrite length_firstn, length_skipn in Hlen.
    rewrite skipn_all2 by lia. cbn [trackIdsOf flat_map]. rewrite app_nil_r.
    replace (List.length liked - offset + 49)%nat with 49%nat by lia.
    reflexivity.
  - rewrite <- Hpage.
    assert (Hlen : List.length (firstn 50 (skipn offset liked)) =
                   Nat.min 50 (List.length liked - offset))
      by (rewrite length_firstn, length_skipn; reflexivity).
    assert (Hpos : (0 < List.length (firstn 50 (skipn offset liked)))%nat)
      by (rewrite Hpage; cbn [List.length]; lia).
    assert (Hdiv : ((List.length liked - offset + 49) / 50 =
                    S ((List.length liked -
                        (offset + List.length (firstn 50 (skipn offset liked))) + 49) / 50))%nat).
    { rewrite (@div_step (List.length liked - offset + 49) 50) by lia.
      f_equal. rewrite Hlen.
      destruct (Nat.le_gt_cases 50 (List.length liked - offset)) as [Hbig|Hsmall].
      - f_equal. lia.
      - rewrite !Nat.div_small by lia. reflexivity. }
    rewrite Hdiv in *.
    rewrite <- Nat2Z.inj_add, IH by lia.
    rewrite afterRequests_add, appendTrackIds_trackIdsOf, <- app_assoc, <- trackIdsOf_app.
    replace (skipn (offset + List.length (firstn 50 (skipn offset liked))) liked)
      with (skipn 50 (skipn offset liked)).
    + rewrite firstn_skipn. reflexivity.
    + rewrite skipn_skipn. rewrite Hlen.
      destruct (Nat.le_gt_cases 50 (List.length liked - offset)) as [Hbig|Hsmall].
      * f_equal. lia.
      * rewrite !skipn_all2 by lia. reflexivity.
Qed.

Lemma getLikedTracks_reliable (fuel : nat) (c : Conn) :
  ((List.length liked + 49) / 50 < fuel)%nat ->
  getLikedTracks fuel client c =
  Some (Returns (trackIdsOf liked),
        afterRequests ((List.length liked + 49) / 50 + 1) c).
Proof.
  intros Hfuel. unfold getLikedTracks.
  change 0%Z with (Z.of_nat 0).
  rewrite likedPages_reliable by (rewrite Nat.sub_0_r; exact Hfuel).
  rewrite Nat.sub_0_r. reflexivity.
Qed.

End ReliableService.

Lemma playlist_request_count (n : nat) :
  (1 + (n - 1) / 100 = Nat.max 1 ((n + 99) / 100))%nat.
Proof.
  destruct n as [|n].
  - reflexivity.
  - replace (S n + 99)%nat with (n + 1 * 100)%nat by lia.
    rewrite Nat.div_add by lia. replace (S n - 1)%nat with n by lia. lia.
Qed.

(** C5, as the code has it.  Against a service that answers every request,
    over a listing of [N] items: [getPlaylistTracks] (pages of 100) ends
    after [max 1 (ceil (N / 100))] page requests; [getLikedTracks] (pages
    of 50) ends after [ceil (N / 50) + 1] page requests, the last of which
    returns the empty page that stops the loop; each counts its requests in
    [apiCallCount] and returns, in page order, the ids of the items that
    carry a track with a non-empty id, which are [N] ids when every item
    carries one. *)
Theorem paginated_fetch_requests (playlist liked : list Item)
        (catalog : list TrackObj) (playlistId : string) (c : Conn) (fuel : nat) :
  let client := reliableClient playlist liked catalog in
  let N := List.length playlist in
  let M := List.length liked in
  (N / 100 < fuel)%nat ->
  (M / 50 + 1 < fuel)%nat ->
  getPlaylistTracks fuel client playlistId c =
    Some (Returns (trackIdsOf playlist),
          afterRequests (Nat.max 1 ((N + 99) / 100)) c) /\
  getLikedTracks fuel client c =
    Some (Returns (trackIdsOf liked), afterRequests ((M + 49) / 50 + 1) c) /\
  (Forall hasTrackId playlist -> List.length (trackIdsOf playlist) = N) /\
  (Forall hasTrackId liked -> List.length (trackIdsOf liked) = M).
Proof.
  intros client N M HN HM. split; [|split; [|split]].
  - rewrite <- playlist_request_count. apply getPlaylistTracks_reliable.
    eapply Nat.le_lt_trans; [|exact HN].
    apply Nat.Div0.div_le_mono. lia.
  - apply getLikedTracks_reliable.
    eapply Nat.le_lt_trans; [|exact HM].
    replace (M / 50 + 1)%nat with ((M + 1 * 50) / 50)%nat
      by (rewrite Nat.div_add by lia; reflexivity).
    apply Nat.Div0.div_le_mono. lia.
  - apply trackIdsOf_length.
  - apply trackIdsOf_length.
Qed.

Lemma paginated_fetch_requests_witness :
  getPlaylistTracks 4 (reliableClient [itemOf "p1"; itemOf "p2"] [itemOf "s1"] [])
                    "playlist" freshConn =
    Some (Returns ["p1"; "p2"]%string, mkConn 1 1 [Call 0]) /\
  getLikedTracks 4 (reliableClient [itemOf "p1"; itemOf "p2"] [itemOf "s1"] [])
                 freshConn =
    Some (Returns ["s1"%string], mkConn 2 2 [Call 0; Call 1]).
Proof.
  destruct (@paginated_fetch_requests [itemOf "p1"; itemOf "p2"] [itemOf "s1"] []
              "playlist" freshConn 4) as (Hp & Hl & _).
  - apply Nat.ltb_lt. reflexivity.
  - apply Nat.ltb_lt. reflexivity.
  - split; [exact Hp|exact Hl].
Defined.

(** C5 as stated fails: one saved track is fetched with two page requests,
    not with [ceil (1 / 50) = 1]. *)
Lemma one_saved_track_two_requests :
  getLikedTracks 3 (reliableClient [] [itemOf "s1"] []) freshConn =
    Some (Returns ["s1"%string], mkConn 2 2 [Call 0; Call 1]) /\
  ((1 + 50 - 1) / 50 = 1)%nat /\
  ~ (forall (liked : list Item) (fuel : nat) (ids : list string) (c' : Conn),
        getLikedTracks fuel (reliableClient [] liked []) freshConn =
          Some (Returns ids, c') ->
        invoked c' = ((List.length liked + 50 - 1) / 50)%nat).
Proof.
  split; [vm_compute; reflexivity|]. split; [reflexivity|].
  intros H.
  specialize (H [itemOf "s1"] 3%nat ["s1"%string] (mkConn 2 2 [Call 0; Call 1])).
  assert (Hrun : getLikedTracks 3 (reliableClient [] [itemOf "s1"] []) freshConn =
                 Some (Returns ["s1"%string], mkConn 2 2 [Call 0; Call 1]))
    by (vm_compute; reflexivity).
  specialize (H Hrun). vm_compute in H. discriminate H.
Qed.

(** ** Dictionaries *)

Lemma dict_get_app (V : Type) (k : string) (d1 d2 : Dict V) :
  dict_get k (d1 ++ d2) =
  match dict_get k d1 with Some v => Some v | None => dict_get k d2 end.
Proof.
  induction d1 as [|[k' v'] d1 IH]; cbn; [reflexivity|].
  destruct (k =? k')%string; [reflexivity|exact IH].
Qed.

Lemma dict_get_None (V : Type) (k : string) (d : Dict V) :
  ~ In k (dict_keys d) -> dict_get k d = None.
Proof.
  induction d as [|[k' v'] d IH]; cbn; intros Hk; [reflexivity|].
  destruct (String.eqb_spec k k') as [->|Hne]; [exfalso; auto|].
  apply IH. intros H. apply Hk. right. exact H.
Qed.

Lemma dict_set_fresh (V : Type) (k : string) (v : V) (d : Dict V) :
  ~ In k (dict_keys d) -> dict_set k v d = d ++ [(k, v)].
Proof.
  induction d as [|[k' v'] d IH]; cbn; intros Hk; [reflexivity|].
  destruct (String.eqb_spec k k') as [->|Hne]; [exfalso; auto|].
  rewrite IH; [reflexivity|]. intros H. apply Hk. right. exact H.
Qed.

Lemma NoDup_app_disjoint (A : Type) (l1 l2 : list A) (a : A) :
  NoDup (l1 ++ l2) -> In a l1 -> In a l2 -> False.
Proof.
  induction l1 as [|x l1 IH]; cbn; intros Hnd H1 H2; [exact H1|].
  inversion Hnd as [|? ? Hx Hnd']; subst. destruct H1 as [->|H1].
  - apply Hx. apply in_or_app. right. exact H2.
  - exact (IH Hnd' H1 H2).
Qed.

Section Resolved.
Variable resolve : string -> TrackObj.
Hypothesis resolve_id : forall tid, track_id (resolve tid) = tid.

Lemma dict_keys_entries (l : list string) :
  dict_keys (map (entryOf resolve) l) = l.
Proof.
  unfold dict_keys. rewrite map_map. cbn. apply map_id.
Qed.

Lemma dict_get_entries_In (l : list string) (tid : string) :
  In tid l -> dict_get tid (map (entryOf resolve) l) = Some (infoOf (resolve tid)).
Proof.
  induction l as [|x l IH]; cbn; [tauto|]. intros [->|H].
  - rewrite String.eqb_refl. reflexivity.
  - destruct (String.eqb_spec tid x) as [->|_]; [reflexivity|exact (IH H)].
Qed.

(** Recording the answer for a batch of ids, none of them known yet,
    appends their entries in order. *)
Lemma recordTracks_fresh (batch : list string) (info : Dict TrackInfo) :
  NoDup (dict_keys info ++ batch) ->
  fold_left recordTrack (map (fun tid => Some (resolve tid)) batch) info =
  info ++ map (entryOf resolve) batch.
Proof.
  revert info. induction batch as [|tid batch IH]; intros info Hnd; cbn.
  - rewrite app_nil_r. reflexivity.
  - rewrite resolve_id, dict_set_fresh.
    + rewrite IH.
      * rewrite <- app_assoc. reflexivity.
      * unfold dict_keys in *. rewrite map_app, <- app_assoc. exact Hnd.
    + intros Hin. apply (@NoDup_app_disjoint _ _ _ tid Hnd Hin). left. reflexivity.
Qed.

End Resolved.

(** ** The batch loop of [getTracksInfo] *)

Lemma range_step_covers (n : nat) :
  (n <= (n + batchSize - 1) / batchSize * batchSize)%nat.
Proof.
  unfold batchSize.
  pose proof (Nat.div_mod_eq (n + 50 - 1) 50) as Hdm.
  pose proof (Nat.mod_upper_bound (n + 50 - 1) 50 ltac:(lia)) as Hlt.
  lia.
Qed.

Lemma range_step_inside (n j : nat) :
  (j < (n + batchSize - 1) / batchSize)%nat -> (j * batchSize < n)%nat.
Proof.
  unfold batchSize. intros Hj.
  pose proof (Nat.div_mod_eq (n + 50 - 1) 50) as Hdm.
  pose proof (Nat.mod_upper_bound (n + 50 - 1) 50 ltac:(lia)) as Hlt.
  lia.
Qed.

Lemma concat_chunks (q : nat) (l : list string) :
  (List.length l <= q * batchSize)%nat ->
  List.concat (map (fun j => batchAt l (j * batchSize)) (seq 0 q)) = l.
Proof.
  revert l. induction q as [|q IH]; intros l Hlen.
  - destruct l; [reflexivity|cbn in Hlen; lia].
  - rewrite <- cons_seq, <- seq_shift. cbn [map List.concat]. rewrite map_map.
    unfold batchAt at 1. cbn [Nat.mul skipn].
    transitivity (firstn batchSize l ++ skipn batchSize l);
      [|apply firstn_skipn].
    f_equal.
    rewrite <- (IH (skipn batchSize l)) by (rewrite length_skipn; unfold batchSize in *; lia).
    f_equal. apply map_ext. intros j. unfold batchAt.
    rewrite skipn_skipn. do 2 f_equal. lia.
Qed.

Lemma concat_batchesOf (valid : list string) :
  List.concat (batchesOf valid) = valid.
Proof.
  unfold batchesOf, range_step. rewrite map_map.
  apply concat_chunks. apply range_step_covers.
Qed.

Lemma batchesOf_nth (valid : list string) (j : nat) (b : list string) :
  nth_error (batchesOf valid) j = Some b ->
  In (j * batchSize)%nat (range_step (List.length valid) batchSize) /\
  b = batchAt valid (j * batchSize).
Proof.
  unfold batchesOf, range_step. rewrite map_map, nth_error_map, nth_error_seq.
  destruct (j <? _)%nat eqn:Hj; cbn [option_map Nat.add]; [|discriminate].
  intros [= <-]. split; [|reflexivity].
  apply in_map_iff. exists j. split; [reflexivity|].
  apply in_seq. apply Nat.ltb_lt in Hj. lia.
Qed.

Lemma range_step_multiple (n i : nat) :
  In i (range_step n batchSize) -> exists j, i = (j * batchSize)%nat.
Proof.
  unfold range_step. intros H. apply in_map_iff in H.
  destruct H as (j & <- & _). exists j. reflexivity.
Qed.

Lemma range_step_NoDup (n : nat) : NoDup (range_step n batchSize).
Proof.
  unfold range_step.
  apply (@NoDup_map_NoDup_ForallPairs nat nat); [|apply seq_NoDup].
  intros a b _ _ Hab. unfold batchSize in Hab. lia.
Qed.

Section BatchLoop.
Variable client : Client.
Variable valid : list string.
Variable resolve : string -> TrackObj.
Variable failedAt : nat.
Hypothesis resolve_id : forall tid, track_id (resolve tid) = tid.


(** The loop over the batches, in terms of what the calls of the run
    gave: the batch at [failedAt] raised, the others returned the tracks of
    their ids. *)
Lemma batchLoop_result (offsets : list nat) (info : Dict TrackInfo) (c : Conn) :
  NoDup (dict_keys info ++ List.concat (map (batchAt valid) offsets)) ->
  (forall p i, nth_error offsets p = Some i -> i = failedAt ->
               exists e,
                 nth_error (batchOutcomes client (map (batchAt valid) offsets) c) p =
                 Some (Raises e)) ->
  (forall p i, nth_error offsets p = Some i -> i <> failedAt ->
               nth_error (batchOutcomes client (map (batchAt valid) offsets) c) p =
               Some (Returns (map (fun tid => Some (resolve tid)) (batchAt valid i)))) ->
  fst (fold_left (fetchBatch client valid) offsets (info, c)) =
  info ++ map (entryOf resolve) (keptIds valid failedAt offsets).
Proof.
  revert info c. induction offsets as [|i offsets IH]; intros info c Hnd Hbad Hgood.
  - cbn. rewrite app_nil_r. reflexivity.
  - cbn [fold_left]. unfold keptIds. cbn [filter map List.concat] in *.
    unfold fetchBatch at 2.
    cbn [batchOutcomes] in Hbad, Hgood.
    destruct (_withRetry (tracks client (batchAt valid i)) c) as [o c'].
    assert (Hbad' : forall p i', nth_error offsets p = Some i' -> i' = failedAt ->
               exists e,
                 nth_error (batchOutcomes client (map (batchAt valid) offsets) c') p =
                 Some (Raises e))
      by (intros p i' Hp Hi'; exact (Hbad (S p) i' Hp Hi')).
    assert (Hgood' : forall p i', nth_error offsets p = Some i' -> i' <> failedAt ->
               nth_error (batchOutcomes client (map (batchAt valid) offsets) c') p =
               Some (Returns (map (fun tid => Some (resolve tid)) (batchAt valid i'))))
      by (intros p i' Hp Hi'; exact (Hgood (S p) i' Hp Hi')).
    destruct (Nat.eqb_spec i failedAt) as [Heq|Hne]; cbn [negb].
    + destruct (Hbad 0%nat i eq_refl Heq) as [e He].
      cbn [nth_error] in He. injection He as ->.
      apply IH; [|exact Hbad'|exact Hgood'].
      rewrite app_assoc in Hnd.
      apply NoDup_app_remove_l in Hnd as Hrest.
      apply NoDup_app_remove_r in Hnd as Hleft.
      apply NoDup_app_remove_r in Hleft.
      apply NoDup_app; [exact Hleft|exact Hrest|].
      intros a Ha Ha'. apply (@NoDup_app_disjoint _ _ _ a Hnd); [|exact Ha'].
      apply in_or_app. left. exact Ha.
    + pose proof (Hgood 0%nat i eq_refl Hne) as Hret.
      cbn [nth_error] in Hret. injection Hret as ->.
      rewrite recordTracks_fresh; [|exact resolve_id|].
      * rewrite IH; [|  |exact Hbad'|exact Hgood'].
        -- cbn [List.concat map]. rewrite map_app, app_assoc. reflexivity.
        -- unfold dict_keys in *. rewrite map_app, <- app_assoc.
           fold (dict_keys (map (entryOf resolve) (batchAt valid i))).
           rewrite dict_keys_entries. exact Hnd.
      * rewrite app_assoc in Hnd. apply NoDup_app_remove_r in Hnd. exact Hnd.
Qed.

Lemma keptIds_In (offsets : list nat) (tid : string) :
  In tid (keptIds valid failedAt offsets) <->
  exists i, In i offsets /\ i <> failedAt /\ In tid (batchAt valid i).
Proof.
  unfold keptIds. rewrite in_concat. split.
  - intros (b & Hb & Htid). apply in_map_iff in Hb. destruct Hb as (i & <- & Hi).
    apply filter_In in Hi. destruct Hi as [Hi Hne].
    exists i. repeat split; auto. intros ->. rewrite Nat.eqb_refl in Hne. discriminate.
  - intros (i & Hi & Hne & Htid). exists (batchAt valid i). split; [|exact Htid].
    apply in_map. apply filter_In. split; [exact Hi|].
    apply Nat.eqb_neq in Hne. rewrite Hne. reflexivity.
Qed.

Lemma batches_disjoint (offsets : list nat) (i i' : nat) (tid : string) :
  NoDup (List.concat (map (batchAt valid) offsets)) ->
  In i offsets -> In i' offsets -> i <> i' ->
  In tid (batchAt valid i) -> In tid (batchAt valid i') -> False.
Proof.
  induction offsets as [|a offsets IH]; cbn; intros Hnd Hi Hi' Hne Ht Ht'; [exact Hi|].
  assert (Hin : forall x, In x offsets -> In tid (batchAt valid x) ->
                          In tid (List.concat (map (batchAt valid) offsets))).
  { intros x Hx Hxt. apply in_concat. exists (batchAt valid x).
    split; [apply in_map; exact Hx|exact Hxt]. }
  destruct Hi as [->|Hi], Hi' as [->|Hi'].
  - apply Hne. reflexivity.
  - apply (@NoDup_app_disjoint _ _ _ tid Hnd Ht). exact (Hin i' Hi' Ht').
  - apply (@NoDup_app_disjoint _ _ _ tid Hnd Ht'). exact (Hin i Hi Ht).
  - apply NoDup_app_remove_l in Hnd. exact (IH Hnd Hi Hi' Hne Ht Ht').
Qed.

Lemma keptIds_length (offsets : list nat) :
  NoDup offsets -> In failedAt offsets ->
  List.length (keptIds valid failedAt offsets) =
  (List.length (List.concat (map (batchAt valid) offsets)) -
   List.length (batchAt valid failedAt))%nat.
Proof.
  unfold keptIds.
  induction offsets as [|a offsets IH]; cbn [In]; intros Hnd Hin; [contradiction|].
  inversion Hnd as [|? ? Ha Hnd']; subst. cbn [filter map List.concat].
  rewrite length_app. destruct (Nat.eqb_spec a failedAt) as [->|Hne]; cbn [negb].
  - replace (filter (fun i => negb (i =? failedAt)%nat) offsets) with offsets; [lia|].
    symmetry. apply forallb_filter_id. apply forallb_forall. intros x Hx.
    destruct (Nat.eqb_spec x failedAt) as [->|_]; [contradiction|reflexivity].
  - destruct Hin as [Heq|Hin]; [contradiction|].
    cbn [List.concat map]. rewrite length_app, (IH Hnd' Hin).
    assert (List.length (batchAt valid failedAt) <=
            List.length (List.concat (map (batchAt valid) offsets)))%nat; [|lia].
    clear - Hin. induction offsets as [|b offsets IH]; [contradiction|].
    cbn [map List.concat]. rewrite length_app. destruct Hin as [->|Hin]; [lia|].
    specialize (IH Hin). lia.
Qed.

End BatchLoop.

Lemma range_step_nth (valid : list string) (i : nat) :
  In i (range_step (List.length valid) batchSize) ->
  exists j, i = (j * batchSize)%nat /\
            nth_error (batchesOf valid) j = Some (batchAt valid i).
Proof.
  unfold batchesOf, range_step. intros H. apply in_map_iff in H.
  destruct H as (j & <- & Hj). apply in_seq in Hj. exists j. split; [reflexivity|].
  rewrite map_map, nth_error_map, nth_error_seq.
  replace (j <? _)%nat with true by (symmetry; apply Nat.ltb_lt; lia).
  reflexivity.
Qed.

Lemma validTrackIds_In (trackIds : list PyValue) (s : string) :
  In s (validTrackIds trackIds) <-> In (PyStr s) trackIds /\ s <> EmptyString.
Proof.
  unfold validTrackIds. rewrite in_flat_map. split.
  - intros ([|s'|z] & Hin & Hs); cbn in Hs; try contradiction.
    destruct s' as [|a s']; cbn in Hs; [contradiction|].
    destruct Hs as [<-|[]]. split; [exact Hin|discriminate].
  - intros [Hin Hne]. exists (PyStr s). split; [exact Hin|].
    destruct s as [|a s]; [contradiction|]. left. reflexivity.
Qed.

Lemma range_step_at (valid : list string) (p i : nat) :
  nth_error (range_step (List.length valid) batchSize) p = Some i ->
  i = (p * batchSize)%nat /\
  nth_error (batchesOf valid) p = Some (batchAt valid i).
Proof.
  unfold batchesOf. intros Hp. rewrite nth_error_map, Hp. split; [|reflexivity].
  unfold range_step in Hp. rewrite nth_error_map, nth_error_seq in Hp.
  destruct (p <? _)%nat; cbn [option_map Nat.add] in Hp; [|discriminate].
  injection Hp as <-. reflexivity.
Qed.

Lemma batchOutcomes_length (client : Client) (batches : list (list string))
      (c : Conn) :
  List.length (batchOutcomes client batches c) = List.length batches.
Proof.
  revert c. induction batches as [|b batches IH]; intros c; [reflexivity|].
  cbn [batchOutcomes]. destruct (_withRetry (tracks client b) c) as [o c1].
  cbn [List.length]. rewrite IH. reflexivity.
Qed.

(** C6, as the code has it.  [getTracksInfo] keeps the non-empty strings of
    its argument, sends them in batches of at most 50, one retried call per
    batch, and fills a dictionary keyed by id.  Take a run in which the
    valid ids are distinct, the call of exactly one batch raised and the
    call of every other batch returned, for each id, the track of that id:
    the dictionary holds the metadata of every id of every other batch, no
    id of the failed batch, and as many entries as there are valid ids less
    those of the failed batch. *)
Theorem getTracksInfo_partial_failure (client : Client) (trackIds : list PyValue)
        (c : Conn) (resolve : string -> TrackObj) (f : nat) (failed : list string) :
  let valid := validTrackIds trackIds in
  let info := fst (getTracksInfo client trackIds c) in
  let outcomes := batchOutcomes client (batchesOf valid) c in
  NoDup valid ->
  (forall tid, track_id (resolve tid) = tid) ->
  nth_error (batchesOf valid) f = Some failed ->
  (exists e, nth_error outcomes f = Some (Raises e)) ->
  (forall j b, nth_error (batchesOf valid) j = Some b -> j <> f ->
               nth_error outcomes j =
               Some (Returns (map (fun tid => Some (resolve tid)) b))) ->
  (forall s, In s valid <-> In (PyStr s) trackIds /\ s <> EmptyString) /\
  List.concat (batchesOf valid) = valid /\
  Forall (fun b => (List.length b <= 50)%nat) (batchesOf valid) /\
  List.length outcomes = List.length (batchesOf valid) /\
  (forall j b tid, nth_error (batchesOf valid) j = Some b -> j <> f -> In tid b ->
                   dict_get tid info = Some (infoOf (resolve tid))) /\
  (forall tid, In tid failed -> dict_get tid info = None) /\
  List.length info = (List.length valid - List.length failed)%nat.
Proof.
  intros valid info outcomes Hnd Hres Hf Hfail Hok.
  split; [apply validTrackIds_In|]. split; [apply concat_batchesOf|].
  split.
  { apply Forall_forall. intros b Hb. unfold batchesOf in Hb.
    apply in_map_iff in Hb. destruct Hb as (i & <- & _). apply firstn_le_length. }
  split; [apply batchOutcomes_length|].
  destruct (batchesOf_nth _ _ Hf) as [Hfin Hfeq].
  set (offsets := range_step (List.length valid) batchSize) in *.
  assert (Hinfo : info = map (entryOf resolve) (keptIds valid (f * batchSize) offsets)).
  { subst info. unfold getTracksInfo. fold valid.
    destruct (List.length valid =? 0)%nat eqn:Hz.
    - apply Nat.eqb_eq in Hz. exfalso. subst offsets. rewrite Hz in Hfin.
      exact Hfin.
    - fold offsets. rewrite (@batchLoop_result client valid resolve (f * batchSize) Hres).
      + reflexivity.
      + change (NoDup (List.concat (batchesOf valid))).
        rewrite concat_batchesOf. exact Hnd.
      + intros p i Hp Hi. destruct (range_step_at valid p Hp) as [Hip _].
        assert (p = f) by (unfold batchSize in *; lia). subst p. exact Hfail.
      + intros p i Hp Hne. destruct (range_step_at valid p Hp) as [Hip Hb].
        apply (Hok p _ Hb). intros ->. apply Hne. exact Hip. }
  assert (Hndc : NoDup (List.concat (map (batchAt valid) offsets))).
  { change (NoDup (List.concat (batchesOf valid))).
    rewrite concat_batchesOf. exact Hnd. }
  split; [|split].
  - intros j b tid Hj Hne Htid. rewrite Hinfo. apply dict_get_entries_In.
    destruct (batchesOf_nth _ _ Hj) as [Hjin ->].
    apply keptIds_In. exists (j * batchSize)%nat. repeat split; auto.
    unfold batchSize. lia.
  - intros tid Htid. rewrite Hinfo. apply dict_get_None.
    rewrite dict_keys_entries. intros Hin. apply keptIds_In in Hin.
    destruct Hin as (i & Hi & Hne & Hti). rewrite Hfeq in Htid.
    exact (@batches_disjoint valid offsets i (f * batchSize)%nat tid Hndc Hi Hfin Hne Hti Htid).
  - rewrite Hinfo, length_map, keptIds_length; [|apply range_step_NoDup|exact Hfin].
    change (List.concat (map (batchAt valid) offsets))
      with (List.concat (batchesOf valid)).
    rewrite concat_batchesOf, <- Hfeq. reflexivity.
Qed.

Lemma unaryId_length (n : nat) : String.length (unaryId n) = S n.
Proof. induction n as [|n IH]; cbn; [reflexivity|rewrite IH; reflexivity]. Qed.

Lemma unaryId_NoDup (start len : nat) : NoDup (map unaryId (seq start len)).
Proof.
  apply (@NoDup_map_NoDup_ForallPairs nat string); [|apply seq_NoDup].
  intros a b _ _ Hab. apply (f_equal String.length) in Hab.
  rewrite !unaryId_length in Hab. lia.
Qed.

(** Of 120 ids in three batches, the second batch fails by five
    time-outs, on the invocations 1 to 5 of the run; the first batch was
    answered at invocation 0 and the third is answered at invocation 6.
    The dictionary holds the 70 tracks of the two other batches. *)
Lemma getTracksInfo_partial_failure_witness :
  batchOutcomes clientTimingOut (batchesOf (validTrackIds manyIds)) freshConn =
    [Returns (map (fun tid => Some (plainTrack tid)) (map unaryId (seq 0 50)));
     Raises (TimeoutError "API call timed out after 60 seconds");
     Returns (map (fun tid => Some (plainTrack tid)) (map unaryId (seq 100 20)))] /\
  List.length (fst (getTracksInfo clientTimingOut manyIds freshConn)) = 70%nat.
Proof.
  assert (Hout :
    batchOutcomes clientTimingOut (batchesOf (validTrackIds manyIds)) freshConn =
    [Returns (map (fun tid => Some (plainTrack tid)) (map unaryId (seq 0 50)));
     Raises (TimeoutError "API call timed out after 60 seconds");
     Returns (map (fun tid => Some (plainTrack tid)) (map unaryId (seq 100 20)))])
    by (vm_compute; reflexivity).
  split; [exact Hout|].
  destruct (@getTracksInfo_partial_failure
              clientTimingOut manyIds freshConn plainTrack 1
              (map unaryId (seq 50 50)))
    as (_ & _ & _ & _ & _ & _ & Hlen).
  - change (validTrackIds manyIds) with (map unaryId (seq 0 120)).
    apply unaryId_NoDup.
  - intros tid. reflexivity.
  - vm_compute. reflexivity.
  - rewrite Hout. eexists. reflexivity.
  - intros j b Hj Hne. rewrite Hout. destruct j as [|[|[|j]]].
    + vm_compute in Hj. injection Hj as <-. reflexivity.
    + exfalso. apply Hne. reflexivity.
    + vm_compute in Hj. injection Hj as <-. reflexivity.
    + exfalso. destruct j; vm_compute in Hj; discriminate Hj.
  - rewrite Hlen. vm_compute. reflexivity.
Defined.

(** C6 as stated fails on repeated ids: of 51 valid ids in two batches, the
    second batch (one id) fails, and the result holds one entry, not
    [51 - 1]. *)
Lemma repeated_ids_collapse :
  let client := clientRefusing "b" in
  let valid := validTrackIds repeatedIds in
  List.length valid = 51%nat /\
  batchesOf valid = [repeat "a"%string 50; ["b"%string]] /\
  fst (_withRetry (tracks client (repeat "a"%string 50)) freshConn) =
    Returns (map (fun tid => Some (plainTrack tid)) (repeat "a"%string 50)) /\
  fst (_withRetry (tracks client ["b"%string])
                  (snd (_withRetry (tracks client (repeat "a"%string 50)) freshConn))) =
    Raises (SpotifyException 400 None "invalid id") /\
  List.length (fst (getTracksInfo client repeatedIds freshConn)) = 1%nat /\
  (1 <> 51 - 1)%nat.
Proof.
  cbv zeta. split; [vm_compute; reflexivity|]. split; [vm_compute; reflexivity|].
  split; [vm_compute; reflexivity|].
  split; [vm_compute; reflexivity|].
  split; [vm_compute; reflexivity|lia].
Qed.

(* ================================================================== *)
(** * Facts about the rounding to doubles *)
(* ================================================================== *)

Import PyFloat.

Section RoundingIntegers.
#[local] Open Scope Z_scope.

Lemma rne_cases (a b : Z) :
  0 < b -> rne a b = a / b \/ rne a b = a / b + 1.
Proof.
  intros Hb. unfold rne. destruct (2 * (a mod b) ?= b); [|auto|auto].
  destruct (Z.even (a / b)); auto.
Qed.

Lemma rne_exact (k b : Z) : 0 < b -> rne (k * b) b = k.
Proof.
  intros Hb. unfold rne. rewrite Z.mod_mul by lia. rewrite Z.div_mul by lia.
  change (2 * 0) with 0. destruct (Z.compare_spec 0 b); lia.
Qed.

Lemma div_cross_le (a1 b1 a2 b2 : Z) :
  0 < b1 -> 0 < b2 -> a1 * b2 <= a2 * b1 -> a1 / b1 <= a2 / b2.
Proof.
  intros H1 H2 Hle. apply Z.div_le_lower_bound; [lia|].
  pose proof (Z.div_mod a1 b1 ltac:(lia)) as Hdm.
  pose proof (Z.mod_pos_bound a1 b1 H1) as Hr.
  generalize dependent (a1 / b1). generalize dependent (a1 mod b1).
  intros r Hr q Hdm. nia.
Qed.

Lemma rne_mono (a1 b1 a2 b2 : Z) :
  0 < b1 -> 0 < b2 -> a1 * b2 <= a2 * b1 -> rne a1 b1 <= rne a2 b2.
Proof.
  intros H1 H2 Hle.
  pose proof (div_cross_le a1 a2 H1 H2 Hle) as Hq.
  destruct (Z.eq_dec (a1 / b1) (a2 / b2)) as [Heq|Hne].
  - unfold rne. rewrite <- Heq.
    pose proof (Z.div_mod a1 b1 ltac:(lia)) as Hdm1.
    pose proof (Z.div_mod a2 b2 ltac:(lia)) as Hdm2.
    pose proof (Z.mod_pos_bound a1 b1 H1) as Hr1.
    pose proof (Z.mod_pos_bound a2 b2 H2) as Hr2.
    rewrite <- Heq in Hdm2.
    generalize dependent (a1 mod b1). generalize dependent (a2 mod b2).
    generalize dependent (a1 / b1). intros q _ _ r2 Hdm2 Hr2 r1 Hdm1 Hr1.
    assert (Hr : r1 * b2 <= r2 * b1) by nia.
    destruct (Z.compare_spec (2 * r1) b1), (Z.compare_spec (2 * r2) b2);
      destruct (Z.even q); nia.
  - destruct (rne_cases a1 H1) as [->| ->], (rne_cases a2 H2) as [->| ->]; lia.
Qed.

Lemma rne_lower (a b : Z) : 0 < b -> a / b <= rne a b.
Proof. intros Hb. destruct (rne_cases a Hb) as [->| ->]; lia. Qed.

Lemma rne_upper (a b : Z) : 0 < b -> rne a b <= a / b + 1.
Proof. intros Hb. destruct (rne_cases a Hb) as [->| ->]; lia. Qed.

Lemma roundNat_mantissa (a b : Z) :
  0 <= a -> 0 < b ->
  let s := Z.max 0 (Z.log2 (a / b) - 52) in
  0 <= rne a (b * 2 ^ s) <= 2 ^ 53 /\ (0 < s -> 2 ^ 52 <= rne a (b * 2 ^ s)).
Proof.
  intros Ha Hb s.
  assert (Hs : 0 <= s) by (subst s; lia).
  assert (Hp : 0 < 2 ^ s) by (apply Z.pow_pos_nonneg; lia).
  assert (HF : 0 <= a / b) by (apply Z.div_pos; lia).
  assert (Hdiv : a / (b * 2 ^ s) = a / b / 2 ^ s) by (rewrite Z.div_div; lia).
  assert (Hbs : 0 < b * 2 ^ s) by nia.
  pose proof (rne_lower a Hbs) as Hlo. pose proof (rne_upper a Hbs) as Hup.
  rewrite Hdiv in Hlo, Hup.
  assert (Hlt : a / b / 2 ^ s < 2 ^ 53).
  { apply Z.div_lt_upper_bound; [exact Hp|]. rewrite <- Z.pow_add_r by lia.
    destruct (Z.eq_dec (a / b) 0) as [->|Hne]; [apply Z.pow_pos_nonneg; lia|].
    destruct (Z.log2_spec (a / b) ltac:(lia)) as [_ Hlt].
    eapply Z.lt_le_trans; [exact Hlt|]. apply Z.pow_le_mono_r; lia. }
  assert (H0 : 0 <= a / b / 2 ^ s) by (apply Z.div_pos; lia).
  split; [lia|]. intros Hpos.
  assert (Hge : 2 ^ 52 <= a / b / 2 ^ s); [|lia].
  apply Z.div_le_lower_bound; [exact Hp|]. rewrite <- Z.pow_add_r by lia.
  assert (Hne : 0 < a / b).
  { destruct (Z.eq_dec (a / b) 0) as [He|Hne]; [|lia].
    subst s. rewrite He in Hpos. cbn in Hpos. lia. }
  destruct (Z.log2_spec (a / b) Hne) as [Hle _].
  eapply Z.le_trans; [|exact Hle]. apply Z.pow_le_mono_r; lia.
Qed.

Lemma roundNat_nonneg (a b : Z) : 0 <= a -> 0 < b -> 0 <= roundNat a b.
Proof.
  intros Ha Hb. unfold roundNat.
  destruct (roundNat_mantissa Ha Hb) as [[H0 _] _].
  apply Z.mul_nonneg_nonneg; [exact H0|]. apply Z.pow_nonneg. lia.
Qed.

Lemma roundNat_mono (a1 b1 a2 b2 : Z) :
  0 <= a1 -> 0 < b1 -> 0 < b2 -> a1 * b2 <= a2 * b1 ->
  roundNat a1 b1 <= roundNat a2 b2.
Proof.
  intros Ha1 H1 H2 Hle.
  assert (Ha2 : 0 <= a2) by nia.
  pose proof (div_cross_le a1 a2 H1 H2 Hle) as HF.
  assert (HF1 : 0 <= a1 / b1) by (apply Z.div_pos; lia).
  pose proof (Z.log2_le_mono _ _ HF) as Hlog.
  destruct (roundNat_mantissa Ha1 H1) as [[_ Hup] _].
  destruct (roundNat_mantissa Ha2 H2) as [[Hlo0 _] Hlo].
  unfold roundNat.
  set (s1 := Z.max 0 (Z.log2 (a1 / b1) - 52)) in *.
  set (s2 := Z.max 0 (Z.log2 (a2 / b2) - 52)) in *.
  assert (Hs1 : 0 <= s1) by (subst s1; lia).
  assert (Hs : s1 <= s2) by (subst s1 s2; lia).
  assert (Hp1 : 0 < 2 ^ s1) by (apply Z.pow_pos_nonneg; lia).
  destruct (Z.eq_dec s1 s2) as [Heq|Hne].
  - rewrite <- Heq. apply Z.mul_le_mono_nonneg_r; [lia|].
    apply rne_mono; nia.
  - specialize (Hlo ltac:(lia)).
    apply Z.le_trans with (2 ^ 53 * 2 ^ s1); [nia|].
    apply Z.le_trans with (2 ^ 52 * 2 ^ s2);
      [|apply Z.mul_le_mono_nonneg_r; [apply Z.pow_nonneg; lia|exact Hlo]].
    rewrite <- !Z.pow_add_r by lia. apply Z.pow_le_mono_r; lia.
Qed.

(** The numbers [roundNat] yields are left as they are by [roundNat]. *)
Lemma roundNat_fixed (m s : Z) :
  0 <= m <= 2 ^ 53 -> 0 <= s -> roundNat (m * 2 ^ s) 1 = m * 2 ^ s.
Proof.
  intros Hm Hs. unfold roundNat. rewrite Z.div_1_r, Z.mul_1_l.
  assert (Hp : 0 < 2 ^ s) by (apply Z.pow_pos_nonneg; lia).
  destruct (Z.eq_dec m 0) as [->|Hne].
  { rewrite Z.mul_0_l. cbn. reflexivity. }
  rewrite Z.log2_mul_pow2 by lia.
  assert (Hlog : Z.log2 m <= 53).
  { rewrite <- (Z.log2_pow2 53) by lia. apply Z.log2_le_mono. lia. }
  set (s' := Z.max 0 (s + Z.log2 m - 52)).
  destruct (Z.le_gt_cases s' s) as [Hle|Hgt].
  - replace (m * 2 ^ s) with (m * 2 ^ (s - s') * 2 ^ s')
      by (rewrite <- Z.mul_assoc, <- Z.pow_add_r by lia; do 2 f_equal; lia).
    rewrite rne_exact by (apply Z.pow_pos_nonneg; lia). reflexivity.
  - assert (Hl53 : Z.log2 m = 53) by lia.
    assert (Hm53 : m = 2 ^ 53).
    { destruct (Z.log2_spec m ltac:(lia)) as [Hlo _]. rewrite Hl53 in Hlo. lia. }
    assert (Hs' : s' = s + 1) by lia.
    rewrite Hs', Hm53.
    replace (2 ^ 53 * 2 ^ s) with (2 ^ 52 * 2 ^ (s + 1))
      by (rewrite <- !Z.pow_add_r by lia; f_equal; lia).
    rewrite rne_exact by (apply Z.pow_pos_nonneg; lia). reflexivity.
Qed.

Lemma roundNat_idem (a b : Z) :
  0 <= a -> 0 < b -> roundNat (roundNat a b) 1 = roundNat a b.
Proof.
  intros Ha Hb. destruct (roundNat_mantissa Ha Hb) as [Hm _].
  unfold roundNat at 2 3. apply roundNat_fixed; [exact Hm|lia].
Qed.

(** [roundNat] depends on the quotient only. *)
Lemma roundNat_quotient (a1 b1 a2 b2 : Z) :
  0 <= a1 -> 0 < b1 -> 0 < b2 -> a1 * b2 = a2 * b1 ->
  roundNat a1 b1 = roundNat a2 b2.
Proof.
  intros Ha1 H1 H2 Heq. assert (Ha2 : 0 <= a2) by nia.
  apply Z.le_antisymm; apply roundNat_mono; lia.
Qed.

End RoundingIntegers.

Section RoundingRationals.
#[local] Open Scope Q_scope.

Lemma roundNonneg_value (n : Z) (d : positive) :
  roundNonneg n d == roundNat (n * Zpos subnormalScale) (Zpos d) # subnormalScale.
Proof. unfold roundNonneg. apply Qred_correct. Qed.

Lemma roundNonneg_nonneg (n : Z) (d : positive) :
  (0 <= n)%Z -> 0 <= roundNonneg n d.
Proof.
  intros Hn. rewrite roundNonneg_value. unfold Qle. cbn [Qnum Qden].
  rewrite Z.mul_1_r. cbn [Z.mul]. apply roundNat_nonneg; lia.
Qed.

Lemma roundNonneg_mono (n1 n2 : Z) (d1 d2 : positive) :
  (0 <= n1)%Z -> (n1 * Zpos d2 <= n2 * Zpos d1)%Z ->
  roundNonneg n1 d1 <= roundNonneg n2 d2.
Proof.
  intros Hn Hle. rewrite !roundNonneg_value. unfold Qle. cbn [Qnum Qden].
  apply Z.mul_le_mono_nonneg_r; [lia|].
  assert (HS : (0 < Zpos subnormalScale)%Z) by apply Pos2Z.is_pos.
  generalize dependent (Zpos subnormalScale). intros S HS.
  apply roundNat_mono; try lia; nia.
Qed.

Lemma fl_nonneg_case (x : Q) : (0 <= Qnum x)%Z -> fl x = roundNonneg (Qnum x) (Qden x).
Proof.
  intros Hx. unfold fl. destruct (Z.ltb_spec (Qnum x) 0); [lia|reflexivity].
Qed.

Lemma fl_neg_case (x : Q) :
  (Qnum x < 0)%Z -> fl x = - roundNonneg (- Qnum x) (Qden x).
Proof.
  intros Hx. unfold fl. destruct (Z.ltb_spec (Qnum x) 0); [reflexivity|lia].
Qed.

(** Rounding keeps the order. *)
Lemma fl_mono (x y : Q) : x <= y -> fl x <= fl y.
Proof.
  intros Hxy. unfold Qle in Hxy.
  destruct (Z.lt_ge_cases (Qnum x) 0) as [Hx|Hx];
    destruct (Z.lt_ge_cases (Qnum y) 0) as [Hy|Hy].
  - rewrite (fl_neg_case _ Hx), (fl_neg_case _ Hy). apply Qopp_le_compat.
    apply roundNonneg_mono; [lia|].
    rewrite !Z.mul_opp_l. lia.
  - rewrite (fl_neg_case _ Hx), (fl_nonneg_case _ Hy).
    pose proof (@roundNonneg_nonneg (- Qnum x) (Qden x) ltac:(lia)).
    pose proof (@roundNonneg_nonneg (Qnum y) (Qden y) Hy). lra.
  - exfalso. nia.
  - rewrite (fl_nonneg_case _ Hx), (fl_nonneg_case _ Hy).
    apply roundNonneg_mono; lia.
Qed.

(** Rounding depends on the value of the rational only. *)
Lemma fl_compat (x y : Q) : x == y -> fl x == fl y.
Proof.
  intros Hxy. apply Qle_antisym; apply fl_mono; rewrite Hxy; apply Qle_refl.
Qed.

#[global] Instance fl_Proper : Proper (Qeq ==> Qeq) fl.
Proof. intros x y Hxy. apply fl_compat. exact Hxy. Qed.

Lemma roundNonneg_idem (n : Z) (d : positive) :
  (0 <= n)%Z -> fl (roundNonneg n d) == roundNonneg n d.
Proof.
  intros Hn.
  assert (H0 : (0 <= Qnum (roundNonneg n d))%Z).
  { pose proof (roundNonneg_nonneg d Hn) as Hq. unfold Qle in Hq.
    cbn [Qnum Qden] in Hq. lia. }
  rewrite (fl_nonneg_case _ H0).
  pose proof (roundNonneg_value n d) as Hv. unfold Qeq in Hv. cbn [Qnum Qden] in Hv.
  set (R := roundNat (n * Zpos subnormalScale) (Zpos d)) in *.
  assert (HR : roundNat (Qnum (roundNonneg n d) * Zpos subnormalScale)
                        (Zpos (Qden (roundNonneg n d))) = R).
  { transitivity (roundNat R 1).
    - assert (HS : (0 < Zpos subnormalScale)%Z) by apply Pos2Z.is_pos.
      apply roundNat_quotient; [nia|lia|lia|lia].
    - apply roundNat_idem; lia. }
  rewrite roundNonneg_value, HR. symmetry. apply roundNonneg_value.
Qed.

Lemma roundNonneg_0 (d : positive) : roundNonneg 0 d == 0.
Proof.
  rewrite roundNonneg_value. rewrite Z.mul_0_l. unfold roundNat.
  rewrite Z.div_0_l by lia. change (Z.max 0 (Z.log2 0 - 52)) with 0%Z.
  rewrite Z.pow_0_r, Z.mul_1_r, Z.mul_1_r.
  rewrite <- (Z.mul_0_l (Zpos d)) at 1. rewrite rne_exact by lia. reflexivity.
Qed.

(** Rounding is symmetric about 0. *)
Lemma fl_opp (x : Q) : fl (- x) == - fl x.
Proof.
  destruct x as [n d].
  destruct (Z.lt_trichotomy n 0) as [Hn|[->|Hn]].
  - rewrite (@fl_neg_case (n # d)) by exact Hn.
    rewrite (@fl_nonneg_case (- (n # d))) by (cbn [Qopp Qnum]; lia).
    cbn [Qopp Qnum Qden]. rewrite Qopp_involutive. reflexivity.
  - change (- (0 # d)) with (0 # d). rewrite fl_nonneg_case by (cbn [Qnum]; lia).
    cbn [Qnum Qden]. rewrite roundNonneg_0. reflexivity.
  - rewrite (@fl_nonneg_case (n # d)) by (cbn [Qnum]; lia).
    rewrite (@fl_neg_case (- (n # d))) by (cbn [Qopp Qnum]; lia).
    cbn [Qopp Qnum Qden]. rewrite Z.opp_involutive. reflexivity.
Qed.

(** A double is left as it is. *)
Lemma fl_idem (x : Q) : fl (fl x) == fl x.
Proof.
  destruct (Z.lt_ge_cases (Qnum x) 0) as [Hx|Hx].
  - rewrite (fl_neg_case _ Hx). rewrite fl_opp.
    rewrite roundNonneg_idem by lia. reflexivity.
  - rewrite (fl_nonneg_case _ Hx). apply roundNonneg_idem. exact Hx.
Qed.

Lemma scale_pow2 : Zpos subnormalScale = (2 ^ 1074)%Z.
Proof. reflexivity. Qed.

(** The integers up to [2 ^ 53] in magnitude are doubles. *)
Lemma fl_int (z : Z) : (Z.abs z <= 2 ^ 53)%Z -> fl (inject_Z z) == inject_Z z.
Proof.
  intros Hz.
  assert (Hpos : forall n, (0 <= n <= 2 ^ 53)%Z ->
                           roundNonneg n 1 == inject_Z n).
  { intros n Hn. rewrite roundNonneg_value, scale_pow2.
    rewrite roundNat_fixed by lia. rewrite <- scale_pow2.
    unfold Qeq, inject_Z. cbn [Qnum Qden]. lia. }
  destruct (Z.lt_ge_cases z 0) as [Hneg|Hnn].
  - rewrite fl_neg_case by exact Hneg. cbn [inject_Z Qnum Qden].
    rewrite Hpos by lia. unfold Qeq, inject_Z. cbn. lia.
  - rewrite fl_nonneg_case by exact Hnn. apply Hpos. lia.
Qed.

Lemma fl_0 : fl 0 == 0.
Proof. apply (fl_int 0). cbn. lia. Qed.

Lemma fl_sign (x : Q) : 0 <= x -> 0 <= fl x.
Proof. intros Hx. rewrite <- fl_0. apply fl_mono. exact Hx. Qed.

Lemma fl_1 : fl 1 == 1.
Proof. apply (fl_int 1). cbn. lia. Qed.

Lemma fl_10 : fl 10 == 10.
Proof. apply (fl_int 10). cbn. lia. Qed.


(** ** The operations *)

#[global] Instance py_mul_Proper : Proper (Qeq ==> Qeq ==> Qeq) py_mul.
Proof. intros a a' Ha b b' Hb. unfold py_mul. rewrite Ha, Hb. reflexivity. Qed.

#[global] Instance py_sub_Proper : Proper (Qeq ==> Qeq ==> Qeq) py_sub.
Proof. intros a a' Ha b b' Hb. unfold py_sub. rewrite Ha, Hb. reflexivity. Qed.

#[global] Instance py_div_Proper : Proper (Qeq ==> Qeq ==> Qeq) py_div.
Proof. intros a a' Ha b b' Hb. unfold py_div. rewrite Ha, Hb. reflexivity. Qed.

Lemma py_mul_nonneg (a b : Q) : 0 <= a -> 0 <= b -> 0 <= py_mul a b.
Proof.
  intros Ha Hb. unfold py_mul. apply fl_sign. apply Qmult_le_0_compat; assumption.
Qed.

Lemma py_mul_mono (a a' b : Q) : 0 <= b -> a <= a' -> py_mul a b <= py_mul a' b.
Proof.
  intros Hb Ha. unfold py_mul. apply fl_mono. apply Qmult_le_compat_r; assumption.
Qed.

Lemma py_sub_mono (a a' b b' : Q) : a <= a' -> b' <= b -> py_sub a b <= py_sub a' b'.
Proof. intros Ha Hb. unfold py_sub. apply fl_mono. lra. Qed.

(** Taking a non-negative amount off a double does not raise it. *)
Lemma py_sub_le (a b : Q) : fl a == a -> 0 <= b -> py_sub a b <= a.
Proof.
  intros Ha Hb. apply Qle_trans with (fl a).
  - unfold py_sub. apply fl_mono. lra.
  - rewrite Ha. apply Qle_refl.
Qed.

Lemma py_div_mono (a a' : Q) : a <= a' -> py_div a 10 <= py_div a' 10.
Proof.
  intros Ha. unfold py_div. apply fl_mono. unfold Qdiv.
  apply Qmult_le_compat_r; [exact Ha|]. discriminate.
Qed.

Lemma py_div_0 : py_div 0 10 == 0.
Proof.
  unfold py_div. transitivity (fl 0); [apply fl_compat; reflexivity|apply fl_0].
Qed.

Lemma py_div_10 : py_div 10 10 == 1.
Proof.
  unfold py_div. transitivity (fl 1); [apply fl_compat; reflexivity|apply fl_1].
Qed.

End RoundingRationals.

(* ================================================================== *)
(** * Facts about the curation *)
(* ================================================================== *)

Import Curation.

#[local] Open Scope Q_scope.

Lemma Qlt_bool_iff (x y : Q) : Qlt_bool x y = true <-> x < y.
Proof.
  unfold Qlt_bool. rewrite negb_true_iff. split.
  - intros H. apply Qnot_le_lt. intros Hle. apply Qle_bool_iff in Hle. congruence.
  - intros H. destruct (Qle_bool y x) eqn:Hle; [|reflexivity].
    apply Qle_bool_iff in Hle. exfalso. exact (Qlt_not_le _ _ H Hle).
Qed.

Lemma Qlt_bool_false_iff (x y : Q) : Qlt_bool x y = false <-> y <= x.
Proof.
  unfold Qlt_bool. rewrite negb_false_iff. apply Qle_bool_iff.
Qed.


Lemma clamp_bounds (w : Q) : 0 <= clamp w /\ clamp w <= 10.
Proof.
  unfold clamp.
  destruct (Q.max_spec 0 (Qmin 10 w)) as [[H1 ->]|[H1 ->]];
    destruct (Q.min_spec 10 w) as [[H2 H3]|[H2 H3]]; rewrite ?H3 in *; lra.
Qed.

Lemma clamp_inside (w : Q) : 0 <= w -> w <= 10 -> clamp w == w.
Proof.
  intros H0 H10. unfold clamp.
  destruct (Q.max_spec 0 (Qmin 10 w)) as [[H1 ->]|[H1 ->]];
    destruct (Q.min_spec 10 w) as [[H2 H3]|[H2 H3]]; rewrite ?H3 in *; lra.
Qed.

Lemma clamp_below (w : Q) : w <= 0 -> clamp w == 0.
Proof.
  intros H0. unfold clamp.
  destruct (Q.max_spec 0 (Qmin 10 w)) as [[H1 ->]|[H1 ->]];
    destruct (Q.min_spec 10 w) as [[H2 H3]|[H2 H3]]; rewrite ?H3 in *; lra.
Qed.

Lemma clamp_above (w : Q) : 10 <= w -> clamp w == 10.
Proof.
  intros H0. unfold clamp.
  destruct (Q.max_spec 0 (Qmin 10 w)) as [[H1 ->]|[H1 ->]];
    destruct (Q.min_spec 10 w) as [[H2 H3]|[H2 H3]]; rewrite ?H3 in *; lra.
Qed.



Lemma Qle_bool_negb (a b : Q) : Qle_bool a b = negb (Qlt_bool b a).
Proof. unfold Qlt_bool. rewrite negb_involutive. reflexivity. Qed.

Lemma clamp_mono (x y : Q) : x <= y -> clamp x <= clamp y.
Proof.
  intros Hxy.
  destruct (Qlt_le_dec x 0) as [Hx0|Hx0].
  - rewrite (clamp_below (w := x)) by lra. apply clamp_bounds.
  - destruct (Qlt_le_dec 10 y) as [Hy10|Hy10].
    + rewrite (clamp_above (w := y)) by lra. apply clamp_bounds.
    + rewrite (clamp_inside (w := x)), (clamp_inside (w := y)) by lra. exact Hxy.
Qed.


(** ** The weights *)

Lemma inject_Z_nonneg (k : Z) : (0 <= k)%Z -> 0 <= inject_Z k.
Proof. intros Hk. change 0 with (inject_Z 0). rewrite <- Zle_Qle. exact Hk. Qed.

Lemma deduct_compat (w w' : Q) (k : Z) (m m' : Q) :
  w == w' -> m == m' -> deduct w k m == deduct w' k m'.
Proof.
  intros Hw Hm. unfold deduct. destruct (k =? 0)%Z; [exact Hw|].
  rewrite Hw, Hm. reflexivity.
Qed.

(** A deduction leaves a double. *)
Lemma deduct_double (w : Q) (k : Z) (m : Q) :
  fl w == w -> fl (deduct w k m) == deduct w k m.
Proof.
  intros Hw. unfold deduct. destruct (k =? 0)%Z; [exact Hw|].
  unfold py_sub. apply fl_idem.
Qed.

Lemma deduct_le (w : Q) (k : Z) (m : Q) :
  (0 <= k)%Z -> 0 <= m -> fl w == w -> deduct w k m <= w.
Proof.
  intros Hk Hm Hw. unfold deduct. destruct (k =? 0)%Z; [apply Qle_refl|].
  apply py_sub_le; [exact Hw|]. apply py_mul_nonneg; [|exact Hm].
  apply inject_Z_nonneg. exact Hk.
Qed.

(** Rounding keeps the order of the weights: a larger multiple of a
    modifier that is not negative leaves no more. *)
Lemma deduct_mono (w1 w2 : Q) (k1 k2 : Z) (m : Q) :
  (0 <= k2 <= k1)%Z -> 0 <= m -> fl w2 == w2 -> w1 <= w2 ->
  deduct w1 k1 m <= deduct w2 k2 m.
Proof.
  intros Hk Hm Hw2 Hw. unfold deduct.
  destruct (Z.eqb_spec k1 0) as [H1|H1]; destruct (Z.eqb_spec k2 0) as [H2|H2];
    try lia.
  - exact Hw.
  - apply Qle_trans with (fl w2); [|rewrite Hw2; apply Qle_refl].
    unfold py_sub. apply fl_mono.
    assert (Hp : 0 <= py_mul (inject_Z k1) m)
      by (apply py_mul_nonneg; [apply inject_Z_nonneg; lia|exact Hm]).
    lra.
  - apply py_sub_mono; [exact Hw|]. apply py_mul_mono; [exact Hm|].
    rewrite <- Zle_Qle. lia.
Qed.

Lemma overplayFactor_range (c : Z) : (0 <= overplayFactor c <= 9)%Z.
Proof.
  unfold overplayFactor.
  destruct (c =? 1)%Z; [lia|]. destruct (c =? 2)%Z; [lia|].
  destruct (3 <=? c)%Z; lia.
Qed.

Lemma rankFactor_range (r : option Z) : (0 <= rankFactor r <= 5)%Z.
Proof.
  unfold rankFactor. destruct r as [r|]; [|lia].
  destruct (r <? 50)%Z; [lia|]. destruct (_ && _); [lia|].
  destruct (_ && _); lia.
Qed.

Lemma artistFactor_range (config : Config) (tooMuchCounts : Dict Z)
      (artistTooMuch : list string) (allInfo : Dict TrackInfo) (tid : string) :
  (0 <= artistFactor config tooMuchCounts artistTooMuch allInfo tid <= 3)%Z.
Proof.
  unfold artistFactor.
  destruct (dict_get tid allInfo) as [[[n a] artistId]|]; [|lia].
  destruct (_ && _); [|lia].
  destruct (6 <=? _)%Z; [lia|]. destruct (3 <=? _)%Z; lia.
Qed.

Lemma overplayFactor_mono (c1 c2 : Z) :
  (c1 <= c2)%Z -> (overplayFactor c1 <= overplayFactor c2)%Z.
Proof.
  intros Hc. unfold overplayFactor.
  destruct (Z.eqb_spec c1 1), (Z.eqb_spec c2 1),
           (Z.eqb_spec c1 2), (Z.eqb_spec c2 2),
           (Z.leb_spec 3 c1), (Z.leb_spec 3 c2); lia.
Qed.

Lemma rankFactor_mono (r1 r2 : Z) :
  (r1 <= r2)%Z -> (rankFactor (Some r2) <= rankFactor (Some r1))%Z.
Proof.
  intros Hr. unfold rankFactor.
  destruct (Z.ltb_spec r1 50), (Z.ltb_spec r2 50),
           (Z.leb_spec 50 r1), (Z.leb_spec 50 r2),
           (Z.ltb_spec r1 100), (Z.ltb_spec r2 100),
           (Z.leb_spec 100 r1), (Z.leb_spec 100 r2),
           (Z.ltb_spec r1 200), (Z.ltb_spec r2 200);
    cbn [andb]; lia.
Qed.



Lemma artistDeduction_factor (config : Config) (tooMuchCounts : Dict Z)
      (artistTooMuch : list string) (allInfo : Dict TrackInfo) (tid : string) :
  artistDeduction config tooMuchCounts artistTooMuch allInfo tid ==
  inject_Z (artistFactor config tooMuchCounts artistTooMuch allInfo tid)
  * weightModifier config.
Proof.
  unfold artistDeduction, artistFactor.
  destruct (dict_get tid allInfo) as [[[n a] artistId]|];
    [|rewrite Qmult_0_l; reflexivity].
  destruct (_ && _); [|rewrite Qmult_0_l; reflexivity].
  destruct (6 <=? _)%Z; [reflexivity|]. destruct (3 <=? _)%Z; [reflexivity|].
  rewrite Qmult_0_l. reflexivity.
Qed.

(** The radio weight is the weight of the specification, evaluated in
    double arithmetic. *)
Lemma radioWeight_float (tooMuchCounts topPositions : Dict Z) (m : Q)
      (tid : string) :
  radioWeight tooMuchCounts topPositions m tid =
  floatWeight (dict_get_default tid 0%Z tooMuchCounts) (dict_get tid topPositions) m.
Proof.
  unfold radioWeight, floatWeight, clamp, overplayFactor, rankFactor.
  set (c := dict_get_default tid 0%Z tooMuchCounts).
  rewrite Z.geb_leb. do 2 f_equal.
  destruct (c =? 1)%Z; [|destruct (c =? 2)%Z; [|destruct (3 <=? c)%Z]];
    (destruct (dict_get tid topPositions) as [pos|]; [|reflexivity]);
    (destruct (pos <? 50)%Z eqn:H50; [reflexivity|]);
    (apply Z.ltb_ge in H50; apply Z.leb_le in H50; rewrite H50; cbn [andb]);
    (destruct (pos <? 100)%Z eqn:H100; [reflexivity|]);
    (apply Z.ltb_ge in H100; apply Z.leb_le in H100; rewrite H100; cbn [andb]);
    destruct (pos <? 200)%Z; reflexivity.
Qed.

(** The master weight is that amount before the clamp, less the
    artist-overplay term. *)
Lemma masterWeight_float (config : Config) (tooMuchCounts topPositions : Dict Z)
      (artistTooMuch : list string) (allInfo : Dict TrackInfo) (tid : string) :
  masterWeight config tooMuchCounts topPositions artistTooMuch allInfo tid =
  deduct (deduct (deduct 10 (overplayFactor (dict_get_default tid 0%Z tooMuchCounts))
                         (weightModifier config))
                 (rankFactor (dict_get tid topPositions)) (weightModifier config))
         (artistFactor config tooMuchCounts artistTooMuch allInfo tid)
         (weightModifier config).
Proof.
  unfold masterWeight, overplayFactor, rankFactor, artistFactor.
  set (c := dict_get_default tid 0%Z tooMuchCounts).
  set (m := weightModifier config).
  rewrite Z.geb_leb.
  assert (Hart :
    forall w : Q,
      match dict_get tid allInfo with
      | Some (_, _, artistId) =>
        if artistIHearTooMuch config then
          if inArtistTooMuch artistTooMuch artistId then
            if (artistCountOf allInfo tooMuchCounts artistId >=? 6)%Z
            then py_sub w (py_mul 3 m)
            else if (artistCountOf allInfo tooMuchCounts artistId >=? 3)%Z
                 then py_sub w (py_mul 2 m) else w
          else w
        else w
      | None => w
      end =
      deduct w match dict_get tid allInfo with
               | Some (_, _, artistId) =>
                 if artistIHearTooMuch config && inArtistTooMuch artistTooMuch artistId
                 then
                   if (6 <=? artistCountOf allInfo tooMuchCounts artistId)%Z then 3%Z
                   else if (3 <=? artistCountOf allInfo tooMuchCounts artistId)%Z
                        then 2%Z else 0%Z
                 else 0%Z
               | None => 0%Z
               end m).
  { intros w. destruct (dict_get tid allInfo) as [[[n a] artistId]|]; [|reflexivity].
    rewrite !Z.geb_leb.
    destruct (artistIHearTooMuch config); cbn [andb]; [|reflexivity].
    destruct (inArtistTooMuch artistTooMuch artistId); [|reflexivity].
    destruct (6 <=? _)%Z; [reflexivity|]. destruct (3 <=? _)%Z; reflexivity. }
  rewrite Hart. f_equal.
  destruct (c =? 1)%Z; [|destruct (c =? 2)%Z; [|destruct (3 <=? c)%Z]];
    (destruct (dict_get tid topPositions) as [pos|]; [|reflexivity]);
    (destruct (pos <? 50)%Z eqn:H50; [reflexivity|]);
    (apply Z.ltb_ge in H50; apply Z.leb_le in H50; rewrite H50; cbn [andb]);
    (destruct (pos <? 100)%Z eqn:H100; [reflexivity|]);
    (apply Z.ltb_ge in H100; apply Z.leb_le in H100; rewrite H100; cbn [andb]);
    destruct (pos <? 200)%Z; reflexivity.
Qed.

Lemma stage_double (c : Z) (r : option Z) (m : Q) :
  fl (deduct (deduct 10 (overplayFactor c) m) (rankFactor r) m) ==
  deduct (deduct 10 (overplayFactor c) m) (rankFactor r) m.
Proof. apply deduct_double, deduct_double, fl_10. Qed.

(** ** Modifiers for which the arithmetic is exact *)








Section Decisions.
Context {G : Type} `{RandomSource G} {L : StrLower}.
Variable config : Config.
Variables tooMuchCounts topPositions : Dict Z.
Variables artistTooMuch artistBlacklistNames : list string.
Variable allInfo : Dict TrackInfo.



End Decisions.




(** The rounding is part of the decision.  With the modifier 0.1, a track
    overplayed once at top rank 150 gets the weight
    [(10 - 5 * 0.1) - 3 * 0.1] of double arithmetic, whose tenth is the
    double just below 0.92; in exact arithmetic the tenth of the weight
    lies above that double.  A draw equal to it is excluded by the radio
    filter, where the exact weight would keep the track. *)
Lemma rounding_decides :
  let m := weightModifier tenthConfig in
  let p := py_div (radioWeight tenthCounts tenthRanks m "t1") 10 in
  fl m == m /\
  p < specWeight 1 (Some 150%Z) m / 10 /\
  0 <= p /\ p < 1 /\
  fst (random_random [p]) = p /\
  fst (eligibleStep (L := asciiOnlyLower) tenthConfig tenthCounts tenthRanks
                    ([], [p])
                    (mkTrackObj "t1" "Song" [mkArtist "Band" (Some "a1"%string)])) = [].
Proof.
  cbv zeta. split; [vm_compute; reflexivity|]. split; [vm_compute; reflexivity|].
  split; [vm_compute; discriminate|]. split; [vm_compute; reflexivity|].
  split; vm_compute; reflexivity.
Qed.

Section Extremes.
Context {G : Type} `{RandomSource G} {L : StrLower}.
Variable config : Config.
Variables tooMuchCounts topPositions : Dict Z.
Variables artistTooMuch artistBlacklistNames : list string.
Variable allInfo : Dict TrackInfo.

Lemma draw_never (g : G) (w : Q) :
  w <= 0 -> Qlt_bool (fst (random_random g)) (py_div w 10) = false.
Proof.
  intros Hw. destruct (random_random_range g) as [H0 _].
  apply Qlt_bool_false_iff.
  apply Qle_trans with (py_div 0 10); [apply py_div_mono; exact Hw|].
  rewrite py_div_0. exact H0.
Qed.

Lemma draw_always (g : G) (w : Q) :
  10 <= w -> Qlt_bool (fst (random_random g)) (py_div w 10) = true.
Proof.
  intros Hw. destruct (random_random_range g) as [_ H1].
  apply Qlt_bool_iff.
  apply Qlt_le_trans with (py_div 10 10); [rewrite py_div_10; exact H1|].
  apply py_div_mono. exact Hw.
Qed.

Lemma eligibleStep_never (eligibleSongs : list string) (g : G) (t : TrackObj) :
  removeRadioSongsByWeight config = true ->
  radioWeight tooMuchCounts topPositions (weightModifier config) (track_id t) <= 0 ->
  fst (eligibleStep config tooMuchCounts topPositions (eligibleSongs, g) t) =
  eligibleSongs.
Proof.
  intros Hw H0. unfold eligibleStep.
  destruct (isTitleExcluded _ _); [reflexivity|]. rewrite Hw.
  pose proof (draw_never g H0) as Hd.
  destruct (random_random g) as [d g']. cbn [fst] in Hd.
  rewrite Qle_bool_negb, Hd. reflexivity.
Qed.

Lemma eligibleStep_always (eligibleSongs : list string) (g : G) (t : TrackObj) :
  isTitleExcluded (track_name t) (excludedWords config) = false ->
  10 <= radioWeight tooMuchCounts topPositions (weightModifier config) (track_id t) ->
  fst (eligibleStep config tooMuchCounts topPositions (eligibleSongs, g) t) =
  eligibleSongs ++ [track_id t].
Proof.
  intros Ht H10. unfold eligibleStep. rewrite Ht.
  destruct (removeRadioSongsByWeight config); [|reflexivity].
  pose proof (draw_always g H10) as Hd.
  destruct (random_random g) as [d g']. cbn [fst] in Hd.
  rewrite Qle_bool_negb, Hd. reflexivity.
Qed.

Lemma masterStep_never (selected : list string) (g : G)
      (key tid name artist : string) :
  masterWeight config tooMuchCounts topPositions artistTooMuch allInfo tid <= 0 ->
  fst (masterStep config tooMuchCounts topPositions artistTooMuch
                  artistBlacklistNames allInfo (selected, g)
                  (key, (tid, name, artist))) = selected.
Proof.
  intros H0. unfold masterStep.
  destruct (isBlacklisted _ _ _); [reflexivity|].
  pose proof (draw_never g H0) as Hd.
  destruct (random_random g) as [d g']. cbn [fst] in Hd. rewrite Hd. reflexivity.
Qed.

Lemma masterStep_always (selected : list string) (g : G)
      (key tid name artist : string) :
  isBlacklisted config artistBlacklistNames artist = false ->
  10 <= masterWeight config tooMuchCounts topPositions artistTooMuch allInfo tid ->
  fst (masterStep config tooMuchCounts topPositions artistTooMuch
                  artistBlacklistNames allInfo (selected, g)
                  (key, (tid, name, artist))) = selected ++ [tid].
Proof.
  intros Hbl H10. unfold masterStep. rewrite Hbl.
  pose proof (draw_always g H10) as Hd.
  destruct (random_random g) as [d g']. cbn [fst] in Hd. rewrite Hd. reflexivity.
Qed.

End Extremes.

(** The scenario of the specification: count 3, rank 10, modifier 1. *)
Lemma scenario_stage (m : Q) : m == 1 -> deduct (deduct 10 9 m) 5 m == -4 # 1.
Proof.
  intros Hm.
  rewrite (@deduct_compat (deduct 10 9 m) (deduct 10 9 1) 5 m 1);
    [vm_compute; reflexivity| |exact Hm].
  apply deduct_compat; [reflexivity|exact Hm].
Qed.

(** C8, as the code has it.  For every draw: a track whose radio weight is
    0, or whose master weight is at most 0, is not let through by the
    weighted filter; in the scenario of the specification (overplay count
    3, top rank 10, modifier 1) the radio weight is 0 and the master weight
    is at most 0.  A track with no overplay record and no top rank has
    radio weight 10 and passes the radio filter when its title is not
    excluded; it passes the master filter, with weight 10, when its artist
    is not blacklisted and no artist-overplay term applies to it. *)
Theorem weight_extremes (G : Type) (RS : RandomSource G) (L : StrLower)
        (config : Config)
        (tooMuchCounts topPositions : Dict Z)
        (artistTooMuch artistBlacklistNames : list string)
        (allInfo : Dict TrackInfo)
        (t : TrackObj) (eligibleSongs selected : list string) (g : G)
        (key name artist : string) :
  let tid := track_id t in
  let m := weightModifier config in
  let radioStep :=
      eligibleStep config tooMuchCounts topPositions (eligibleSongs, g) t in
  let masterTurn :=
      masterStep config tooMuchCounts topPositions artistTooMuch
                 artistBlacklistNames allInfo (selected, g)
                 (key, (tid, name, artist)) in
  let masterW :=
      masterWeight config tooMuchCounts topPositions artistTooMuch allInfo tid in
  (removeRadioSongsByWeight config = true ->
   radioWeight tooMuchCounts topPositions m tid == 0 ->
   fst radioStep = eligibleSongs) /\
  (masterW <= 0 -> fst masterTurn = selected) /\
  (m == 1 -> dict_get tid tooMuchCounts = Some 3%Z ->
   dict_get tid topPositions = Some 10%Z ->
   radioWeight tooMuchCounts topPositions m tid == 0 /\ masterW <= 0) /\
  (dict_get tid tooMuchCounts = None -> dict_get tid topPositions = None ->
   radioWeight tooMuchCounts topPositions m tid == 10 /\
   (isTitleExcluded (track_name t) (excludedWords config) = false ->
    fst radioStep = eligibleSongs ++ [tid]) /\
   (isBlacklisted config artistBlacklistNames artist = false ->
    artistDeduction config tooMuchCounts artistTooMuch allInfo tid == 0 ->
    masterW == 10 /\ fst masterTurn = selected ++ [tid])).
Proof.
  intros tid m radioStep masterTurn masterW. split; [|split; [|split]].
  - intros Hw H0. apply eligibleStep_never; [exact Hw|]. fold m tid. lra.
  - intros H0. apply masterStep_never. exact H0.
  - intros Hm Hc Hr.
    pose proof (scenario_stage Hm) as Hstage.
    split.
    + rewrite radioWeight_float. unfold dict_get_default. fold tid.
      rewrite Hc, Hr. unfold floatWeight.
      change (overplayFactor 3) with 9%Z. change (rankFactor (Some 10%Z)) with 5%Z.
      apply clamp_below. rewrite Hstage. discriminate.
    + subst masterW. rewrite masterWeight_float. unfold dict_get_default.
      fold tid m. rewrite Hc, Hr.
      change (overplayFactor 3) with 9%Z. change (rankFactor (Some 10%Z)) with 5%Z.
      pose proof (artistFactor_range config tooMuchCounts artistTooMuch allInfo tid)
        as Ha.
      apply Qle_trans with (deduct (deduct 10 9 m) 5 m).
      * apply deduct_le; [lia|lra|]. apply deduct_double, deduct_double, fl_10.
      * rewrite Hstage. discriminate.
  - intros Hc Hr.
    assert (Hradio : radioWeight tooMuchCounts topPositions m tid == 10).
    { rewrite radioWeight_float. unfold dict_get_default. fold tid.
      rewrite Hc, Hr. unfold floatWeight.
      change (overplayFactor 0) with 0%Z. change (rankFactor None) with 0%Z.
      change (deduct (deduct 10 0 m) 0 m) with 10.
      apply clamp_inside; discriminate. }
    split; [exact Hradio|]. split.
    + intros Ht. apply eligibleStep_always; [exact Ht|]. fold m tid. lra.
    + intros Hbl Hart.
      assert (Hmaster : masterW == 10).
      { subst masterW. rewrite masterWeight_float. unfold dict_get_default.
        fold tid m. rewrite Hc, Hr.
        change (overplayFactor 0) with 0%Z. change (rankFactor None) with 0%Z.
        change (deduct (deduct 10 0 m) 0 m) with 10.
        rewrite artistDeduction_factor in Hart. fold m in Hart.
        unfold deduct. destruct (_ =? 0)%Z; [reflexivity|].
        unfold py_mul, py_sub. rewrite Hart, fl_0.
        transitivity (fl 10); [apply fl_compat; ring|apply fl_10]. }
      split; [exact Hmaster|].
      apply masterStep_always; [exact Hbl|]. fold masterW. lra.
Qed.

Lemma weight_extremes_witness :
  radioWeight scenarioCounts scenarioRanks 1 "A" == 0 /\
  masterWeight baseConfig scenarioCounts scenarioRanks [] scenarioInfo "A" <= 0 /\
  fst (masterStep (L := asciiOnlyLower) baseConfig scenarioCounts scenarioRanks [] []
                  scenarioInfo ([], [0])
                  ("Anthem - Band", ("A", "Anthem", "Band"))%string) = [] /\
  fst (eligibleStep (L := asciiOnlyLower) baseConfig [] [] ([], [99 # 100])
                    scenarioTrack) = ["A"%string].
Proof.
  destruct (@weight_extremes (list Q) TapeRandom asciiOnlyLower baseConfig
                             scenarioCounts scenarioRanks [] [] scenarioInfo
                             scenarioTrack
                             [] [] [0] "Anthem - Band" "Anthem" "Band")
    as (_ & Hnever & Hscenario & _).
  destruct Hscenario as [Hr Hm]; [reflexivity|reflexivity|reflexivity|].
  destruct (@weight_extremes (list Q) TapeRandom asciiOnlyLower baseConfig [] [] [] []
                             scenarioInfo scenarioTrack
                             [] [] [99 # 100] "Anthem - Band" "Anthem" "Band")
    as (_ & _ & _ & Hnone).
  destruct Hnone as (_ & Halways & _); [reflexivity|reflexivity|].
  split; [exact Hr|]. split; [exact Hm|]. split; [exact (Hnever Hm)|].
  apply Halways. reflexivity.
Defined.

(** C8 as stated fails in master curation: a track with no overplay record
    and no top rank, whose artist totals three overplay occurrences, gets
    the weight [10 - 2 = 8] when the artist-overplay feature is on, and a
    draw of 9/10 excludes it. *)
Lemma unrecorded_track_can_be_excluded :
  dict_get "t1" otherCounts = None /\
  dict_get "t1" ([] : Dict Z) = None /\
  isBlacklisted (L := asciiOnlyLower) artistConfig [] "Band" = false /\
  masterWeight artistConfig otherCounts [] ["a1"%string] bandInfo "t1" == 8 /\
  fst (random_random [9 # 10]) = 9 # 10 /\
  fst (masterStep (L := asciiOnlyLower) artistConfig otherCounts [] ["a1"%string] []
                  bandInfo ([], [9 # 10])
                  ("Song - Band", ("t1", "Song", "Band"))%string) = [].
Proof.
  repeat split; vm_compute; reflexivity.
Qed.

(** ** Exclusions *)

Lemma isTitleExcluded_contains (L : StrLower) (title : string)
      (words : list string) :
  title <> EmptyString ->
  isTitleExcluded title words =
  existsb (fun word => lowerContains word title) words.
Proof.
  intros Hne. unfold isTitleExcluded. destruct words as [|w words]; [reflexivity|].
  apply String.eqb_neq in Hne. rewrite Hne. reflexivity.
Qed.

Lemma random_sample_incl (G : Type) (RS : RandomSource G) (A : Type)
      (population : list A) (k : Z) (g g' : G) (picked : list A) :
  random_sample population k g = Some (picked, g') -> incl picked population.
Proof.
  unfold random_sample. destruct (_ || _); [discriminate|].
  destruct (sample_positions _ _ g) as [positions g1]. intros [= <- _].
  intros x Hx. unfold pickAt in Hx. apply in_flat_map in Hx.
  destruct Hx as (i & _ & Hi).
  destruct (nth_error population i) as [y|] eqn:Hnth; [|contradiction].
  destruct Hi as [<-|[]]. exact (nth_error_In _ _ Hnth).
Qed.

Lemma lowerContains_ascii (L : StrLower) (needle hay : string) :
  isAscii needle = true -> isAscii hay = true ->
  lowerContains needle hay = str_in (asciiLower needle) (asciiLower hay).
Proof.
  intros Hn Hh. unfold lowerContains.
  rewrite (lower_of_ascii _ Hn), (lower_of_ascii _ Hh). reflexivity.
Qed.

Section Exclusions.
Context {G : Type} `{RandomSource G} {L : StrLower}.
Variable config : Config.
Variables tooMuchCounts topPositions : Dict Z.
Variables artistTooMuch artistBlacklistNames : list string.

Lemma eligibleStep_excluded (eligibleSongs : list string) (g : G) (t : TrackObj) :
  isTitleExcluded (track_name t) (excludedWords config) = true ->
  eligibleStep config tooMuchCounts topPositions (eligibleSongs, g) t =
  (eligibleSongs, g).
Proof. intros Ht. unfold eligibleStep. rewrite Ht. reflexivity. Qed.

Lemma eligibleStep_In (eligibleSongs : list string) (g : G) (t : TrackObj)
      (tid : string) :
  In tid (fst (eligibleStep config tooMuchCounts topPositions (eligibleSongs, g) t)) ->
  In tid eligibleSongs \/
  (track_id t = tid /\ isTitleExcluded (track_name t) (excludedWords config) = false).
Proof.
  unfold eligibleStep.
  destruct (isTitleExcluded _ _) eqn:Ht; [left; assumption|].
  destruct (removeRadioSongsByWeight config).
  - destruct (random_random g) as [d g']. destruct (Qle_bool _ d); cbn [fst].
    + left; assumption.
    + intros Hin. apply in_app_or in Hin. destruct Hin as [Hin|[<-|[]]]; auto.
  - cbn [fst]. intros Hin. apply in_app_or in Hin.
    destruct Hin as [Hin|[<-|[]]]; auto.
Qed.

Lemma eligibleLoop_In (topResults : list TrackObj) (eligibleSongs : list string)
      (g : G) (tid : string) :
  In tid (fst (fold_left (eligibleStep config tooMuchCounts topPositions)
                         topResults (eligibleSongs, g))) ->
  In tid eligibleSongs \/
  exists t, In t topResults /\ track_id t = tid /\
            isTitleExcluded (track_name t) (excludedWords config) = false.
Proof.
  revert eligibleSongs g. induction topResults as [|t rest IH]; intros el g Hin.
  - left. exact Hin.
  - cbn [fold_left] in Hin.
    destruct (eligibleStep config tooMuchCounts topPositions (el, g) t)
      as [el1 g1] eqn:Hstep.
    destruct (IH el1 g1 Hin) as [Hin1|(t' & Ht' & Hid & Hex)].
    + assert (Hin2 : In tid (fst (eligibleStep config tooMuchCounts topPositions
                                               (el, g) t)))
        by (rewrite Hstep; exact Hin1).
      destruct (eligibleStep_In _ _ _ _ Hin2) as [Hold|[Hid Hex]]; [left; exact Hold|].
      right. exists t. repeat split; auto. left. reflexivity.
    + right. exists t'. repeat split; auto. right. exact Ht'.
Qed.

Lemma selectSongs_incl (eligibleSongs selectedSongs : list string) (g g' : G) :
  selectSongs config eligibleSongs g = Some (selectedSongs, g') ->
  incl selectedSongs eligibleSongs.
Proof.
  unfold selectSongs. destruct eligibleSongs as [|x rest].
  - intros [= <- _]. apply incl_refl.
  - destruct (_ >=? _)%Z.
    + intros [= <- _]. apply incl_refl.
    + apply random_sample_incl.
Qed.

Lemma radioArtist_blacklisted (allTopTracks : Dict (list TrackObj))
      (artistNames : Dict string) (radioTracks : list string) (g : G)
      (artistId artistName : string) :
  dict_get artistId artistNames = Some artistName ->
  isBlacklisted config artistBlacklistNames artistName = true ->
  radioArtist config tooMuchCounts topPositions artistBlacklistNames
              allTopTracks artistNames (radioTracks, g) artistId =
  Some (radioTracks, g).
Proof. intros Hn Hbl. unfold radioArtist. rewrite Hn, Hbl. reflexivity. Qed.

Lemma radioArtist_In (allTopTracks : Dict (list TrackObj))
      (artistNames : Dict string) (radioTracks tracks' : list string) (g g' : G)
      (artistId tid : string) :
  radioArtist config tooMuchCounts topPositions artistBlacklistNames
              allTopTracks artistNames (radioTracks, g) artistId =
  Some (tracks', g') ->
  In tid tracks' ->
  In tid radioTracks \/
  exists artistName t,
    dict_get artistId artistNames = Some artistName /\
    isBlacklisted config artistBlacklistNames artistName = false /\
    In t (dict_get_default artistId [] allTopTracks) /\
    track_id t = tid /\
    isTitleExcluded (track_name t) (excludedWords config) = false.
Proof.
  unfold radioArtist.
  destruct (dict_get artistId artistNames) as [artistName|]; [|discriminate].
  destruct (isBlacklisted config artistBlacklistNames artistName) eqn:Hbl.
  - intros [= <- _] Hin. left. exact Hin.
  - destruct (fold_left _ _ _) as [eligibleSongs g1] eqn:Hloop.
    destruct (selectSongs config eligibleSongs g1) as [[selectedSongs g2]|] eqn:Hsel;
      [|discriminate].
    intros [= <- _] Hin. apply in_app_or in Hin. destruct Hin as [Hin|Hin];
      [left; exact Hin|].
    apply (selectSongs_incl _ _ Hsel) in Hin.
    assert (Hin' : In tid (fst (fold_left
                                  (eligibleStep config tooMuchCounts topPositions)
                                  (dict_get_default artistId [] allTopTracks)
                                  ([], g))))
      by (rewrite Hloop; exact Hin).
    destruct (eligibleLoop_In _ _ _ _ Hin') as [[]|(t & Ht & Hid & Hex)].
    right. exists artistName, t. repeat split; auto.
Qed.

Lemma radioLoop_In (allTopTracks : Dict (list TrackObj))
      (artistNames : Dict string) (chosen : list string)
      (radioTracks tracks' : list string) (g g' : G) (tid : string) :
  radioLoop config tooMuchCounts topPositions artistBlacklistNames
            allTopTracks artistNames chosen (radioTracks, g) = Some (tracks', g') ->
  In tid tracks' ->
  In tid radioTracks \/
  exists artistId artistName t,
    In artistId chosen /\
    dict_get artistId artistNames = Some artistName /\
    isBlacklisted config artistBlacklistNames artistName = false /\
    In t (dict_get_default artistId [] allTopTracks) /\
    track_id t = tid /\
    isTitleExcluded (track_name t) (excludedWords config) = false.
Proof.
  revert radioTracks g. induction chosen as [|artistId chosen IH];
    intros radioTracks g Hrun Hin.
  - cbn in Hrun. injection Hrun as <- _. left. exact Hin.
  - cbn [radioLoop] in Hrun.
    destruct (radioArtist config tooMuchCounts topPositions artistBlacklistNames
                          allTopTracks artistNames (radioTracks, g) artistId)
      as [[tracks1 g1]|] eqn:Hstep; [|discriminate].
    destruct (IH tracks1 g1 Hrun Hin)
      as [Hin1|(a & an & t & Ha & Hn & Hbl & Ht & Hid & Hex)].
    + edestruct radioArtist_In as [Hold|(an & t & Hn & Hbl & Ht & Hid & Hex)];
        [exact Hstep|exact Hin1|left; exact Hold|].
      right. exists artistId, an, t. repeat split; auto. left. reflexivity.
    + right. exists a, an, t. repeat split; auto. right. exact Ha.
Qed.

Lemma radioTracksOf_In (discoverTracks : list string) (masterInfo : Dict TrackInfo)
      (topTracksOf : list string -> Dict (list TrackObj))
      (tracks' : list string) (g g' : G) (tid : string) :
  radioTracksOf config tooMuchCounts topPositions artistBlacklistNames
                discoverTracks masterInfo topTracksOf g = Some (tracks', g') ->
  In tid tracks' ->
  (includeDiscoverWeeklyInRadio config = true /\ In tid discoverTracks) \/
  exists chosen artistId artistName t,
    In artistId chosen /\
    dict_get artistId (snd (artistMapsOf masterInfo)) = Some artistName /\
    isBlacklisted config artistBlacklistNames artistName = false /\
    In t (dict_get_default artistId [] (topTracksOf chosen)) /\
    track_id t = tid /\
    isTitleExcluded (track_name t) (excludedWords config) = false.
Proof.
  unfold radioTracksOf. destruct (artistMapsOf masterInfo) as [artistMap artistNames].
  destruct (chooseArtists config artistMap g) as [[chosen g1]|]; [|discriminate].
  intros Hrun Hin.
  edestruct radioLoop_In as [Hold|(a & an & t & Ha & Hn & Hbl & Ht & Hid & Hex)];
    [exact Hrun|exact Hin| |].
  - left. destruct (includeDiscoverWeeklyInRadio config); [split; auto|contradiction].
  - right. exists chosen, a, an, t. repeat split; auto.
Qed.

Lemma masterStep_blacklisted (allInfo : Dict TrackInfo) (selected : list string)
      (g : G) (key tid name artist : string) :
  isBlacklisted config artistBlacklistNames artist = true ->
  masterStep config tooMuchCounts topPositions artistTooMuch artistBlacklistNames
             allInfo (selected, g) (key, (tid, name, artist)) = (selected, g).
Proof. intros Hbl. unfold masterStep. rewrite Hbl. reflexivity. Qed.

Lemma masterStep_In (allInfo : Dict TrackInfo) (selected : list string) (g : G)
      (key tid name artist x : string) :
  In x (fst (masterStep config tooMuchCounts topPositions artistTooMuch
                        artistBlacklistNames allInfo (selected, g)
                        (key, (tid, name, artist)))) ->
  In x selected \/
  (x = tid /\ isBlacklisted config artistBlacklistNames artist = false).
Proof.
  unfold masterStep.
  destruct (isBlacklisted config artistBlacklistNames artist); [left; assumption|].
  destruct (random_random g) as [d g']. destruct (Qlt_bool d _); cbn [fst].
  - intros Hin. apply in_app_or in Hin. destruct Hin as [Hin|[<-|[]]]; auto.
  - left; assumption.
Qed.

Lemma masterLoop_In (allInfo : Dict TrackInfo)
      (entries : Dict (string * string * string)) (selected : list string)
      (g : G) (x : string) :
  In x (fst (fold_left (masterStep config tooMuchCounts topPositions artistTooMuch
                                   artistBlacklistNames allInfo)
                       entries (selected, g))) ->
  In x selected \/
  exists key name artist,
    In (key, (x, name, artist)) entries /\
    isBlacklisted config artistBlacklistNames artist = false.
Proof.
  revert selected g. induction entries as [|[key [[tid name] artist]] rest IH];
    intros selected g Hin.
  - left. exact Hin.
  - cbn [fold_left] in Hin.
    destruct (masterStep config tooMuchCounts topPositions artistTooMuch
                         artistBlacklistNames allInfo (selected, g)
                         (key, (tid, name, artist))) as [sel1 g1] eqn:Hstep.
    destruct (IH sel1 g1 Hin) as [Hin1|(k & n & a & Hk & Hbl)].
    + assert (Hin2 : In x (fst (masterStep config tooMuchCounts topPositions
                                           artistTooMuch artistBlacklistNames
                                           allInfo (selected, g)
                                           (key, (tid, name, artist)))))
        by (rewrite Hstep; exact Hin1).
      destruct (masterStep_In _ _ _ _ _ _ _ _ Hin2) as [Hold|[-> Hbl]];
        [left; exact Hold|].
      right. exists key, name, artist. split; [left; reflexivity|exact Hbl].
    + right. exists k, n, a. split; [right; exact Hk|exact Hbl].
Qed.

End Exclusions.

(** C2, as the code has it.  The two tests compare texts lower-cased by
    [str.lower()], whatever that function does to them: a title is
    excluded when it is not empty and its lower-cased form contains the
    lower-cased form of an excluded word, an artist name is blacklisted
    when the feature is on and its lower-cased form contains the
    lower-cased form of a blacklisted name; on ASCII text this is the
    substring test that ignores the case of the letters.  Radio generation
    excludes unconditionally, before any weight or draw: an excluded title
    never enters the pool of its artist, a blacklisted artist contributes
    nothing, and whatever the radio holds before its shuffle is a Discover
    Weekly track (taken as it comes when that feature is on) or a top
    track, with a title that passes, of a chosen artist whose name is not
    blacklisted.  Master curation excludes unconditionally the tracks of a
    blacklisted artist name; it does not consult the excluded words. *)
Theorem exclusions_absolute (G : Type) (RS : RandomSource G) (L : StrLower)
        (config : Config) (tooMuchCounts topPositions : Dict Z)
        (artistTooMuch artistBlacklistNames : list string) :
  (forall title, title <> EmptyString ->
      isTitleExcluded title (excludedWords config) =
      existsb (fun word => str_in (lower word) (lower title)) (excludedWords config)) /\
  (forall artist,
      isBlacklisted config artistBlacklistNames artist =
      artistBlacklist config &&
      existsb (fun b => str_in (lower b) (lower artist)) artistBlacklistNames) /\
  (forall needle hay,
      isAscii needle = true -> isAscii hay = true ->
      str_in (lower needle) (lower hay) =
      str_in (asciiLower needle) (asciiLower hay)) /\
  (forall eligibleSongs g t,
      isTitleExcluded (track_name t) (excludedWords config) = true ->
      eligibleStep config tooMuchCounts topPositions (eligibleSongs, g) t =
      (eligibleSongs, g)) /\
  (forall allTopTracks artistNames radioTracks g artistId artistName,
      dict_get artistId artistNames = Some artistName ->
      isBlacklisted config artistBlacklistNames artistName = true ->
      radioArtist config tooMuchCounts topPositions artistBlacklistNames
                  allTopTracks artistNames (radioTracks, g) artistId =
      Some (radioTracks, g)) /\
  (forall allTopTracks artistNames radioTracks g artistId tracks' g' tid,
      radioArtist config tooMuchCounts topPositions artistBlacklistNames
                  allTopTracks artistNames (radioTracks, g) artistId =
      Some (tracks', g') ->
      In tid tracks' ->
      In tid radioTracks \/
      exists artistName t,
        dict_get artistId artistNames = Some artistName /\
        isBlacklisted config artistBlacklistNames artistName = false /\
        In t (dict_get_default artistId [] allTopTracks) /\
        track_id t = tid /\
        isTitleExcluded (track_name t) (excludedWords config) = false) /\
  (forall discoverTracks masterInfo topTracksOf g tracks' g' tid,
      radioTracksOf config tooMuchCounts topPositions artistBlacklistNames
                    discoverTracks masterInfo topTracksOf g = Some (tracks', g') ->
      In tid tracks' ->
      (includeDiscoverWeeklyInRadio config = true /\ In tid discoverTracks) \/
      exists chosen artistId artistName t,
        In artistId chosen /\
        dict_get artistId (snd (artistMapsOf masterInfo)) = Some artistName /\
        isBlacklisted config artistBlacklistNames artistName = false /\
        In t (dict_get_default artistId [] (topTracksOf chosen)) /\
        track_id t = tid /\
        isTitleExcluded (track_name t) (excludedWords config) = false) /\
  (forall allInfo selected g key tid name artist,
      isBlacklisted config artistBlacklistNames artist = true ->
      masterStep config tooMuchCounts topPositions artistTooMuch
                 artistBlacklistNames allInfo (selected, g)
                 (key, (tid, name, artist)) = (selected, g)) /\
  (forall allInfo g tid,
      In tid (fst (masterSelection config tooMuchCounts topPositions artistTooMuch
                                   artistBlacklistNames allInfo g)) ->
      exists key name artist,
        In (key, (tid, name, artist)) (trackMapOf allInfo) /\
        isBlacklisted config artistBlacklistNames artist = false).
Proof.
  split; [intros title Hne; apply isTitleExcluded_contains; exact Hne|].
  split; [intros artist; unfold isBlacklisted;
          destruct (artistBlacklist config); reflexivity|].
  split; [intros needle hay Hn Hh; apply (lowerContains_ascii L _ _ Hn Hh)|].
  split; [intros; apply eligibleStep_excluded; assumption|].
  split; [intros; eapply radioArtist_blacklisted; eassumption|].
  split; [intros; eapply radioArtist_In; eassumption|].
  split; [intros; eapply radioTracksOf_In; eassumption|].
  split; [intros; apply masterStep_blacklisted; assumption|].
  intros allInfo g tid Hin. unfold masterSelection in Hin.
  destruct (masterLoop_In _ _ _ _ _ _ _ _ _ _ Hin) as [[]|Hex]. exact Hex.
Qed.

Lemma exclusions_absolute_witness :
  eligibleStep (L := asciiOnlyLower) liveConfig [] [] ([], [0]) liveTrack =
    ([], [0]) /\
  masterStep (L := asciiOnlyLower) blacklistConfig [] [] [] ["band"%string] liveInfo
             ([], [0])
             ("Song (Live) - Band", ("t1", "Song (Live)", "Band"))%string = ([], [0]).
Proof.
  destruct (@exclusions_absolute (list Q) TapeRandom asciiOnlyLower liveConfig
                                 [] [] [] [])
    as (_ & _ & _ & Hradio & _).
  destruct (@exclusions_absolute (list Q) TapeRandom asciiOnlyLower blacklistConfig
                                 [] [] [] ["band"%string])
    as (_ & _ & _ & _ & _ & _ & _ & Hmaster & _).
  split.
  - apply Hradio. reflexivity.
  - apply Hmaster. reflexivity.
Defined.

(** C2 as stated fails in master curation: a title that contains an
    excluded word is selected there. *)
Lemma master_ignores_excluded_words :
  isAscii "Song (Live)" = true /\
  existsb (fun word => str_in (asciiLower word) (asciiLower "Song (Live)"))
          (excludedWords liveConfig) = true /\
  isTitleExcluded (L := asciiOnlyLower) "Song (Live)" (excludedWords liveConfig) =
    true /\
  trackMapOf liveInfo =
    [("Song (Live) - Band", ("t1", "Song (Live)", "Band"))]%string /\
  fst (masterSelection (L := asciiOnlyLower) liveConfig [] [] [] [] liveInfo [0]) =
    ["t1"%string].
Proof.
  repeat split; vm_compute; reflexivity.
Qed.

(** ** Re-keying by title and artist *)

Lemma dict_set_keys (V : Type) (k : string) (v : V) (d : Dict V) :
  dict_keys (dict_set k v d) =
  if existsb (String.eqb k) (dict_keys d) then dict_keys d else dict_keys d ++ [k].
Proof.
  induction d as [|[k' v'] d IH]; cbn; [reflexivity|].
  destruct (String.eqb_spec k k') as [->|Hne]; cbn; [reflexivity|].
  unfold dict_keys in IH. rewrite IH.
  destruct (existsb (String.eqb k) (map fst d)); reflexivity.
Qed.

Lemma dict_set_NoDup (V : Type) (k : string) (v : V) (d : Dict V) :
  NoDup (dict_keys d) -> NoDup (dict_keys (dict_set k v d)).
Proof.
  intros Hnd. rewrite dict_set_keys.
  destruct (existsb (String.eqb k) (dict_keys d)) eqn:Hex; [exact Hnd|].
  apply NoDup_app; [exact Hnd|repeat constructor; intros []|].
  intros a Ha [Heq|[]]. subst a.
  assert (existsb (String.eqb k) (dict_keys d) = true); [|congruence].
  apply existsb_exists. exists k. split; [exact Ha|apply String.eqb_refl].
Qed.

Lemma dict_set_In (V : Type) (k k' : string) (v v' : V) (d : Dict V) :
  In (k', v') (dict_set k v d) -> (k' = k /\ v' = v) \/ In (k', v') d.
Proof.
  induction d as [|[k0 v0] d IH]; cbn.
  - intros [[= <- <-]|[]]. left. split; reflexivity.
  - destruct (String.eqb_spec k k0) as [->|Hne]; cbn.
    + intros [[= <- <-]|Hin]; [left; split; reflexivity|right; right; exact Hin].
    + intros [Heq|Hin]; [right; left; exact Heq|].
      destruct (IH Hin) as [Hnew|Hold]; [left; exact Hnew|right; right; exact Hold].
Qed.

Lemma dict_In_unique (V : Type) (d : Dict V) (k : string) (v1 v2 : V) :
  NoDup (dict_keys d) -> In (k, v1) d -> In (k, v2) d -> v1 = v2.
Proof.
  induction d as [|[k0 v0] d IH]; cbn; intros Hnd H1 H2; [contradiction|].
  inversion Hnd as [|? ? Hk Hnd']; subst.
  assert (Hkey : forall v, In (k0, v) d -> False).
  { intros v Hin. apply Hk. unfold dict_keys.
    change k0 with (fst (k0, v)). apply in_map. exact Hin. }
  destruct H1 as [E1|H1], H2 as [E2|H2].
  - congruence.
  - injection E1 as <- <-. exfalso. exact (Hkey _ H2).
  - injection E2 as <- <-. exfalso. exact (Hkey _ H1).
  - exact (IH Hnd' H1 H2).
Qed.

Lemma dict_get_In (V : Type) (d : Dict V) (k : string) (v : V) :
  NoDup (dict_keys d) -> In (k, v) d -> dict_get k d = Some v.
Proof.
  induction d as [|[k0 v0] d IH]; cbn; intros Hnd Hin; [contradiction|].
  inversion Hnd as [|? ? Hk Hnd']; subst.
  destruct Hin as [[= -> ->]|Hin].
  - rewrite String.eqb_refl. reflexivity.
  - destruct (String.eqb_spec k k0) as [->|Hne]; [|exact (IH Hnd' Hin)].
    exfalso. apply Hk. unfold dict_keys. change k0 with (fst (k0, v)).
    apply in_map. exact Hin.
Qed.

Lemma trackMap_fold_ok (allInfo rest : Dict TrackInfo)
      (trackMap : Dict (string * string * string)) :
  incl rest allInfo ->
  TrackMapOk allInfo trackMap ->
  TrackMapOk allInfo (fold_left trackMapStep rest trackMap).
Proof.
  revert trackMap. induction rest as [|[tid [[n a] x]] rest IH];
    intros trackMap Hincl Hok; [exact Hok|].
  cbn [fold_left]. apply IH.
  - intros e He. apply Hincl. right. exact He.
  - destruct Hok as [Hnd Hwf]. split; [apply dict_set_NoDup; exact Hnd|].
    intros key tid' n' a' Hin. apply dict_set_In in Hin.
    destruct Hin as [[-> [= -> -> ->]]|Hin].
    + split; [reflexivity|]. exists x. apply Hincl. left. reflexivity.
    + exact (Hwf _ _ _ _ Hin).
Qed.

Lemma trackMapOf_ok (allInfo : Dict TrackInfo) :
  TrackMapOk allInfo (trackMapOf allInfo).
Proof.
  unfold trackMapOf. apply trackMap_fold_ok; [apply incl_refl|].
  split; [constructor|intros ? ? ? ? []].
Qed.

Lemma Subseq_refl (A : Type) (l : list A) : Subseq l l.
Proof. induction l; constructor; assumption. Qed.

Lemma Subseq_incl (A : Type) (l1 l2 : list A) : Subseq l1 l2 -> incl l1 l2.
Proof.
  induction 1 as [|x l1 l2 _ IH|x l1 l2 _ IH]; intros y Hy.
  - exact Hy.
  - right. exact (IH y Hy).
  - destruct Hy as [<-|Hy]; [left; reflexivity|right; exact (IH y Hy)].
Qed.

Lemma Subseq_map_NoDup (A B : Type) (f : A -> B) (l1 l2 : list A) :
  Subseq l1 l2 -> NoDup (map f l2) -> NoDup (map f l1).
Proof.
  induction 1 as [|x l1 l2 Hsub IH|x l1 l2 Hsub IH]; cbn; intros Hnd.
  - constructor.
  - inversion Hnd; subst. apply IH. assumption.
  - inversion Hnd as [|? ? Hx Hnd']; subst. constructor; [|apply IH; exact Hnd'].
    intros Hin. apply Hx. apply in_map_iff in Hin. destruct Hin as (y & Hy & Hyin).
    apply in_map_iff. exists y. split; [exact Hy|].
    exact (Subseq_incl Hsub y Hyin).
Qed.

Section MasterLoop.
Context {G : Type} `{RandomSource G} {L : StrLower}.
Variable config : Config.
Variables tooMuchCounts topPositions : Dict Z.
Variables artistTooMuch artistBlacklistNames : list string.
Variable allInfo : Dict TrackInfo.

(** The master loop selects the ids of some of the entries, in order. *)
Lemma masterLoop_Subseq (entries : Dict (string * string * string))
      (selected : list string) (g : G) :
  exists kept,
    Subseq kept entries /\
    fst (fold_left (masterStep config tooMuchCounts topPositions artistTooMuch
                               artistBlacklistNames allInfo)
                   entries (selected, g)) =
    selected ++ consideredIds kept.
Proof.
  revert selected g. induction entries as [|[key [[tid name] artist]] rest IH];
    intros selected g.
  - exists []. split; [constructor|]. cbn. rewrite app_nil_r. reflexivity.
  - cbn [fold_left].
    assert (Hstep :
      masterStep config tooMuchCounts topPositions artistTooMuch
                 artistBlacklistNames allInfo (selected, g)
                 (key, (tid, name, artist)) =
        (selected, snd (masterStep config tooMuchCounts topPositions artistTooMuch
                                   artistBlacklistNames allInfo (selected, g)
                                   (key, (tid, name, artist)))) \/
      masterStep config tooMuchCounts topPositions artistTooMuch
                 artistBlacklistNames allInfo (selected, g)
                 (key, (tid, name, artist)) =
        (selected ++ [tid],
         snd (masterStep config tooMuchCounts topPositions artistTooMuch
                         artistBlacklistNames allInfo (selected, g)
                         (key, (tid, name, artist))))).
    { unfold masterStep. destruct (isBlacklisted _ _ _); [left; reflexivity|].
      destruct (random_random g) as [d g']. destruct (Qlt_bool d _);
        [right|left]; reflexivity. }
    destruct Hstep as [-> | ->].
    + destruct (IH selected (snd (masterStep config tooMuchCounts topPositions
                                             artistTooMuch artistBlacklistNames
                                             allInfo (selected, g)
                                             (key, (tid, name, artist)))))
        as (kept & Hsub & Heq).
      exists kept. split; [constructor; exact Hsub|exact Heq].
    + destruct (IH (selected ++ [tid])
                   (snd (masterStep config tooMuchCounts topPositions
                                    artistTooMuch artistBlacklistNames
                                    allInfo (selected, g)
                                    (key, (tid, name, artist)))))
        as (kept & Hsub & Heq).
      exists ((key, (tid, name, artist)) :: kept).
      split; [constructor; exact Hsub|].
      rewrite Heq, <- app_assoc. reflexivity.
Qed.

End MasterLoop.

Lemma titleArtist_NoDup (allInfo : Dict TrackInfo)
      (trackMap : Dict (string * string * string)) :
  TrackMapOk allInfo trackMap ->
  NoDup (map (fun entry : string * (string * string * string) =>
                let '(_, (_, n, a)) := entry in Some (n, a)) trackMap).
Proof.
  intros [Hnd Hwf].
  apply (@NoDup_map_inv _ _
           (fun o : option (string * string) =>
              match o with Some (n, a) => trackKey n a | None => EmptyString end)).
  rewrite map_map.
  replace (map _ trackMap) with (dict_keys trackMap); [exact Hnd|].
  unfold dict_keys. apply map_ext_in. intros [key [[tid n] a]] Hin.
  destruct (Hwf _ _ _ _ Hin) as [-> _]. reflexivity.
Qed.

(** C10.  Master curation goes through [trackMap], the resolved tracks
    re-keyed by ["title - artist name"]: of two distinct ids resolved to
    the same title and artist name at most one stands in it, the selected
    ids are ids of its entries taken in order, and no two selected ids
    share title and artist name. *)
Theorem master_one_per_title_artist (G : Type) (RS : RandomSource G)
        (L : StrLower) (config : Config) (tooMuchCounts topPositions : Dict Z)
        (artistTooMuch artistBlacklistNames : list string)
        (allInfo : Dict TrackInfo) (g : G) :
  NoDup (dict_keys allInfo) ->
  let trackMap := trackMapOf allInfo in
  let selected :=
      fst (masterSelection config tooMuchCounts topPositions artistTooMuch
                           artistBlacklistNames allInfo g) in
  (forall key tid n a,
      In (key, (tid, n, a)) trackMap ->
      key = (n ++ " - " ++ a)%string /\ exists x, In (tid, (n, a, x)) allInfo) /\
  NoDup (dict_keys trackMap) /\
  (forall tid1 tid2 n a x1 x2,
      tid1 <> tid2 ->
      In (tid1, (n, a, x1)) allInfo -> In (tid2, (n, a, x2)) allInfo ->
      ~ (In tid1 (consideredIds trackMap) /\ In tid2 (consideredIds trackMap))) /\
  (exists kept, Subseq kept trackMap /\ selected = consideredIds kept) /\
  NoDup (map (titleArtistOf allInfo) selected).
Proof.
  intros Hkeys trackMap selected.
  pose proof (trackMapOf_ok allInfo) as Hok. fold trackMap in Hok.
  destruct Hok as [Hnd Hwf].
  assert (Hresolved : forall key tid n a,
             In (key, (tid, n, a)) trackMap ->
             titleArtistOf allInfo tid = Some (n, a)).
  { intros key tid n a Hin. destruct (Hwf _ _ _ _ Hin) as [_ [x Hx]].
    unfold titleArtistOf. rewrite (dict_get_In _ _ _ Hkeys Hx). reflexivity. }
  split; [exact Hwf|]. split; [exact Hnd|]. split; [|split].
  - intros tid1 tid2 n a x1 x2 Hne H1 H2 [Hc1 Hc2].
    unfold consideredIds in Hc1, Hc2.
    apply in_map_iff in Hc1. destruct Hc1 as ([k1 [[t1 n1] a1]] & Ht1 & He1).
    apply in_map_iff in Hc2. destruct Hc2 as ([k2 [[t2 n2] a2]] & Ht2 & He2).
    cbn in Ht1, Ht2. subst t1 t2.
    pose proof (Hresolved _ _ _ _ He1) as Hr1.
    pose proof (Hresolved _ _ _ _ He2) as Hr2.
    unfold titleArtistOf in Hr1, Hr2.
    rewrite (dict_get_In _ _ _ Hkeys H1) in Hr1.
    rewrite (dict_get_In _ _ _ Hkeys H2) in Hr2.
    injection Hr1 as <- <-. injection Hr2 as <- <-.
    destruct (Hwf _ _ _ _ He1) as [-> _]. destruct (Hwf _ _ _ _ He2) as [-> _].
    pose proof (dict_In_unique _ _ _ _ Hnd He1 He2) as Heq.
    injection Heq as Heq. exact (Hne Heq).
  - unfold selected, masterSelection. fold trackMap.
    destruct (masterLoop_Subseq config tooMuchCounts topPositions artistTooMuch
                                artistBlacklistNames allInfo trackMap [] g)
      as (kept & Hsub & Heq).
    exists kept. split; [exact Hsub|exact Heq].
  - unfold selected, masterSelection. fold trackMap.
    destruct (masterLoop_Subseq config tooMuchCounts topPositions artistTooMuch
                                artistBlacklistNames allInfo trackMap [] g)
      as (kept & Hsub & ->).
    cbn [app]. unfold consideredIds. rewrite map_map.
    replace (map _ kept)
      with (map (fun entry : string * (string * string * string) =>
                   let '(_, (_, n, a)) := entry in Some (n, a)) kept).
    + apply (Subseq_map_NoDup _ Hsub). apply (@titleArtist_NoDup allInfo).
      split; assumption.
    + apply map_ext_in. intros [key [[tid n] a]] Hin. cbn [fst snd].
      symmetry. apply (Hresolved key). exact (Subseq_incl Hsub _ Hin).
Qed.

Lemma master_one_per_title_artist_witness :
  NoDup (map (titleArtistOf twinInfo)
             (fst (masterSelection (L := asciiOnlyLower) baseConfig [] [] [] []
                                   twinInfo [0; 0; 0]))).
Proof.
  destruct (@master_one_per_title_artist (list Q) TapeRandom asciiOnlyLower
                                         baseConfig [] [] [] [] twinInfo [0; 0; 0])
    as (_ & _ & _ & _ & Hnd).
  - repeat constructor; cbn; intuition discriminate.
  - exact Hnd.
Defined.

(** ** Sampling *)

Lemma pickAt_length (A : Type) (population : list A) (positions : list nat) :
  Forall (fun i => (i < List.length population)%nat) positions ->
  List.length (pickAt population positions) = List.length positions.
Proof.
  induction 1 as [|i positions Hi _ IH]; [reflexivity|].
  unfold pickAt in *. cbn [flat_map]. rewrite length_app, IH.
  apply nth_error_Some in Hi. destruct (nth_error population i); [reflexivity|].
  contradiction.
Qed.

Lemma pickAt_In (A : Type) (population : list A) (positions : list nat) (x : A) :
  In x (pickAt population positions) ->
  exists i, In i positions /\ nth_error population i = Some x.
Proof.
  unfold pickAt. intros Hx. apply in_flat_map in Hx. destruct Hx as (i & Hi & Hx).
  exists i. split; [exact Hi|].
  destruct (nth_error population i) as [y|]; [|contradiction].
  destruct Hx as [<-|[]]. reflexivity.
Qed.

Lemma pickAt_NoDup (A : Type) (population : list A) (positions : list nat) :
  NoDup population -> NoDup positions -> NoDup (pickAt population positions).
Proof.
  intros Hpop. induction 1 as [|i positions Hi Hnd IH]; [constructor|].
  unfold pickAt in *. cbn [flat_map].
  destruct (nth_error population i) as [x|] eqn:Hx; [|exact IH].
  cbn [app]. constructor; [|exact IH].
  intros Hin. apply (@pickAt_In A population positions x) in Hin.
  destruct Hin as (j & Hj & Hxj).
  assert (i = j); [|subst; contradiction].
  apply (proj1 (NoDup_nth_error population) Hpop).
  - apply nth_error_Some. rewrite Hx. discriminate.
  - rewrite Hx, Hxj. reflexivity.
Qed.

Lemma random_sample_ok (G : Type) (RS : RandomSource G) (A : Type)
      (population : list A) (k : Z) (g : G) :
  (0 <= k <= Z.of_nat (List.length population))%Z ->
  let positions := fst (sample_positions (List.length population) (Z.to_nat k) g) in
  random_sample population k g =
    Some (pickAt population positions,
          snd (sample_positions (List.length population) (Z.to_nat k) g)) /\
  List.length (pickAt population positions) = Z.to_nat k /\
  NoDup positions /\
  (NoDup population -> NoDup (pickAt population positions)).
Proof.
  intros Hk positions.
  destruct (@sample_positions_ok G RS (List.length population) (Z.to_nat k) g
              ltac:(lia)) as (Hlen & Hnd & Hin).
  fold positions in Hlen, Hnd, Hin.
  split; [|split; [|split]].
  - unfold random_sample.
    replace ((k <? 0) || (Z.of_nat (List.length population) <? k))%Z with false.
    + subst positions. destruct (sample_positions _ _ g). reflexivity.
    + symmetry. apply orb_false_iff. split; [apply Z.ltb_ge|apply Z.ltb_ge]; lia.
  - rewrite pickAt_length; assumption.
  - exact Hnd.
  - intros Hpop. apply pickAt_NoDup; assumption.
Qed.

Lemma dict_set_keys_In (V : Type) (k a : string) (v : V) (d : Dict V) :
  In a (dict_keys (dict_set k v d)) <-> a = k \/ In a (dict_keys d).
Proof.
  rewrite dict_set_keys.
  destruct (existsb (String.eqb k) (dict_keys d)) eqn:Hex.
  - split; [auto|]. intros [->|Hin]; [|exact Hin].
    apply existsb_exists in Hex. destruct Hex as (x & Hx & Heq).
    apply String.eqb_eq in Heq. subst x. exact Hx.
  - rewrite in_app_iff. cbn. intuition.
Qed.

(** The keys of [artistMap] are the distinct non-empty artist ids of the
    resolved tracks. *)
Lemma artistMapsOf_keys (masterInfo : Dict TrackInfo) :
  NoDup (dict_keys (fst (artistMapsOf masterInfo))) /\
  forall a,
    In a (dict_keys (fst (artistMapsOf masterInfo))) <->
    exists tid n an,
      In (tid, (n, an, Some a)) masterInfo /\ a <> EmptyString.
Proof.
  unfold artistMapsOf.
  assert (Hgen : forall rest (maps : Dict (list string) * Dict string),
    NoDup (dict_keys (fst maps)) ->
    NoDup (dict_keys (fst (fold_left artistMapsStep rest maps))) /\
    forall a,
      In a (dict_keys (fst (fold_left artistMapsStep rest maps))) <->
      In a (dict_keys (fst maps)) \/
      exists tid n an, In (tid, (n, an, Some a)) rest /\ a <> EmptyString).
  { induction rest as [|[tid [[n an] [aid|]]] rest IH]; intros [am nm] Hnd.
    - cbn. split; [exact Hnd|]. intros a. split; [auto|].
      intros [Hin|(? & ? & ? & [] & _)]. exact Hin.
    - cbn [fold_left artistMapsStep]. destruct (String.eqb_spec aid EmptyString) as [->|Hne].
      + destruct (IH (am, nm) Hnd) as [Hnd' Hin']. split; [exact Hnd'|].
        intros a. rewrite Hin'. split.
        * intros [Hin|(t & n' & an' & Hin & Hne)]; [left; exact Hin|].
          right. exists t, n', an'. split; [right; exact Hin|exact Hne].
        * intros [Hin|(t & n' & an' & [Heq|Hin] & Hne)]; [left; exact Hin| |].
          -- injection Heq as _ _ _ <-. contradiction.
          -- right. exists t, n', an'. split; [exact Hin|exact Hne].
      + destruct (IH (dict_set aid (dict_get_default aid [] am ++ [tid]) am,
                      dict_set aid an nm)
                     ltac:(apply dict_set_NoDup; exact Hnd)) as [Hnd' Hin'].
        split; [exact Hnd'|]. intros a. rewrite Hin'. cbn [fst].
        rewrite dict_set_keys_In. split.
        * intros [[->|Hin]|(t & n' & an' & Hin & Hne')].
          -- right. exists tid, n, an. split; [left; reflexivity|exact Hne].
          -- left. exact Hin.
          -- right. exists t, n', an'. split; [right; exact Hin|exact Hne'].
        * intros [Hin|(t & n' & an' & [Heq|Hin] & Hne')].
          -- left. right. exact Hin.
          -- injection Heq as _ _ _ <-. left. left. reflexivity.
          -- right. exists t, n', an'. split; [exact Hin|exact Hne'].
    - cbn [fold_left artistMapsStep]. destruct (IH (am, nm) Hnd) as [Hnd' Hin'].
      split; [exact Hnd'|]. intros a. rewrite Hin'. split.
      + intros [Hin|(t & n' & an' & Hin & Hne)]; [left; exact Hin|].
        right. exists t, n', an'. split; [right; exact Hin|exact Hne].
      + intros [Hin|(t & n' & an' & [Heq|Hin] & Hne)]; [left; exact Hin| |].
        * discriminate Heq.
        * right. exists t, n', an'. split; [exact Hin|exact Hne]. }
  destruct (Hgen masterInfo ([], []) ltac:(constructor)) as [Hnd Hin].
  split; [exact Hnd|]. intros a. rewrite Hin. cbn. tauto.
Qed.

Lemma pickAt_incl (A : Type) (population : list A) (positions : list nat) :
  incl (pickAt population positions) population.
Proof.
  intros x Hx. apply pickAt_In in Hx. destruct Hx as (i & _ & Hi).
  exact (nth_error_In _ _ Hi).
Qed.

Lemma selectSongs_nonempty (G : Type) (RS : RandomSource G) (config : Config)
      (eligibleSongs : list string) (g : G) :
  eligibleSongs <> [] ->
  selectSongs config eligibleSongs g =
  if (Z.min (radioArtistSongs config) (Z.of_nat (List.length eligibleSongs))
      >=? Z.of_nat (List.length eligibleSongs))%Z
  then Some (eligibleSongs, g)
  else random_sample eligibleSongs
                     (Z.min (radioArtistSongs config)
                            (Z.of_nat (List.length eligibleSongs))) g.
Proof.
  intros Hne. unfold selectSongs. destruct eligibleSongs; [contradiction|reflexivity].
Qed.

(** ** Uniform samples *)

Lemma pickAt_cons (A : Type) (population : list A) (i : nat) (p : list nat) :
  (i < List.length population)%nat ->
  exists x, nth_error population i = Some x /\
            pickAt population (i :: p) = x :: pickAt population p.
Proof.
  intros Hi. apply nth_error_Some in Hi. unfold pickAt. cbn [flat_map].
  destruct (nth_error population i) as [x|]; [|contradiction].
  exists x. split; reflexivity.
Qed.

Lemma pickAt_picks (A : Type) (population : list A) (p : list nat) (i : nat) (x : A) :
  In i p -> nth_error population i = Some x -> In x (pickAt population p).
Proof.
  intros Hi Hx. unfold pickAt. apply in_flat_map. exists i. split; [exact Hi|].
  rewrite Hx. left. reflexivity.
Qed.

(** In a population without repeats, positions are determined by what
    stands at them. *)
Lemma pickAt_inj (A : Type) (population : list A) (p q : list nat) :
  NoDup population ->
  Forall (fun i => (i < List.length population)%nat) p ->
  Forall (fun i => (i < List.length population)%nat) q ->
  pickAt population p = pickAt population q -> p = q.
Proof.
  intros Hnd Hp. revert q. induction Hp as [|i p Hi _ IH]; intros q Hq Heq.
  - destruct Hq as [|j q Hj _]; [reflexivity|].
    destruct (pickAt_cons population q Hj) as (y & _ & Hy).
    rewrite Hy in Heq. discriminate Heq.
  - destruct (pickAt_cons population p Hi) as (x & Hx & Hxp). rewrite Hxp in Heq.
    destruct Hq as [|j q Hj Hq]; [discriminate Heq|].
    destruct (pickAt_cons population q Hj) as (y & Hy & Hyq). rewrite Hyq in Heq.
    injection Heq as Hxy Hrest. subst y.
    assert (i = j).
    { apply (proj1 (NoDup_nth_error population) Hnd); [exact Hi|].
      rewrite Hx, Hy. reflexivity. }
    subst j. f_equal. exact (IH q Hq Hrest).
Qed.

(** Every selection of distinct elements of the population is picked by
    an arrangement of positions. *)
Lemma pickAt_preimage (A : Type) (population selection : list A) :
  NoDup selection -> incl selection population ->
  exists p,
    Arrangement (List.length population) (List.length selection) p /\
    pickAt population p = selection.
Proof.
  induction selection as [|x selection IH]; intros Hnd Hincl.
  - exists []. split; [|reflexivity]. repeat split; constructor.
  - inversion Hnd as [|? ? Hx Hnd']; subst.
    destruct (IH Hnd' (fun y Hy => Hincl y (or_intror Hy)))
      as (p & (Hlen & Hndp & Hin) & Hpick).
    destruct (In_nth_error population x (Hincl x (or_introl eq_refl))) as [i Hi].
    assert (Hlt : (i < List.length population)%nat)
      by (apply nth_error_Some; rewrite Hi; discriminate).
    exists (i :: p). split; [split; [|split]|].
    + cbn. rewrite Hlen. reflexivity.
    + constructor; [|exact Hndp]. intros Hip. apply Hx. rewrite <- Hpick.
      exact (pickAt_picks population p i Hip Hi).
    + constructor; assumption.
    + destruct (pickAt_cons population p Hlt) as (y & Hy & Hyp).
      rewrite Hyp, Hpick. congruence.
Qed.

(** A uniform sample of positions is a uniform sample of the elements of
    a population without repeats: any two selections of [k] distinct
    elements come out in the same number of states. *)
Lemma sample_uniform (G : Type) (RS : RandomSource G) (population : list string)
      (k : nat) (states : list G) (sample : G -> option (list string * G)) :
  NoDup population -> (k <= List.length population)%nat ->
  (forall g,
      sample g =
      Some (pickAt population (fst (sample_positions (List.length population) k g)),
            snd (sample_positions (List.length population) k g))) ->
  UniformSample states (List.length population) k ->
  forall selection1 selection2,
    List.length selection1 = k /\ NoDup selection1 /\ incl selection1 population ->
    List.length selection2 = k /\ NoDup selection2 /\ incl selection2 population ->
    timesSelected sample selection1 states = timesSelected sample selection2 states.
Proof.
  intros Hnd Hk Hrun Hunif.
  assert (Hcount : forall selection,
             List.length selection = k /\ NoDup selection /\ incl selection population ->
             exists p,
               Arrangement (List.length population) k p /\
               timesSelected sample selection states =
               countWhere (fun g => positions_eqb
                                      (fst (sample_positions (List.length population) k g))
                                      p) states).
  { intros selection (Hlen & Hsel & Hincl).
    destruct (pickAt_preimage Hsel Hincl) as (p & Harr & Hpick).
    rewrite Hlen in Harr. exists p. split; [exact Harr|].
    unfold timesSelected, countWhere. f_equal. apply filter_ext. intros g.
    rewrite Hrun. unfold ids_eqb, positions_eqb.
    destruct (@sample_positions_ok G RS (List.length population) k g Hk)
      as (_ & _ & Hin).
    destruct Harr as (_ & _ & Hinp).
    destruct (list_eq_dec string_dec _ selection) as [He|He];
      destruct (list_eq_dec Nat.eq_dec _ p) as [Hp|Hp]; try reflexivity.
    - exfalso. apply Hp. apply (pickAt_inj Hnd Hin Hinp). congruence.
    - exfalso. apply He. rewrite Hp. exact Hpick. }
  intros selection1 selection2 H1 H2.
  destruct (Hcount selection1 H1) as (p1 & Ha1 & ->).
  destruct (Hcount selection2 H2) as (p2 & Ha2 & ->).
  exact (Hunif p1 p2 Ha1 Ha2).
Qed.

Lemma chooseArtists_run (G : Type) (RS : RandomSource G) (config : Config)
      (artistMap : Dict (list string)) (g : G) :
  (0 <= numberOfRadioArtists config)%Z ->
  let available := dict_keys artistMap in
  let wanted := Nat.min (Z.to_nat (numberOfRadioArtists config))
                        (List.length available) in
  chooseArtists config artistMap g =
  Some (pickAt available (fst (sample_positions (List.length available) wanted g)),
        snd (sample_positions (List.length available) wanted g)).
Proof.
  intros Hn available wanted.
  assert (Hlen : List.length artistMap = List.length available)
    by (unfold available, dict_keys; rewrite length_map; reflexivity).
  assert (Hwanted : Z.to_nat (Z.min (numberOfRadioArtists config)
                                    (Z.of_nat (List.length artistMap))) = wanted)
    by (subst wanted; rewrite Hlen; lia).
  destruct (@random_sample_ok G RS string available
              (Z.min (numberOfRadioArtists config)
                     (Z.of_nat (List.length artistMap))) g ltac:(lia))
    as (Hrun & _).
  rewrite Hwanted in Hrun. exact Hrun.
Qed.

Lemma selectSongs_run (G : Type) (RS : RandomSource G) (config : Config)
      (eligibleSongs : list string) (g : G) :
  (0 <= radioArtistSongs config < Z.of_nat (List.length eligibleSongs))%Z ->
  let wanted := Z.to_nat (radioArtistSongs config) in
  selectSongs config eligibleSongs g =
  Some (pickAt eligibleSongs
               (fst (sample_positions (List.length eligibleSongs) wanted g)),
        snd (sample_positions (List.length eligibleSongs) wanted g)).
Proof.
  intros Hfew wanted.
  rewrite selectSongs_nonempty by (intros ->; cbn in Hfew; lia).
  replace (_ >=? _)%Z with false
    by (symmetry; rewrite Z.geb_leb; apply Z.leb_gt; lia).
  replace (Z.min (radioArtistSongs config) (Z.of_nat (List.length eligibleSongs)))
    with (radioArtistSongs config) by lia.
  destruct (@random_sample_ok G RS string eligibleSongs (radioArtistSongs config)
                              g ltac:(lia)) as (Hrun & _).
  exact Hrun.
Qed.

(** The scripted source whose state is one of the six arrangements of two
    positions among three, each as likely as the others, samples
    uniformly. *)
Lemma pairsOfThree_uniform : UniformSample pairsOfThree 3 2.
Proof.
  assert (Hone : forall p, Arrangement 3 2 p ->
             countWhere (fun g => positions_eqb (fst (sample_positions 3 2 g)) p)
                        pairsOfThree = 1%nat).
  { intros p (Hl & Hnd & Hf). destruct p as [|i [|j [|? ?]]]; try discriminate Hl.
    inversion Hf as [|? ? Hi Hf']; subst. inversion Hf' as [|? ? Hj _]; subst.
    inversion Hnd as [|? ? Hnin _]; subst.
    assert (i <> j) by (intros ->; apply Hnin; left; reflexivity).
    destruct i as [|[|[|i]]]; destruct j as [|[|[|j]]]; try lia;
      vm_compute; reflexivity. }
  intros p q Hp Hq. rewrite (Hone p Hp), (Hone q Hq). reflexivity.
Qed.

(** C9.  The radio draws its artists with one call of [random.sample] on
    the distinct artist ids of the resolved master tracks, asking for the
    lesser of the configured count and the number of those ids: the artists
    chosen are that many, at distinct positions of the list, hence
    distinct.  For an artist, a pool no larger than the configured song
    count is taken whole; a larger pool is sampled by one call of
    [random.sample] for exactly that count, at distinct positions of the
    pool; the pool is what the filters leave of the top tracks of a chosen
    artist that is not blacklisted.  The samples are as uniform as
    [random.sample] is: when, over equally likely states of the generator,
    every arrangement of positions is as frequent as any other, every
    selection of that many distinct artists is as frequent as any other,
    and so is every selection of that many songs of a pool without
    repeats.  (Counts are not negative.) *)
Theorem radio_sampling (G : Type) (RS : RandomSource G) (L : StrLower)
        (config : Config)
        (tooMuchCounts topPositions : Dict Z) (artistBlacklistNames : list string)
        (masterInfo : Dict TrackInfo) (g : G) (eligibleSongs : list string) :
  let artistMap := fst (artistMapsOf masterInfo) in
  let available := dict_keys artistMap in
  (NoDup available /\
   forall a, In a available <->
             exists tid n an, In (tid, (n, an, Some a)) masterInfo /\ a <> EmptyString) /\
  ((0 <= numberOfRadioArtists config)%Z ->
   let wanted := Nat.min (Z.to_nat (numberOfRadioArtists config))
                         (List.length available) in
   let drawn := sample_positions (List.length available) wanted g in
   chooseArtists config artistMap g = Some (pickAt available (fst drawn), snd drawn) /\
   List.length (pickAt available (fst drawn)) = wanted /\
   NoDup (fst drawn) /\
   NoDup (pickAt available (fst drawn)) /\
   incl (pickAt available (fst drawn)) available) /\
  ((0 <= numberOfRadioArtists config)%Z ->
   let wanted := Nat.min (Z.to_nat (numberOfRadioArtists config))
                         (List.length available) in
   forall states selection1 selection2,
     UniformSample states (List.length available) wanted ->
     List.length selection1 = wanted /\ NoDup selection1 /\
       incl selection1 available ->
     List.length selection2 = wanted /\ NoDup selection2 /\
       incl selection2 available ->
     timesSelected (chooseArtists config artistMap) selection1 states =
     timesSelected (chooseArtists config artistMap) selection2 states) /\
  ((Z.of_nat (List.length eligibleSongs) <= radioArtistSongs config)%Z ->
   selectSongs config eligibleSongs g = Some (eligibleSongs, g)) /\
  ((0 <= radioArtistSongs config < Z.of_nat (List.length eligibleSongs))%Z ->
   let wanted := Z.to_nat (radioArtistSongs config) in
   let drawn := sample_positions (List.length eligibleSongs) wanted g in
   selectSongs config eligibleSongs g =
     Some (pickAt eligibleSongs (fst drawn), snd drawn) /\
   List.length (pickAt eligibleSongs (fst drawn)) = wanted /\
   NoDup (fst drawn) /\
   incl (pickAt eligibleSongs (fst drawn)) eligibleSongs) /\
  ((0 <= radioArtistSongs config < Z.of_nat (List.length eligibleSongs))%Z ->
   NoDup eligibleSongs ->
   let wanted := Z.to_nat (radioArtistSongs config) in
   forall states selection1 selection2,
     UniformSample states (List.length eligibleSongs) wanted ->
     List.length selection1 = wanted /\ NoDup selection1 /\
       incl selection1 eligibleSongs ->
     List.length selection2 = wanted /\ NoDup selection2 /\
       incl selection2 eligibleSongs ->
     timesSelected (selectSongs config eligibleSongs) selection1 states =
     timesSelected (selectSongs config eligibleSongs) selection2 states) /\
  (forall allTopTracks artistNames radioTracks artistId artistName,
      dict_get artistId artistNames = Some artistName ->
      isBlacklisted config artistBlacklistNames artistName = false ->
      radioArtist config tooMuchCounts topPositions artistBlacklistNames
                  allTopTracks artistNames (radioTracks, g) artistId =
      let (pool, g1) :=
          fold_left (eligibleStep config tooMuchCounts topPositions)
                    (dict_get_default artistId [] allTopTracks) ([], g) in
      match selectSongs config pool g1 with
      | Some (selectedSongs, g2) => Some (radioTracks ++ selectedSongs, g2)
      | None => None
      end).
Proof.
  intros artistMap available.
  destruct (artistMapsOf_keys masterInfo) as [Hnd Hkeys].
  fold artistMap in Hnd, Hkeys. fold available in Hnd, Hkeys.
  split; [split; assumption|]. split; [|split; [|split; [|split; [|split]]]].
  - intros Hn wanted drawn.
    assert (Hlen : List.length artistMap = List.length available)
      by (unfold available, dict_keys; rewrite length_map; reflexivity).
    assert (Hwanted : Z.to_nat (Z.min (numberOfRadioArtists config)
                                      (Z.of_nat (List.length artistMap))) = wanted)
      by (subst wanted; rewrite Hlen; lia).
    destruct (@random_sample_ok G RS string available
                (Z.min (numberOfRadioArtists config)
                       (Z.of_nat (List.length artistMap))) g ltac:(lia))
      as (Hrun & Hcount & Hpos & Hdistinct).
    rewrite Hwanted in Hrun, Hcount, Hpos, Hdistinct. fold drawn in Hrun, Hcount, Hpos, Hdistinct.
    split; [exact Hrun|]. split; [exact Hcount|]. split; [exact Hpos|].
    split; [exact (Hdistinct Hnd)|apply pickAt_incl].
  - intros Hn wanted states selection1 selection2 Hunif H1 H2.
    apply (@sample_uniform G RS available wanted states
                           (chooseArtists config artistMap) Hnd);
      [subst wanted; lia| |exact Hunif|exact H1|exact H2].
    intros g0. exact (@chooseArtists_run G RS config artistMap g0 Hn).
  - intros Hall. unfold selectSongs. destruct eligibleSongs as [|x rest]; [reflexivity|].
    replace (_ >=? _)%Z with true; [reflexivity|].
    symmetry. apply Z.geb_le. lia.
  - intros Hfew wanted drawn.
    rewrite selectSongs_nonempty by (intros ->; cbn in Hfew; lia).
    replace (_ >=? _)%Z with false
      by (symmetry; rewrite Z.geb_leb; apply Z.leb_gt; lia).
    replace (Z.min (radioArtistSongs config) (Z.of_nat (List.length eligibleSongs)))
      with (radioArtistSongs config) by lia.
    destruct (@random_sample_ok G RS string eligibleSongs (radioArtistSongs config)
                                g ltac:(lia)) as (Hrun & Hcount & Hpos & _).
    fold wanted in Hrun, Hcount, Hpos. fold drawn in Hrun, Hcount, Hpos.
    split; [exact Hrun|]. split; [exact Hcount|]. split; [exact Hpos|].
    apply pickAt_incl.
  - intros Hfew Hpool wanted states selection1 selection2 Hunif H1 H2.
    apply (@sample_uniform G RS eligibleSongs wanted states
                           (selectSongs config eligibleSongs) Hpool);
      [subst wanted; lia| |exact Hunif|exact H1|exact H2].
    intros g0. exact (@selectSongs_run G RS config eligibleSongs g0 Hfew).
  - intros allTopTracks artistNames radioTracks artistId artistName Hname Hbl.
    unfold radioArtist. rewrite Hname, Hbl. reflexivity.
Qed.

Lemma radio_sampling_witness :
  chooseArtists pairConfig (fst (artistMapsOf trioInfo)) [2; 0]%nat =
    Some (["a3"; "a1"]%string, [2; 0]%nat) /\
  timesSelected (chooseArtists pairConfig (fst (artistMapsOf trioInfo)))
                ["a1"; "a2"]%string pairsOfThree =
  timesSelected (chooseArtists pairConfig (fst (artistMapsOf trioInfo)))
                ["a3"; "a1"]%string pairsOfThree /\
  selectSongs pairConfig ["x"; "y"; "z"]%string [2; 0]%nat =
    Some (["z"; "x"]%string, [2; 0]%nat) /\
  timesSelected (selectSongs pairConfig ["x"; "y"; "z"]%string)
                ["x"; "y"]%string pairsOfThree =
  timesSelected (selectSongs pairConfig ["x"; "y"; "z"]%string)
                ["z"; "y"]%string pairsOfThree /\
  selectSongs pairConfig ["x"; "y"]%string [2; 0]%nat =
    Some (["x"; "y"]%string, [2; 0]%nat).
Proof.
  destruct (@radio_sampling (list nat) ScriptedSample asciiOnlyLower pairConfig
                            [] [] [] trioInfo [2; 0]%nat ["x"; "y"; "z"]%string)
    as (_ & Hchoose & Hartists & _ & Hsample & Hsongs & _).
  destruct (@radio_sampling (list nat) ScriptedSample asciiOnlyLower pairConfig
                            [] [] [] trioInfo [2; 0]%nat ["x"; "y"]%string)
    as (_ & _ & _ & Hall & _).
  assert (Hdistinct : forall a b : string, a <> b -> NoDup [a; b]).
  { intros a b Hab. constructor; [intros [H0|[]]; congruence|].
    constructor; [intros []|constructor]. }
  assert (Hpool : NoDup ["x"; "y"; "z"]%string).
  { constructor; [intros [H0|[H0|[]]]; discriminate H0|].
    apply Hdistinct. discriminate. }
  split; [|split; [|split; [|split]]].
  - destruct Hchoose as (Hrun & _); [vm_compute; discriminate|exact Hrun].
  - apply Hartists.
    + vm_compute. discriminate.
    + exact pairsOfThree_uniform.
    + split; [reflexivity|]. split; [apply Hdistinct; discriminate|].
      intros a [<-|[<-|[]]]; vm_compute; tauto.
    + split; [reflexivity|]. split; [apply Hdistinct; discriminate|].
      intros a [<-|[<-|[]]]; vm_compute; tauto.
  - destruct Hsample as (Hrun & _);
      [vm_compute; split; [discriminate|reflexivity]|exact Hrun].
  - apply Hsongs.
    + vm_compute. split; [discriminate|reflexivity].
    + exact Hpool.
    + exact pairsOfThree_uniform.
    + split; [reflexivity|]. split; [apply Hdistinct; discriminate|].
      intros a [<-|[<-|[]]]; vm_compute; tauto.
    + split; [reflexivity|]. split; [apply Hdistinct; discriminate|].
      intros a [<-|[<-|[]]]; vm_compute; tauto.
  - apply Hall. vm_compute. discriminate.
Defined.

(** ** The dictionary [getTracksInfo] returns *)

Lemma recordTracks_NoDup (results : list (option TrackObj)) (info : Dict TrackInfo) :
  NoDup (dict_keys info) ->
  NoDup (dict_keys (fold_left recordTrack results info)).
Proof.
  revert info. induction results as [|[t|] results IH]; intros info Hnd; cbn.
  - exact Hnd.
  - apply IH. apply dict_set_NoDup. exact Hnd.
  - apply IH. exact Hnd.
Qed.

(** No id stands twice in the result of [getTracksInfo], whatever the
    service answers: it is a dictionary, as the master loop assumes. *)
Lemma getTracksInfo_keys_NoDup (client : Client) (trackIds : list PyValue)
      (c : Executor.Conn) :
  NoDup (dict_keys (fst (getTracksInfo client trackIds c))).
Proof.
  unfold getTracksInfo. destruct (_ =? 0)%nat; [constructor|].
  generalize (range_step (List.length (validTrackIds trackIds)) batchSize).
  intros offsets.
  assert (Hgen : forall (st : Dict TrackInfo * Executor.Conn),
             NoDup (dict_keys (fst st)) ->
             NoDup (dict_keys (fst (fold_left
                                      (fetchBatch client (validTrackIds trackIds))
                                      offsets st)))).
  { induction offsets as [|i offsets IH]; intros [info c0] Hnd; [exact Hnd|].
    cbn [fold_left]. apply IH. unfold fetchBatch.
    destruct (Executor._withRetry _ c0) as [[results|e] c1]; cbn [fst] in *.
    - apply recordTracks_NoDup. exact Hnd.
    - exact Hnd. }
  apply Hgen. constructor.
Qed.

(* ================================================================== *)
(** * Further facts: strings and weights *)
(* ================================================================== *)

Lemma prefix_append (needle hay : string) :
  prefix needle hay = true <-> exists post, hay = (needle ++ post)%string.
Proof.
  revert hay. induction needle as [|a needle IH]; intros hay.
  - split; [intros _; exists hay; reflexivity|].
    intros _. destruct hay; reflexivity.
  - destruct hay as [|b hay]; cbn;
      [split; [discriminate|intros [post Hp]; discriminate]|].
    destruct (Ascii.ascii_dec a b) as [->|Hne].
    + rewrite IH. split; intros [post Hp]; exists post; congruence.
    + split; [discriminate|]. intros [post Hp]. congruence.
Qed.

(** [str_in] is Python's [in] on strings: the needle stands somewhere in
    the hay. *)
Lemma str_in_append (needle hay : string) :
  str_in needle hay = true <->
  exists pre post, hay = (pre ++ needle ++ post)%string.
Proof.
  induction hay as [|a hay IH]; cbn [str_in].
  - rewrite orb_false_r, prefix_append. split.
    + intros [post Hp]. exists EmptyString, post. exact Hp.
    + intros (pre & post & Hp). destruct pre; [|discriminate].
      exists post. exact Hp.
  - rewrite orb_true_iff, prefix_append, IH. split.
    + intros [[post Hp]|(pre & post & Hp)].
      * exists EmptyString, post. exact Hp.
      * exists (String a pre), post. cbn. rewrite Hp. reflexivity.
    + intros (pre & post & Hp). destruct pre as [|b pre].
      * left. exists post. exact Hp.
      * right. exists pre, post. cbn in Hp. congruence.
Qed.

(** X1.  [isTitleExcluded] answers [True] exactly for a non-empty title
    whose form lower-cased by [str.lower()] holds the lower-cased form of
    one of the words as a contiguous part; so it answers [False] for an
    empty title and for an empty word list, and an empty word among the
    words excludes every non-empty title.  On ASCII text the lower-cased
    forms are the texts with the letters [A] to [Z] folded. *)
Theorem isTitleExcluded_substring (L : StrLower) (title : string)
        (words : list string) :
  (isTitleExcluded title words = true <->
   title <> EmptyString /\
   exists word pre post,
     In word words /\ lower title = (pre ++ lower word ++ post)%string) /\
  isTitleExcluded EmptyString words = false /\
  isTitleExcluded title [] = false /\
  (In EmptyString words -> title <> EmptyString ->
   isTitleExcluded title words = true) /\
  (isAscii title = true -> Forall (fun word => isAscii word = true) words ->
   title <> EmptyString ->
   isTitleExcluded title words =
   existsb (fun word => str_in (asciiLower word) (asciiLower title)) words).
Proof.
  assert (Hiff : isTitleExcluded title words = true <->
                 title <> EmptyString /\
                 exists word pre post,
                   In word words /\ lower title = (pre ++ lower word ++ post)%string).
  { unfold isTitleExcluded. destruct words as [|w words].
    - cbn. split; [discriminate|]. intros (_ & word & _ & _ & [] & _).
    - cbn [orb]. destruct (String.eqb_spec title EmptyString) as [->|Hne].
      + split; [discriminate|]. intros [Hne _]. contradiction.
      + rewrite existsb_exists. split.
        * intros (word & Hin & Hs). apply str_in_append in Hs.
          destruct Hs as (pre & post & Hs). split; [exact Hne|].
          exists word, pre, post. split; assumption.
        * intros (_ & word & pre & post & Hin & Hs). exists word.
          split; [exact Hin|]. apply str_in_append. exists pre, post. exact Hs. }
  split; [exact Hiff|]. split; [|split; [|split]].
  - unfold isTitleExcluded. destruct words; reflexivity.
  - reflexivity.
  - intros Hin Hne. apply Hiff. split; [exact Hne|].
    exists EmptyString, EmptyString, (lower title). split; [exact Hin|].
    rewrite (lower_of_ascii EmptyString eq_refl). reflexivity.
  - intros Ht Hw Hne. rewrite isTitleExcluded_contains by exact Hne. clear Hiff.
    induction Hw as [|w words Hw0 _ IH]; [reflexivity|].
    cbn [existsb]. rewrite IH. f_equal. apply lowerContains_ascii; assumption.
Qed.

Lemma isTitleExcluded_substring_witness :
  isTitleExcluded (L := asciiOnlyLower) "Song (Live)" [EmptyString] = true /\
  isTitleExcluded (L := asciiOnlyLower) "Song (Live)" ["LIVE"%string] =
  existsb (fun word => str_in (asciiLower word) (asciiLower "Song (Live)"))
          ["LIVE"%string].
Proof.
  destruct (isTitleExcluded_substring asciiOnlyLower "Song (Live)" [EmptyString])
    as (_ & _ & _ & Hempty & _).
  destruct (isTitleExcluded_substring asciiOnlyLower "Song (Live)" ["LIVE"%string])
    as (_ & _ & _ & _ & Hascii).
  split.
  - apply Hempty; [left; reflexivity|discriminate].
  - apply Hascii; [reflexivity|repeat constructor|discriminate].
Defined.

(** X3.  With a modifier that is not negative the radio weight never rises
    with the overplay count and never falls with the top rank, a track
    without rank weighing at least as much as with any rank; and the
    master weight, clamped, is never above the radio weight of the same
    track.  The rounding of the double arithmetic keeps these orders. *)
Theorem weight_monotone (config : Config) (counts1 counts2 ranks1 ranks2 : Dict Z)
        (artistTooMuch : list string) (allInfo : Dict TrackInfo) (tid : string) :
  let m := weightModifier config in
  0 <= m ->
  ((dict_get_default tid 0%Z counts1 <= dict_get_default tid 0%Z counts2)%Z ->
   radioWeight counts2 ranks1 m tid <= radioWeight counts1 ranks1 m tid) /\
  (forall r1 r2, dict_get tid ranks1 = Some r1 -> dict_get tid ranks2 = Some r2 ->
                 (r1 <= r2)%Z ->
                 radioWeight counts1 ranks1 m tid <= radioWeight counts1 ranks2 m tid) /\
  (dict_get tid ranks2 = None ->
   radioWeight counts1 ranks1 m tid <= radioWeight counts1 ranks2 m tid) /\
  clamp (masterWeight config counts1 ranks1 artistTooMuch allInfo tid) <=
  radioWeight counts1 ranks1 m tid.
Proof.
  intros m Hm.
  assert (Hstage : forall c, fl (deduct 10 (overplayFactor c) m) ==
                             deduct 10 (overplayFactor c) m)
    by (intros c; apply deduct_double, fl_10).
  split; [|split; [|split]].
  - intros Hc. rewrite !radioWeight_float. unfold floatWeight.
    apply clamp_mono.
    pose proof (rankFactor_range (dict_get tid ranks1)) as Hr.
    apply deduct_mono; [lia|exact Hm|apply Hstage|].
    pose proof (overplayFactor_range (dict_get_default tid 0%Z counts1)) as H1.
    apply deduct_mono; [|exact Hm|apply fl_10|apply Qle_refl].
    split; [lia|]. apply overplayFactor_mono. exact Hc.
  - intros r1 r2 H1 H2 Hr. rewrite !radioWeight_float. unfold floatWeight.
    rewrite H1, H2. apply clamp_mono.
    pose proof (rankFactor_range (Some r2)) as Hr2.
    apply deduct_mono; [|exact Hm|apply Hstage|apply Qle_refl].
    split; [lia|]. apply rankFactor_mono. exact Hr.
  - intros Hnone. rewrite !radioWeight_float. unfold floatWeight.
    rewrite Hnone. apply clamp_mono.
    pose proof (rankFactor_range (dict_get tid ranks1)) as Hr1.
    apply deduct_mono; [|exact Hm|apply Hstage|apply Qle_refl].
    change (rankFactor None) with 0%Z. lia.
  - rewrite radioWeight_float, masterWeight_float. unfold floatWeight. fold m.
    apply clamp_mono.
    pose proof (artistFactor_range config counts1 artistTooMuch allInfo tid) as Ha.
    apply deduct_le; [lia|exact Hm|apply stage_double].
Qed.

Lemma weight_monotone_witness :
  radioWeight bandCounts [] 1 "t2" <= radioWeight otherCounts [] 1 "t2".
Proof.
  destruct (@weight_monotone baseConfig otherCounts bandCounts [] [] []
                             bandInfo "t2") as (Hcount & _).
  - vm_compute. discriminate.
  - apply Hcount. vm_compute. discriminate.
Defined.

(* ================================================================== *)
(** * Further facts: the dictionaries [main] builds *)
(* ================================================================== *)

Import Playlists Orchestration.

Lemma dict_get_set (V : Type) (k k' : string) (v : V) (d : Dict V) :
  dict_get k (dict_set k' v d) = if (k =? k')%string then Some v else dict_get k d.
Proof.
  induction d as [|[k0 v0] d IH]; cbn.
  - reflexivity.
  - destruct (String.eqb_spec k' k0) as [->|Hne]; cbn.
    + destruct (k =? k0)%string; reflexivity.
    + rewrite IH. destruct (String.eqb_spec k k0) as [->|Hne0].
      * destruct (String.eqb_spec k0 k') as [<-|_]; [contradiction|reflexivity].
      * reflexivity.
Qed.

Lemma dict_get_keys (V : Type) (k : string) (d : Dict V) :
  In k (dict_keys d) <-> dict_get k d <> None.
Proof.
  induction d as [|[k0 v0] d IH]; cbn.
  - split; [contradiction|intros Hn; apply Hn; reflexivity].
  - destruct (String.eqb_spec k k0) as [->|Hne].
    + split; [discriminate|intros _; left; reflexivity].
    + rewrite <- IH. split; [intros [Heq|Hin]; [congruence|exact Hin]|auto].
Qed.

(** The count a dictionary holds after the counting loop went through
    [tracks], starting from [counts]. *)
Lemma countLoop_get (tracks : list string) (counts : Dict Z) (tid : string) :
  dict_get_default tid 0%Z
    (fold_left
       (fun counts tid => dict_set tid (dict_get_default tid 0%Z counts + 1)%Z counts)
       tracks counts) =
  (dict_get_default tid 0%Z counts + Z.of_nat (count_occ string_dec tracks tid))%Z.
Proof.
  revert counts. induction tracks as [|x tracks IH]; intros counts.
  - cbn. lia.
  - cbn [fold_left]. rewrite IH. cbn [count_occ].
    unfold dict_get_default at 1. rewrite dict_get_set.
    destruct (string_dec x tid) as [->|Hne].
    + rewrite String.eqb_refl. lia.
    + replace (tid =? x)%string with false
        by (symmetry; apply String.eqb_neq; congruence).
      fold (dict_get_default tid 0%Z counts). lia.
Qed.

Lemma countLoop_keys (tracks : list string) (counts : Dict Z) (tid : string) :
  In tid (dict_keys
            (fold_left
               (fun counts tid =>
                  dict_set tid (dict_get_default tid 0%Z counts + 1)%Z counts)
               tracks counts)) <->
  In tid (dict_keys counts) \/ In tid tracks.
Proof.
  revert counts. induction tracks as [|x tracks IH]; intros counts.
  - cbn. tauto.
  - cbn [fold_left]. rewrite IH, dict_set_keys_In. cbn [In].
    split; [intros [[->|H]|H]|intros [H|[->|H]]]; auto.
Qed.

Lemma countLoop_NoDup (tracks : list string) (counts : Dict Z) :
  NoDup (dict_keys counts) ->
  NoDup (dict_keys
           (fold_left
              (fun counts tid =>
                 dict_set tid (dict_get_default tid 0%Z counts + 1)%Z counts)
              tracks counts)).
Proof.
  revert counts. induction tracks as [|x tracks IH]; intros counts Hnd; [exact Hnd|].
  cbn [fold_left]. apply IH. apply dict_set_NoDup. exact Hnd.
Qed.

(** X4.  [tooMuchCounts] holds, for every id, the number of times the id
    stands in the listing of the overplayed playlist: an id that is absent
    from the listing has no entry (and counts 0 through [.get(tid, 0)]),
    an id that is present has one entry, of at least 1. *)
Theorem countTracks_occurrences (tracks : list string) (tid : string) :
  dict_get_default tid 0%Z (countTracks tracks) =
    Z.of_nat (count_occ string_dec tracks tid) /\
  (dict_get tid (countTracks tracks) = None <-> ~ In tid tracks) /\
  (forall n, dict_get tid (countTracks tracks) = Some n ->
             (1 <= n)%Z /\ n = Z.of_nat (count_occ string_dec tracks tid)) /\
  NoDup (dict_keys (countTracks tracks)).
Proof.
  unfold countTracks.
  assert (Hget := countLoop_get tracks [] tid).
  assert (Hkeys := countLoop_keys tracks [] tid).
  change (dict_get_default tid 0%Z []) with 0%Z in Hget.
  rewrite Z.add_0_l in Hget. cbn [dict_keys map In] in Hkeys.
  split; [exact Hget|]. split; [|split].
  - rewrite dict_get_keys in Hkeys. split.
    + intros Hnone Hin. apply (proj2 Hkeys); [right; exact Hin|exact Hnone].
    + intros Hnot. destruct (dict_get tid _) as [n|] eqn:Hd; [|reflexivity].
      exfalso. apply Hnot. destruct (proj1 Hkeys) as [[]|Hin]; [discriminate|exact Hin].
  - intros n Hn. unfold dict_get_default at 1 in Hget. rewrite Hn in Hget. subst n.
    split; [|reflexivity].
    assert (Hin : In tid tracks).
    { destruct (proj1 Hkeys) as [[]|Hin]; [|exact Hin].
      apply dict_get_keys. rewrite Hn. discriminate. }
    apply (count_occ_In string_dec) in Hin. lia.
  - apply countLoop_NoDup. constructor.
Qed.

Lemma find_app_first (A : Type) (f : A -> bool) (l1 l2 : list A) :
  find f (l1 ++ l2) =
  match find f l1 with Some a => Some a | None => find f l2 end.
Proof.
  induction l1 as [|a l1 IH]; cbn; [reflexivity|].
  destruct (f a); [reflexivity|exact IH].
Qed.

(** Looking a key up after a loop of assignments finds the value of the
    last assignment to that key. *)
Lemma assignLoop_get (A V : Type) (key : A -> string) (val : A -> V)
      (l : list A) (d : Dict V) (k : string) :
  dict_get k (fold_left (fun d a => dict_set (key a) (val a) d) l d) =
  match find (fun a => (key a =? k)%string) (rev l) with
  | Some a => Some (val a)
  | None => dict_get k d
  end.
Proof.
  revert d. induction l as [|a l IH]; intros d; [reflexivity|].
  cbn [fold_left rev]. rewrite IH, find_app_first.
  destruct (find _ (rev l)) as [b|]; [reflexivity|]. cbn [find].
  rewrite dict_get_set, String.eqb_sym. destruct (key a =? k)%string; reflexivity.
Qed.

Lemma fold_left_ext (A B : Type) (f g : A -> B -> A) (l : list B) (a : A) :
  (forall x y, f x y = g x y) -> fold_left f l a = fold_left g l a.
Proof.
  intros Hfg. revert a. induction l as [|b l IH]; intros a; [reflexivity|].
  cbn. rewrite Hfg. apply IH.
Qed.

Lemma find_none_all (A : Type) (f : A -> bool) (l : list A) :
  (forall a, In a l -> f a = false) -> find f l = None.
Proof.
  induction l as [|a l IH]; intros Hall; [reflexivity|]. cbn.
  rewrite (Hall a (or_introl eq_refl)). apply IH. intros b Hb. apply Hall.
  right. exact Hb.
Qed.

(** X5.  When several resolved tracks go under one ["title - artist"] key,
    [trackMap] keeps for that key the one that stands last in [allInfo]:
    an entry of [allInfo] after which no entry has the same key is the one
    found under its key. *)
Theorem trackMapOf_last_wins (front back : Dict TrackInfo)
        (tid n a : string) (x : option string) :
  (forall entry, In entry back -> keyOfEntry entry <> trackKey n a) ->
  dict_get (trackKey n a) (trackMapOf (front ++ (tid, (n, a, x)) :: back)) =
  Some (tid, n, a).
Proof.
  intros Hback. unfold trackMapOf.
  rewrite (@fold_left_ext _ _ trackMapStep
             (fun d entry =>
                dict_set (keyOfEntry entry)
                         (let '(t, (n0, a0, _)) := entry in (t, n0, a0)) d))
    by (intros d [t [[n0 a0] x0]]; reflexivity).
  rewrite assignLoop_get, rev_app_distr. cbn [rev]. rewrite <- app_assoc.
  rewrite find_app_first, find_none_all.
  - cbn. rewrite String.eqb_refl. reflexivity.
  - intros entry Hin. apply in_rev in Hin. apply String.eqb_neq.
    exact (Hback entry Hin).
Qed.

Lemma trackMapOf_last_wins_witness :
  dict_get (trackKey "Song" "Band") (trackMapOf twinInfo) =
  Some ("t2", "Song", "Band")%string.
Proof.
  apply (@trackMapOf_last_wins
           [("t1", ("Song", "Band", Some "a1"))]%string
           [("t3", ("Other", "Band", Some "a1"))]%string
           "t2" "Song" "Band" (Some "a1"%string)).
  intros entry [<-|[]]. vm_compute. discriminate.
Defined.

Lemma combine_seq_In (l : list string) (start i : nat) (x : string) :
  In (i, x) (combine (seq start (List.length l)) l) <->
  (start <= i)%nat /\ nth_error l (i - start) = Some x.
Proof.
  revert start. induction l as [|y l IH]; intros start; cbn [List.length seq combine In].
  - split; [contradiction|]. intros [_ Hn]. destruct (i - start)%nat; discriminate.
  - rewrite IH. split.
    + intros [[= <- <-]|[Hle Hn]].
      * split; [lia|]. rewrite Nat.sub_diag. reflexivity.
      * split; [lia|]. replace (i - start)%nat with (S (i - S start)) by lia.
        exact Hn.
    + intros [Hle Hn]. destruct (Nat.eq_dec i start) as [->|Hne].
      * rewrite Nat.sub_diag in Hn. injection Hn as ->. left. reflexivity.
      * right. split; [lia|].
        replace (i - start)%nat with (S (i - S start)) in Hn by lia. exact Hn.
Qed.

(** X6.  [topPositions] gives an id of the top-track listing a 0-based
    position at which the id stands in the listing, so one below the
    length of the listing at most; every id of the listing has a position,
    no other id has one, and when the listing holds no id twice the
    position is the index of the id. *)
Theorem topPositionsOf_ranks (topTrackIds : list string) (tid : string) :
  (forall pos, dict_get tid (topPositionsOf topTrackIds) = Some pos ->
               (0 <= pos < Z.of_nat (List.length topTrackIds))%Z /\
               nth_error topTrackIds (Z.to_nat pos) = Some tid) /\
  (In tid topTrackIds <-> dict_get tid (topPositionsOf topTrackIds) <> None) /\
  (NoDup topTrackIds ->
   forall i, nth_error topTrackIds i = Some tid ->
             dict_get tid (topPositionsOf topTrackIds) = Some (Z.of_nat i)).
Proof.
  unfold topPositionsOf.
  rewrite (@assignLoop_get (nat * string) Z snd (fun p => Z.of_nat (fst p))).
  cbn [dict_get].
  set (pairs := combine (seq 0 (List.length topTrackIds)) topTrackIds).
  assert (Hpos : forall pos,
             match find (fun a => (snd a =? tid)%string) (rev pairs) with
             | Some a => Some (Z.of_nat (fst a))
             | None => None
             end = Some pos ->
             (0 <= pos < Z.of_nat (List.length topTrackIds))%Z /\
             nth_error topTrackIds (Z.to_nat pos) = Some tid).
  { intros pos Hfind.
    destruct (find _ (rev pairs)) as [[i y]|] eqn:Hf; [|discriminate].
    injection Hfind as <-. apply find_some in Hf. destruct Hf as [Hin Heq].
    apply in_rev in Hin. apply String.eqb_eq in Heq. cbn in Heq. subst y.
    apply combine_seq_In in Hin. destruct Hin as [_ Hn]. rewrite Nat.sub_0_r in Hn.
    cbn [fst]. rewrite Nat2Z.id. split; [|exact Hn].
    assert (i < List.length topTrackIds)%nat
      by (apply nth_error_Some; rewrite Hn; discriminate).
    lia. }
  assert (Hhas : forall i, nth_error topTrackIds i = Some tid ->
                           find (fun a => (snd a =? tid)%string) (rev pairs) <> None).
  { intros i Hn Hnone.
    assert (Hin : In (i, tid) (rev pairs)).
    { apply in_rev. rewrite rev_involutive. apply combine_seq_In.
      split; [lia|]. rewrite Nat.sub_0_r. exact Hn. }
    pose proof (find_none _ _ Hnone _ Hin) as Hf. cbn in Hf.
    rewrite String.eqb_refl in Hf. discriminate. }
  split; [exact Hpos|]. split.
  - split.
    + intros Hin. apply In_nth_error in Hin. destruct Hin as [i Hi].
      specialize (Hhas i Hi). destruct (find _ (rev pairs)); [discriminate|].
      contradiction.
    + intros Hsome.
      destruct (find (fun a => (snd a =? tid)%string) (rev pairs)) as [[i y]|] eqn:Hf;
        [|contradiction].
      destruct (Hpos (Z.of_nat i)) as [_ Hn]; [reflexivity|].
      exact (nth_error_In _ _ Hn).
  - intros Hnd i Hi. specialize (Hhas i Hi).
    destruct (find (fun a => (snd a =? tid)%string) (rev pairs)) as [[j y]|] eqn:Hf;
      [|contradiction].
    destruct (Hpos (Z.of_nat j)) as [Hj Hn]; [reflexivity|].
    rewrite Nat2Z.id in Hn. cbn [fst]. do 2 f_equal.
    apply (proj1 (NoDup_nth_error topTrackIds) Hnd).
    + lia.
    + rewrite Hn, Hi. reflexivity.
Qed.

Lemma topPositionsOf_ranks_witness :
  dict_get "b" (topPositionsOf ["a"; "b"; "c"]%string) = Some 1%Z.
Proof.
  destruct (topPositionsOf_ranks ["a"; "b"; "c"]%string "b") as (_ & _ & Hidx).
  apply (Hidx ltac:(repeat constructor; cbn; intuition discriminate) 1%nat).
  reflexivity.
Defined.

(* ------------------------------------------------------------------ *)
(** ** What a logical call costs *)
(* ------------------------------------------------------------------ *)

Lemma sleptSeconds_app (l1 l2 : list Event) :
  sleptSeconds (l1 ++ l2) = (sleptSeconds l1 + sleptSeconds l2)%N.
Proof.
  induction l1 as [|[k|s] l1 IH]; cbn; [reflexivity|exact IH|].
  change (fold_right _ 0%N (l1 ++ l2)) with (sleptSeconds (l1 ++ l2)).
  change (fold_right _ 0%N l1) with (sleptSeconds l1).
  rewrite IH. lia.
Qed.

Lemma delayOf_bound (R : Type) (func : RemoteOp R) (B : N) (k : nat)
      (e : PyException) :
  (forall k a msg, func k = Raises (SpotifyException 429 (Some a) msg) ->
                   (a <= B)%N) ->
  func k = Raises e ->
  (sleptSeconds (map Sleep (delayOf e)) <= N.max 10 B)%N.
Proof.
  intros Hb He. destruct e as [msg|hs ra msg|msg]; cbn [delayOf map sleptSeconds fold_right];
    try lia.
  destruct (hs =? 429)%Z eqn:H429.
  - apply Z.eqb_eq in H429. subst hs. destruct ra as [a|]; cbn.
    + specialize (Hb k a msg He). lia.
    + lia.
  - destruct (hs =? 503)%Z; [cbn; lia|].
    destruct (hs >=? 500)%Z; cbn; lia.
Qed.

Lemma eventsOf_slept (R : Type) (func : RemoteOp R) (B : N) (from n : nat) :
  (forall k a msg, func k = Raises (SpotifyException 429 (Some a) msg) ->
                   (a <= B)%N) ->
  (sleptSeconds (eventsOf func from n) <= N.of_nat n * N.max 10 B)%N.
Proof.
  intros Hb. revert from. induction n as [|n IH]; intros from; [cbn; lia|].
  cbn [eventsOf]. rewrite sleptSeconds_app. specialize (IH (S from)).
  assert (sleptSeconds (attemptEvents func from) <= N.max 10 B)%N.
  { unfold attemptEvents. destruct (func from) as [r|e] eqn:He.
    - cbn. lia.
    - change (sleptSeconds (Call from :: map Sleep (delayOf e)))
        with (sleptSeconds (map Sleep (delayOf e))).
      exact (delayOf_bound func from Hb He). }
  rewrite Nat2N.inj_succ. lia.
Qed.

(** X7.  A logical call sends at least one and at most five invocations
    to the service, and when the service never asks for a pause longer
    than [B] seconds in a [Retry-After] header, the call sleeps
    [5 * max 10 B] seconds at most, whatever the failures are. *)
Theorem withRetry_budget (R : Type) (func : RemoteOp R) (c : Conn) (B : N) :
  (forall k a msg, func k = Raises (SpotifyException 429 (Some a) msg) ->
                   (a <= B)%N) ->
  let c' := snd (_withRetry func c) in
  (invoked c + 1 <= invoked c' <= invoked c + 5)%nat /\
  (sleptSeconds (log c') <= sleptSeconds (log c) + 5 * N.max 10 B)%N.
Proof.
  intros Hb c'. subst c'. pose proof (_withRetry_RunsAs func c) as Hrun.
  destruct (_withRetry func c) as [o c']. cbn [snd].
  destruct Hrun as (m & Hm & Hinv & Hlog & Ho).
  assert (1 <= m)%nat by (destruct o; [tauto|lia]).
  split; [lia|]. rewrite Hlog, sleptSeconds_app.
  pose proof (eventsOf_slept func (invoked c) m Hb). nia.
Qed.

Lemma withRetry_budget_witness :
  (1 <= invoked (snd (_withRetry limitedThenDown freshConn)) <= 5)%nat /\
  (sleptSeconds (log (snd (_withRetry limitedThenDown freshConn))) <= 150)%N.
Proof.
  destruct (@withRetry_budget unit limitedThenDown freshConn 30%N) as [Hi Hs].
  - intros k a msg Hk. unfold limitedThenDown in Hk.
    destruct (k =? 0)%nat; [injection Hk as <- _; lia|].
    destruct (k =? 1)%nat; discriminate.
  - split; [exact Hi|exact Hs].
Defined.

(* ------------------------------------------------------------------ *)
(** ** Playlists by name *)
(* ------------------------------------------------------------------ *)

Lemma findPlaylist_app (name : string) (l1 l2 : list PlaylistObj) :
  findPlaylist name (l1 ++ l2) =
  match findPlaylist name l1 with
  | Some pid => Some pid
  | None => findPlaylist name l2
  end.
Proof.
  unfold findPlaylist. rewrite find_app_first.
  destruct (find _ l1); reflexivity.
Qed.

Section ReliableListing.
Variables (listing : list PlaylistObj) (top : list TrackObj) (newId : string).
Let ops := reliableMore listing top newId.

(** From the page at [offset] on, the lookup stops at the first page that
    holds the name, and at the last page otherwise. *)
Lemma playlistIdPages_reliable (fuel offset : nat) (name : string) (c : Conn) :
  ((List.length listing - offset - 1) / 50 < fuel)%nat ->
  exists k,
    (k <= (List.length listing - offset - 1) / 50)%nat /\
    playlistIdPages fuel ops name (Some (playlistPageOf listing 50 offset)) c =
    Some (Returns (findPlaylist name (skipn offset listing)), afterRequests k c).
Proof.
  revert offset c. induction fuel as [|fuel IH]; intros offset c Hfuel; [lia|].
  cbn [playlistIdPages playlistPageOf playlists playlists_next].
  assert (Hsplit : findPlaylist name (skipn offset listing) =
                   match findPlaylist name (firstn 50 (skipn offset listing)) with
                   | Some pid => Some pid
                   | None => findPlaylist name (skipn 50 (skipn offset listing))
                   end)
    by (rewrite <- findPlaylist_app, firstn_skipn; reflexivity).
  rewrite Hsplit.
  destruct (findPlaylist name (firstn 50 (skipn offset listing))) as [pid|] eqn:Hpid.
  { exists 0%nat. rewrite afterRequests_0. split; [lia|reflexivity]. }
  destruct (offset + 50 <? List.length listing)%nat eqn:Hmore.
  - apply Nat.ltb_lt in Hmore.
    assert (Hdiv : ((List.length listing - offset - 1) / 50 =
                    S ((List.length listing - (offset + 50) - 1) / 50))%nat).
    { rewrite (@div_step (List.length listing - offset - 1) 50) by lia.
      do 2 f_equal. lia. }
    rewrite Hdiv in *.
    rewrite (@_withRetry_first_success _ _ c
               (Some (playlistPageOf listing 50 (offset + 50))));
      [|unfold ops, reliableMore; cbn [next_playlists playlists_next playlistPageOf];
        apply Nat.ltb_lt in Hmore; rewrite Hmore; reflexivity].
    destruct (IH (offset + 50)%nat (afterRequests 1 c)) as (k & Hk & Hrun); [lia|].
    exists (1 + k)%nat. rewrite Hrun, afterRequests_add, skipn_skipn.
    split; [exact (le_n_S _ _ Hk)|]. rewrite (Nat.add_comm 50 offset). reflexivity.
  - apply Nat.ltb_ge in Hmore. exists 0%nat. rewrite afterRequests_0.
    split; [lia|].
    rewrite (skipn_all2 (n := 50) (skipn offset listing))
      by (rewrite length_skipn; lia).
    reflexivity.
Qed.

Lemma getPlaylistIdByName_reliable (fuel : nat) (name : string) (c : Conn) :
  ((List.length listing - 1) / 50 < fuel)%nat ->
  exists k,
    (1 <= k <= 1 + (List.length listing - 1) / 50)%nat /\
    getPlaylistIdByName fuel ops name c =
    Some (Returns (findPlaylist name listing), afterRequests k c).
Proof.
  intros Hfuel. unfold getPlaylistIdByName.
  rewrite (@_withRetry_first_success _ _ c (Some (playlistPageOf listing 50 0)))
    by reflexivity.
  destruct (@playlistIdPages_reliable fuel 0 name (afterRequests 1 c))
    as (k & Hk & Hrun); [rewrite Nat.sub_0_r; exact Hfuel|].
  rewrite Nat.sub_0_r in Hk. exists (1 + k)%nat.
  rewrite Hrun, afterRequests_add. split; [lia|reflexivity].
Qed.

End ReliableListing.

(** X8.  Against a service that answers every request, the lookup of a
    playlist by name returns the id of the first playlist of the user's
    listing whose name is the requested one, character for character, and
    [None] when the listing holds none; it takes one request at least and
    one request per page of fifty at most. *)
Theorem getPlaylistIdByName_first_match (listing : list PlaylistObj)
        (top : list TrackObj) (newId name : string) (fuel : nat) (c : Conn) :
  (List.length listing / 50 < fuel)%nat ->
  exists k,
    (1 <= k <= Nat.max 1 ((List.length listing + 49) / 50))%nat /\
    getPlaylistIdByName fuel (reliableMore listing top newId) name c =
    Some (Returns (findPlaylist name listing), afterRequests k c).
Proof.
  intros Hfuel.
  assert (Hpages : (1 + (List.length listing - 1) / 50 =
                    Nat.max 1 ((List.length listing + 49) / 50))%nat).
  { destruct (List.length listing) as [|n]; [reflexivity|].
    replace (S n + 49)%nat with (n + 1 * 50)%nat by lia.
    rewrite Nat.div_add by lia. replace (S n - 1)%nat with n by lia. lia. }
  rewrite <- Hpages. apply getPlaylistIdByName_reliable.
  assert ((List.length listing - 1) / 50 <= List.length listing / 50)%nat
    by (apply Nat.Div0.div_le_mono; lia).
  lia.
Qed.

Lemma getPlaylistIdByName_first_match_witness :
  exists k,
    (1 <= k <= 1)%nat /\
    getPlaylistIdByName 1 (reliableMore threePlaylists [] "new") "Road" freshConn =
    Some (Returns (Some "p1"%string), afterRequests k freshConn).
Proof.
  apply (@getPlaylistIdByName_first_match threePlaylists [] "new" "Road" 1 freshConn).
  vm_compute. lia.
Defined.

(** X9.  Against a service that answers every request, [getOrCreatePlaylist]
    returns the id of the first playlist of that name when the listing has
    one with an id that is not empty, and sends nothing beyond the requests
    of the lookup; otherwise it sends one request more, the creation, and
    returns the id of the playlist the service created. *)
Theorem getOrCreatePlaylist_existing_or_new (listing : list PlaylistObj)
        (top : list TrackObj) (newId name description : string)
        (fuel : nat) (c : Conn) :
  (List.length listing / 50 < fuel)%nat ->
  exists k,
    (1 <= k <= Nat.max 1 ((List.length listing + 49) / 50))%nat /\
    getOrCreatePlaylist fuel (reliableMore listing top newId) name description c =
    Some (if noPlaylistId (findPlaylist name listing)
          then (Returns newId, afterRequests (k + 1) c)
          else (Returns (match findPlaylist name listing with
                         | Some pid => pid
                         | None => EmptyString
                         end), afterRequests k c)).
Proof.
  intros Hfuel.
  destruct (@getPlaylistIdByName_first_match listing top newId name fuel c Hfuel)
    as (k & Hk & Hrun).
  exists k. split; [exact Hk|]. unfold getOrCreatePlaylist. rewrite Hrun.
  assert (Hnew : createPlaylist (reliableMore listing top newId) name description
                                (afterRequests k c) =
                 (Returns newId, afterRequests (k + 1) c)).
  { unfold createPlaylist.
    rewrite (@_withRetry_first_success _ _ (afterRequests k c)
               (mkPlaylistObj name newId)) by reflexivity.
    rewrite afterRequests_add. reflexivity. }
  unfold noPlaylistId. destruct (findPlaylist name listing) as [pid|].
  - destruct (pid =? EmptyString)%string; [rewrite Hnew|]; reflexivity.
  - rewrite Hnew. reflexivity.
Qed.

Lemma getOrCreatePlaylist_existing_or_new_witness :
  exists k,
    (1 <= k <= 1)%nat /\
    getOrCreatePlaylist 1 (reliableMore threePlaylists [] "new") "[RX] Radio"
                        "generated" freshConn =
    Some (Returns "new"%string, afterRequests (k + 1) freshConn).
Proof.
  apply (@getOrCreatePlaylist_existing_or_new threePlaylists [] "new" "[RX] Radio"
                                               "generated" 1 freshConn).
  vm_compute. lia.
Defined.

(* ------------------------------------------------------------------ *)
(** ** The user's top tracks *)
(* ------------------------------------------------------------------ *)

Lemma firstn_add_skipn (A : Type) (n m : nat) (l : list A) :
  firstn (n + m) l = firstn n l ++ firstn m (skipn n l).
Proof.
  revert l. induction n as [|n IH]; intros l; [reflexivity|].
  destruct l as [|a l]; cbn [Nat.add firstn skipn app].
  - rewrite firstn_nil. reflexivity.
  - rewrite IH. reflexivity.
Qed.

Section TopTracksLength.
Variables (ops : ClientMore) (maxTracks : Z) (timeRange : string).
Hypothesis honours_limit :
  forall limit offset k its,
    (0 < limit)%Z ->
    current_user_top_tracks ops limit offset timeRange k = Returns its ->
    (Z.of_nat (List.length its) <= limit)%Z.

Lemma withRetry_top_tracks_limit (limit offset : Z) (c c1 : Conn)
      (its : list TrackObj) :
  (0 < limit)%Z ->
  _withRetry (current_user_top_tracks ops limit offset timeRange) c = (Returns its, c1) ->
  (Z.of_nat (List.length its) <= limit)%Z.
Proof.
  intros Hpos Hrun.
  pose proof (_withRetry_RunsAs (current_user_top_tracks ops limit offset timeRange) c)
    as Hras.
  rewrite Hrun in Hras. destruct Hras as (m & _ & _ & _ & _ & Hr & _).
  exact (honours_limit _ _ Hpos Hr).
Qed.

Lemma topTracksLoop_length (q s : nat) (allIds : list string) (c : Conn)
      (ids : list string) :
  (Z.of_nat (List.length allIds) <= Z.min (Z.of_nat (s * 50)) (Z.max 0 maxTracks))%Z ->
  (forall j, (s <= j < s + q)%nat -> (Z.of_nat (j * 50) < maxTracks)%Z) ->
  fst (topTracksLoop ops maxTracks timeRange
                     (map (fun j => j * 50)%nat (seq s q)) allIds c) = Returns ids ->
  (Z.of_nat (List.length ids) <= Z.max 0 maxTracks)%Z.
Proof.
  revert s allIds c. induction q as [|q IH]; intros s allIds c Hacc Hoff Hrun.
  - cbn in Hrun. injection Hrun as <-. lia.
  - cbn [seq map topTracksLoop] in Hrun.
    assert (Hs : (Z.of_nat (s * 50) < maxTracks)%Z) by (apply Hoff; lia).
    destruct (_withRetry _ c) as [[its|e] c1] eqn:Hcall; [|discriminate].
    apply withRetry_top_tracks_limit in Hcall; [|lia].
    destruct its as [|t its]; [cbn in Hrun; injection Hrun as <-; lia|].
    set (page := t :: its) in *.
    destruct (Z.of_nat (List.length page) <? _)%Z eqn:Hshort.
    + cbn [fst] in Hrun. injection Hrun as <-. apply Z.ltb_lt in Hshort.
      subst page. rewrite length_app. cbn [List.length] in *.
      rewrite length_map. lia.
    + apply Z.ltb_ge in Hshort. apply (IH (S s)) in Hrun; [exact Hrun| |].
      * subst page. rewrite length_app, length_map. cbn [List.length] in *. lia.
      * intros j Hj. apply Hoff. lia.
Qed.

End TopTracksLength.

(** X10.  When the service never returns more top tracks than the limit
    the request asks for, [getUserTopTracks] returns [maxTracks] ids at
    most, so every position [topPositions] records is below [maxTracks]:
    with the 200 tracks [main] asks for, a track that has a position
    always falls in one of the three rank bands of the weights. *)
Theorem topPositions_below_maxTracks (ops : ClientMore) (maxTracks : Z)
        (timeRange : string) (c : Conn) (topTrackIds : list string) :
  (forall limit offset k its,
      (0 < limit)%Z ->
      current_user_top_tracks ops limit offset timeRange k = Returns its ->
      (Z.of_nat (List.length its) <= limit)%Z) ->
  fst (getUserTopTracks ops maxTracks timeRange c) = Returns topTrackIds ->
  (Z.of_nat (List.length topTrackIds) <= Z.max 0 maxTracks)%Z /\
  forall tid pos,
    dict_get tid (topPositionsOf topTrackIds) = Some pos ->
    (0 <= pos < maxTracks)%Z.
Proof.
  intros Hlimit Hrun.
  assert (Hlen : (Z.of_nat (List.length topTrackIds) <= Z.max 0 maxTracks)%Z).
  { unfold getUserTopTracks, range_step in Hrun.
    refine (@topTracksLoop_length ops maxTracks timeRange Hlimit _ 0 [] c
                                  topTrackIds _ _ Hrun); [cbn; lia|].
    intros j Hj.
    assert (j * batchSize < Z.to_nat maxTracks)%nat
      by (apply range_step_inside; unfold batchSize; lia).
    unfold batchSize in *. lia. }
  split; [exact Hlen|]. intros tid pos Hpos.
  destruct (topPositionsOf_ranks topTrackIds tid) as (Hrank & _).
  destruct (Hrank pos Hpos) as [Hb _]. lia.
Qed.

Lemma topPositions_below_maxTracks_witness :
  (Z.of_nat (List.length ["t1"; "t2"]%string) <= Z.max 0 200)%Z /\
  (0 <= 1 < 200)%Z.
Proof.
  destruct (@topPositions_below_maxTracks
              (reliableMore [] [topTrack "t1"; topTrack "t2"] "new")
              200 "medium_term" freshConn ["t1"; "t2"]%string) as [Hlen Hpos].
  - intros limit offset k its Hpos Hret. cbn in Hret. injection Hret as <-.
    rewrite length_firstn. lia.
  - vm_compute. reflexivity.
  - split; [exact Hlen|]. apply (Hpos "t2"%string 1%Z). reflexivity.
Defined.

Section ReliableTopTracks.
Variables (listing : list PlaylistObj) (top : list TrackObj) (newId : string).
Variables (maxTracks : Z) (timeRange : string).
Let ops := reliableMore listing top newId.
Let M := Z.to_nat maxTracks.

Lemma topTracksLoop_reliable (q s : nat) (c : Conn) :
  (Nat.min (s * 50) M <= List.length top)%nat ->
  (forall j, (s <= j < s + q)%nat -> (j * 50 < M)%nat) ->
  (M <= (s + q) * 50)%nat ->
  exists k,
    (k <= q)%nat /\
    topTracksLoop ops maxTracks timeRange (map (fun j => j * 50)%nat (seq s q))
                  (map track_id (firstn (Nat.min (s * 50) M) top)) c =
    (Returns (map track_id (firstn M top)), afterRequests k c).
Proof.
  revert s c. induction q as [|q IH]; intros s c Htop Hoff Hcover.
  - exists 0%nat. rewrite afterRequests_0. cbn [seq map topTracksLoop].
    replace (Nat.min (s * 50) M) with M by lia. split; [lia|reflexivity].
  - cbn [seq map topTracksLoop].
    assert (Hs : (s * 50 < M)%nat) by (apply Hoff; lia).
    replace (Nat.min (s * 50) M) with (s * 50)%nat in * by lia.
    set (lim := Nat.min 50 (M - s * 50)).
    assert (Hlim : Z.to_nat (Z.min 50 (maxTracks - Z.of_nat (s * 50))) = lim)
      by (unfold lim, M; lia).
    assert (HlimZ : Z.min 50 (maxTracks - Z.of_nat (s * 50)) = Z.of_nat lim)
      by (unfold lim, M in *; lia).
    assert (Hpos : (1 <= lim)%nat) by (unfold lim; lia).
    rewrite (@_withRetry_first_success _ _ c (firstn lim (skipn (s * 50) top)))
      by (unfold ops, reliableMore; cbn [current_user_top_tracks];
          rewrite Hlim, Nat2Z.id; reflexivity).
    rewrite HlimZ.
    assert (Hlen : List.length (firstn lim (skipn (s * 50) top)) =
                   Nat.min lim (List.length top - s * 50))
      by (rewrite length_firstn, length_skipn; reflexivity).
    assert (Hjoin : map track_id (firstn (s * 50) top) ++
                    map track_id (firstn lim (skipn (s * 50) top)) =
                    map track_id (firstn (s * 50 + lim) top))
      by (rewrite <- map_app, <- firstn_add_skipn; reflexivity).
    destruct (firstn lim (skipn (s * 50) top)) as [|t its] eqn:Hits.
    + exists 1%nat. split; [lia|]. cbn [List.length] in Hlen.
      rewrite !firstn_all2 by lia. reflexivity.
    + rewrite Hjoin.
      destruct (Z.of_nat (List.length (t :: its)) <? Z.of_nat lim)%Z eqn:Hshort.
      * apply Z.ltb_lt in Hshort. exists 1%nat. split; [lia|].
        rewrite !firstn_all2 by lia. reflexivity.
      * apply Z.ltb_ge in Hshort.
        replace (s * 50 + lim)%nat with (Nat.min (S s * 50) M) by (unfold lim; lia).
        destruct (IH (S s) (afterRequests 1 c)) as (k & Hk & Hrun).
        -- unfold lim in *. lia.
        -- intros j Hj. apply Hoff. lia.
        -- lia.
        -- exists (1 + k)%nat. rewrite Hrun, afterRequests_add.
           split; [lia|reflexivity].
Qed.

End ReliableTopTracks.

(** X11.  Against a service that answers every request and holds the
    user's top tracks in rank order, [getUserTopTracks] returns the ids of
    the first [maxTracks] of them, in rank order, or of all of them when
    there are fewer, and nothing when [maxTracks] is zero or negative; it
    sends one request per fifty tracks asked for at most. *)
Theorem getUserTopTracks_first_tracks (listing : list PlaylistObj)
        (top : list TrackObj) (newId : string) (maxTracks : Z)
        (timeRange : string) (c : Conn) :
  exists k,
    (k <= (Z.to_nat maxTracks + 49) / 50)%nat /\
    getUserTopTracks (reliableMore listing top newId) maxTracks timeRange c =
    (Returns (map track_id (firstn (Z.to_nat maxTracks) top)), afterRequests k c).
Proof.
  unfold getUserTopTracks, range_step.
  change (Z.to_nat maxTracks + 50 - 1)%nat with (Z.to_nat maxTracks + batchSize - 1)%nat.
  change 50%nat with batchSize at 1 2.
  destruct (@topTracksLoop_reliable listing top newId maxTracks timeRange
              ((Z.to_nat maxTracks + batchSize - 1) / batchSize) 0 c)
    as (k & Hk & Hrun).
  - cbn. lia.
  - intros j Hj. apply (@range_step_inside (Z.to_nat maxTracks) j). lia.
  - apply range_step_covers.
  - exists k. split.
    + replace (Z.to_nat maxTracks + 49)%nat with (Z.to_nat maxTracks + batchSize - 1)%nat
        by (unfold batchSize; lia).
      exact Hk.
    + exact Hrun.
Qed.

(* ------------------------------------------------------------------ *)
(** ** Writing a playlist *)
(* ------------------------------------------------------------------ *)

Lemma chunks_concat (A : Type) (step q : nat) (l : list A) :
  List.concat (map (fun j => firstn step (skipn (j * step) l)) (seq 0 q)) =
  firstn (q * step) l.
Proof.
  induction q as [|q IH]; [reflexivity|].
  rewrite seq_S, map_app, concat_app, IH. cbn [Nat.add map List.concat].
  rewrite app_nil_r, <- firstn_add_skipn. f_equal. lia.
Qed.

Lemma range_step_ceil (n step : nat) :
  (0 < step)%nat -> (n <= (n + step - 1) / step * step)%nat.
Proof.
  intros Hstep.
  pose proof (Nat.div_mod_eq (n + step - 1) step) as Hdm.
  pose proof (Nat.mod_upper_bound (n + step - 1) step ltac:(lia)) as Hlt.
  nia.
Qed.

Lemma range_step_below (n step j : nat) :
  (0 < step)%nat -> (j < (n + step - 1) / step)%nat -> (j * step < n)%nat.
Proof.
  intros Hstep Hj.
  pose proof (Nat.div_mod_eq (n + step - 1) step) as Hdm.
  pose proof (Nat.mod_upper_bound (n + step - 1) step ltac:(lia)) as Hlt.
  nia.
Qed.

Lemma contentsAfter_app (pid : string) (contents : list string)
      (l1 l2 : list Request) :
  contentsAfter pid contents (l1 ++ l2) =
  contentsAfter pid (contentsAfter pid contents l1) l2.
Proof. unfold contentsAfter. apply fold_left_app. Qed.

Lemma contentsAfter_adds (pid : string) (batches : list (list string))
      (contents : list string) :
  contentsAfter pid contents (map (AddItems pid) batches) =
  contents ++ List.concat batches.
Proof.
  unfold contentsAfter. revert contents.
  induction batches as [|b batches IH]; intros contents; cbn [map fold_left List.concat].
  - rewrite app_nil_r. reflexivity.
  - cbn [applyRequest]. rewrite String.eqb_refl, IH, app_assoc. reflexivity.
Qed.

(** The batch loop accepts the batches in order up to the first one whose
    call raises. *)
Lemma addBatches_accepted (ops : ClientMore) (pid : string) (trackIds : list string)
      (offsets : list nat) (c : Conn) (accepted : list Request) :
  exists k,
    snd (snd (addBatches ops pid trackIds offsets (c, accepted))) =
    accepted ++ map (fun i => AddItems pid (firstn 100 (skipn i trackIds)))
                    (firstn k offsets) /\
    match fst (addBatches ops pid trackIds offsets (c, accepted)) with
    | Returns _ => k = List.length offsets
    | Raises _ => (k < List.length offsets)%nat
    end.
Proof.
  revert c accepted. induction offsets as [|i offsets IH]; intros c accepted.
  - exists 0%nat. cbn. rewrite app_nil_r. split; reflexivity.
  - cbn [addBatches].
    destruct (_withRetry _ c) as [[r|e] c1].
    + destruct (IH c1 (accepted ++ [AddItems pid (firstn 100 (skipn i trackIds))]))
        as (k & Hacc & Hout).
      exists (S k). rewrite Hacc, <- app_assoc. cbn [firstn map app List.length].
      split; [reflexivity|].
      destruct (fst (addBatches _ _ _ _ _)); lia.
    + exists 0%nat. cbn. rewrite app_nil_r. split; [reflexivity|lia].
Qed.

Lemma firstn_seq_min (k start len : nat) :
  firstn k (seq start len) = seq start (Nat.min k len).
Proof.
  revert start len. induction k as [|k IH]; intros start [|len]; cbn; try reflexivity.
  rewrite IH. reflexivity.
Qed.

Lemma addTracksToPlaylist_accepted (ops : ClientMore) (pid : string)
      (trackIds contents : list string) (c : Conn) (accepted : list Request) :
  exists k,
    (k <= (List.length trackIds + 99) / 100)%nat /\
    snd (snd (addTracksToPlaylist ops pid trackIds (c, accepted))) =
      accepted ++ map (fun j => AddItems pid (firstn 100 (skipn (j * 100) trackIds)))
                      (seq 0 k) /\
    contentsAfter pid contents
                  (snd (snd (addTracksToPlaylist ops pid trackIds (c, accepted)))) =
      contentsAfter pid contents accepted ++ firstn (k * 100) trackIds /\
    match fst (addTracksToPlaylist ops pid trackIds (c, accepted)) with
    | Returns _ => firstn (k * 100) trackIds = trackIds
    | Raises _ => (k * 100 < List.length trackIds)%nat
    end.
Proof.
  unfold addTracksToPlaylist, range_step.
  set (q := ((List.length trackIds + 100 - 1) / 100)%nat).
  assert (Hq : ((List.length trackIds + 99) / 100 = q)%nat)
    by (unfold q; f_equal; lia).
  rewrite Hq.
  destruct (addBatches_accepted ops pid trackIds
              (map (fun j => (j * 100)%nat) (seq 0 q)) c accepted)
    as (k & Hacc & Hout).
  rewrite length_map, length_seq in Hout.
  assert (Hk : (k <= q)%nat) by (destruct (fst (addBatches _ _ _ _ _)); lia).
  rewrite firstn_map, firstn_seq_min, map_map in Hacc.
  replace (Nat.min k q) with k in Hacc by lia.
  exists k. split; [exact Hk|]. split; [exact Hacc|]. split.
  - rewrite Hacc, contentsAfter_app.
    rewrite <- (map_map (fun j => firstn 100 (skipn (j * 100) trackIds))
                        (AddItems pid)).
    rewrite contentsAfter_adds, chunks_concat. reflexivity.
  - destruct (fst (addBatches _ _ _ _ _)).
    + subst k. apply firstn_all2. apply range_step_ceil. lia.
    + apply range_step_below; [lia|exact Hout].
Qed.

(** X12.  Whatever the service does, [addTracksToPlaylist] sends the
    tracks in order, in batches of 100 (the last one may be shorter).  When
    it returns, the playlist has gained the whole list, in order; when it
    raises, the playlist has gained the first [k] batches only, for a [k]
    that leaves tracks out: no batch after the one that failed reaches the
    playlist.  With an empty list it returns at once and sends nothing. *)
Theorem addTracksToPlaylist_delivery (ops : ClientMore) (pid : string)
        (trackIds contents : list string) (c : Conn) (accepted : list Request) :
  let res := addTracksToPlaylist ops pid trackIds (c, accepted) in
  (trackIds = [] -> res = (Returns tt, (c, accepted))) /\
  exists k,
    (k <= (List.length trackIds + 99) / 100)%nat /\
    snd (snd res) =
      accepted ++ map (fun j => AddItems pid (firstn 100 (skipn (j * 100) trackIds)))
                      (seq 0 k) /\
    contentsAfter pid contents (snd (snd res)) =
      contentsAfter pid contents accepted ++ firstn (k * 100) trackIds /\
    match fst res with
    | Returns _ => firstn (k * 100) trackIds = trackIds
    | Raises _ => (k * 100 < List.length trackIds)%nat
    end.
Proof.
  intros res. split.
  - intros ->. reflexivity.
  - apply addTracksToPlaylist_accepted.
Qed.

Lemma addTracksToPlaylist_delivery_witness :
  addTracksToPlaylist (refusingAdd "b") "pl" [] (freshConn, []) =
  (Returns tt, (freshConn, [])).
Proof.
  destruct (addTracksToPlaylist_delivery (refusingAdd "b") "pl" [] []
                                         freshConn []) as [Hempty _].
  apply Hempty. reflexivity.
Defined.

Lemma clear_then_add (ops : ClientMore) (pid : string)
        (trackIds contents : list string) (w w1 : Wire) :
  clearPlaylist ops pid w = (Returns tt, w1) ->
  let res := addTracksToPlaylist ops pid trackIds w1 in
  exists k,
    contentsAfter pid contents (snd (snd res)) = firstn (k * 100) trackIds /\
    match fst res with
    | Returns _ => firstn (k * 100) trackIds = trackIds
    | Raises _ => (k * 100 < List.length trackIds)%nat
    end.
Proof.
  intros Hclear res. destruct w as [c accepted]. destruct w1 as [c1 accepted1].
  unfold clearPlaylist in Hclear.
  destruct (_withRetry _ c) as [[r|e] c'] in Hclear; [|discriminate].
  injection Hclear as -> <-.
  destruct (@addTracksToPlaylist_accepted ops pid trackIds contents c1
              (accepted ++ [ReplaceItems pid []])) as (k & _ & _ & Hcont & Hout).
  exists k. split; [|exact Hout]. subst res. rewrite Hcont, contentsAfter_app.
  cbn [contentsAfter fold_left applyRequest]. rewrite String.eqb_refl. reflexivity.
Qed.

(** X13.  Rewriting a playlist, as [generateRadio] and [main] do it with
    [clearPlaylist] followed by [addTracksToPlaylist], is not atomic.  When
    the clearing returned and the addition returns, the playlist holds
    exactly the new list, whatever it held before; when the addition
    raises, the playlist is left with the first [k] batches of 100 of the
    new list, tracks missing. *)
Theorem rewrite_playlist_not_atomic (ops : ClientMore) (pid : string)
        (trackIds contents : list string) (w w1 : Wire) :
  clearPlaylist ops pid w = (Returns tt, w1) ->
  let res := addTracksToPlaylist ops pid trackIds w1 in
  exists k,
    contentsAfter pid contents (snd (snd res)) = firstn (k * 100) trackIds /\
    match fst res with
    | Returns _ => firstn (k * 100) trackIds = trackIds
    | Raises _ => (k * 100 < List.length trackIds)%nat
    end.
Proof. apply clear_then_add. Qed.

Lemma rewrite_playlist_not_atomic_witness :
  exists k,
    contentsAfter "pl" ["old"%string]
      (snd (snd (addTracksToPlaylist (refusingAdd "b") "pl" ["a"; "b"]%string
                   (snd (clearPlaylist (refusingAdd "b") "pl" (freshConn, [])))))) =
    firstn (k * 100) ["a"; "b"]%string /\
    match fst (addTracksToPlaylist (refusingAdd "b") "pl" ["a"; "b"]%string
                 (snd (clearPlaylist (refusingAdd "b") "pl" (freshConn, [])))) with
    | Returns _ => firstn (k * 100) ["a"; "b"]%string = ["a"; "b"]%string
    | Raises _ => (k * 100 < 2)%nat
    end.
Proof.
  refine (@rewrite_playlist_not_atomic
            (refusingAdd "b") "pl" ["a"; "b"]%string ["old"%string] (freshConn, [])
            (snd (clearPlaylist (refusingAdd "b") "pl" (freshConn, []))) _).
  vm_compute. reflexivity.
Defined.

(* ------------------------------------------------------------------ *)
(** ** Lookups entity by entity *)
(* ------------------------------------------------------------------ *)

Lemma fold_left_batches (A B C : Type) (f : A -> B -> A) (g : C -> list B)
      (l : list C) (a : A) :
  fold_left (fun st i => fold_left f (g i) st) l a =
  fold_left f (List.concat (map g l)) a.
Proof.
  revert a. induction l as [|i l IH]; intros a; [reflexivity|].
  cbn [map List.concat fold_left]. rewrite fold_left_app. apply IH.
Qed.

(** The batches of 20 only group the work: the entities are looked up one
    after the other in the order of the input. *)
Lemma lookupAll_flat (A : Type) (op : string -> RemoteOp (list A))
      (ids : list string) (c : Conn) :
  lookupAll op ids c = fold_left (lookupOne op) ids ([], c).
Proof.
  unfold lookupAll, range_step.
  rewrite (fold_left_batches (lookupOne op) (fun i => firstn 20 (skipn i ids))).
  rewrite map_map, chunks_concat, firstn_all2; [reflexivity|].
  apply range_step_ceil. lia.
Qed.

Section LookupLoop.
Variable A : Type.
Variable op : string -> RemoteOp (list A).

Lemma lookupOne_step (found : Dict (list A)) (c : Conn) (x : string) :
  lookupOne op (found, c) x =
  (dict_set x (match fst (_withRetry (op x) c) with
               | Returns results => results
               | Raises _ => []
               end) found,
   snd (_withRetry (op x) c)).
Proof.
  unfold lookupOne. destruct (_withRetry (op x) c) as [[r|e] c1]; reflexivity.
Qed.

Lemma lookupLoop_facts (ids : list string) (found : Dict (list A)) (c : Conn) :
  let res := fold_left (lookupOne op) ids (found, c) in
  (NoDup (dict_keys found) -> NoDup (dict_keys (fst res))) /\
  (forall k, In k (dict_keys (fst res)) <-> In k (dict_keys found) \/ In k ids) /\
  (forall k v, dict_get k (fst res) = Some v ->
               dict_get k found = Some v \/
               exists c0, v = match fst (_withRetry (op k) c0) with
                              | Returns results => results
                              | Raises _ => []
                              end) /\
  (invoked c + List.length ids <= invoked (snd res) <=
   invoked c + 5 * List.length ids)%nat.
Proof.
  revert found c. induction ids as [|x ids IH]; intros found c res; subst res.
  - cbn [fold_left fst snd List.length]. repeat split; auto; try lia.
    intros [H|[]]. exact H.
  - cbn [fold_left]. rewrite lookupOne_step.
    pose proof (_withRetry_RunsAs (op x) c) as Hrun.
    assert (Hinv : (invoked c + 1 <= invoked (snd (_withRetry (op x) c)) <=
                    invoked c + 5)%nat).
    { destruct (_withRetry (op x) c) as [o c1].
      destruct Hrun as (m & Hm & Hi & _ & Ho). cbn [snd]. destruct o; lia. }
    clear Hrun.
    set (v0 := match fst (_withRetry (op x) c) with
               | Returns results => results
               | Raises _ => []
               end) in *.
    assert (Hval : exists c0, v0 = match fst (_withRetry (op x) c0) with
                                   | Returns results => results
                                   | Raises _ => []
                                   end) by (exists c; reflexivity).
    clearbody v0.
    set (c1 := snd (_withRetry (op x) c)) in *. clearbody c1.
    destruct (IH (dict_set x v0 found) c1) as (Hnd & Hkeys & Hget & Hcount).
    split; [|split; [|split]].
    + intros H. apply Hnd. apply dict_set_NoDup. exact H.
    + intros k. rewrite Hkeys, dict_set_keys_In. cbn [In]. intuition.
    + intros k v Hk. destruct (Hget k v Hk) as [Hold|Hnew]; [|right; exact Hnew].
      rewrite dict_get_set in Hold.
      destruct (String.eqb_spec k x) as [->|Hne]; [|left; exact Hold].
      injection Hold as <-. right. exact Hval.
    + cbn [List.length]. lia.
Qed.

End LookupLoop.

(** X14.  [getArtistsTopTracks], [getArtistsAlbums] and [getAlbumsTracks]
    run the same loops over their own remote operation [op], and never
    raise.  The dictionary they return has one entry for each requested
    id and no other; the entry of an id is what a call for that id
    returned, or the empty list when the call raised, so an id none of
    whose invocations succeeds is recorded with the empty list.  Each id of
    the input costs between one and five invocations, an id listed twice
    being looked up twice. *)
Theorem lookupAll_entries (A : Type) (op : string -> RemoteOp (list A))
        (ids : list string) (c : Conn) :
  let found := fst (lookupAll op ids c) in
  let c' := snd (lookupAll op ids c) in
  NoDup (dict_keys found) /\
  (forall k, In k (dict_keys found) <-> In k ids) /\
  (forall k v, dict_get k found = Some v ->
               exists c0, v = match fst (_withRetry (op k) c0) with
                              | Returns results => results
                              | Raises _ => []
                              end) /\
  (forall k, In k ids -> (forall n, failsAt (op k) n) ->
             dict_get k found = Some []) /\
  (invoked c + List.length ids <= invoked c' <= invoked c + 5 * List.length ids)%nat.
Proof.
  intros found c'. subst found c'. rewrite lookupAll_flat.
  destruct (@lookupLoop_facts A op ids [] c) as (Hnd & Hkeys & Hget & Hcount).
  assert (Hval : forall k v,
             dict_get k (fst (fold_left (lookupOne op) ids ([], c))) = Some v ->
             exists c0, v = match fst (_withRetry (op k) c0) with
                            | Returns results => results
                            | Raises _ => []
                            end).
  { intros k v Hk. destruct (Hget k v Hk) as [Hold|Hnew]; [discriminate|exact Hnew]. }
  split; [apply Hnd; constructor|]. split; [|split; [exact Hval|split; [|exact Hcount]]].
  - intros k. rewrite Hkeys. cbn [dict_keys map In]. tauto.
  - intros k Hin Hfail.
    assert (Hsome : dict_get k (fst (fold_left (lookupOne op) ids ([], c))) <> None).
    { apply dict_get_keys. apply Hkeys. right. exact Hin. }
    destruct (dict_get k _) as [v|] eqn:Hk; [|contradiction].
    destruct (Hval k v Hk) as (c0 & ->).
    destruct (@_withRetry_all_fail _ (op k) c0 Hfail) as (e & c1 & ->). reflexivity.
Qed.

Lemma lookupAll_entries_witness :
  dict_get "gone" (fst (getArtistsTopTracks (clientWithoutArtist "gone")
                                            ["a1"; "gone"]%string freshConn)) =
  Some [].
Proof.
  destruct (@lookupAll_entries TrackObj
              (artist_top_tracks (clientWithoutArtist "gone"))
              ["a1"; "gone"]%string freshConn) as (_ & _ & _ & Hfail & _).
  apply Hfail.
  - right. left. reflexivity.
  - intros n. eexists. reflexivity.
Defined.

(** What the entity-by-entity lookups record for an id whose calls all
    fail, when they record anything. *)
Lemma lookupAll_failed (A : Type) (op : string -> RemoteOp (list A))
      (ids : list string) (c : Conn) (k : string) :
  (forall n, failsAt (op k) n) ->
  dict_get_default k [] (fst (lookupAll op ids c)) = [].
Proof.
  intros Hfail. rewrite lookupAll_flat. unfold dict_get_default.
  destruct (dict_get k _) as [v|] eqn:Hk; [|reflexivity].
  destruct (@lookupLoop_facts A op ids [] c) as (_ & _ & Hget & _).
  destruct (Hget k v Hk) as [Hold|(c0 & ->)]; [discriminate|].
  destruct (@_withRetry_all_fail _ (op k) c0 Hfail) as (e & c1 & ->). reflexivity.
Qed.

(** X15.  In [generateRadio], a chosen artist whose top-track lookup fails
    at every attempt contributes no track and draws no random number: the
    failure is swallowed by [getArtistsTopTracks], the radio tracks and the
    random source come out of the artist's turn as they went in, and the
    loop goes on with the next artist. *)
Theorem radio_skips_failed_lookup (G : Type) (RS : RandomSource G)
        (L : StrLower) (config : Config) (tooMuchCounts topPositions : Dict Z)
        (artistBlacklistNames : list string) (client : Client)
        (chosen : list string) (c : Conn) (artistNames : Dict string)
        (radioTracks : list string) (g : G) (artistId artistName : string) :
  (forall n, failsAt (artist_top_tracks client artistId) n) ->
  dict_get artistId artistNames = Some artistName ->
  radioArtist config tooMuchCounts topPositions artistBlacklistNames
              (fst (getArtistsTopTracks client chosen c)) artistNames
              (radioTracks, g) artistId =
  Some (radioTracks, g).
Proof.
  intros Hfail Hname. unfold radioArtist. rewrite Hname.
  destruct (isBlacklisted config artistBlacklistNames artistName); [reflexivity|].
  unfold getArtistsTopTracks. rewrite (lookupAll_failed _ chosen c artistId Hfail).
  cbn [fold_left selectSongs]. rewrite app_nil_r. reflexivity.
Qed.

Lemma radio_skips_failed_lookup_witness :
  radioArtist (L := asciiOnlyLower) baseConfig [] [] []
              (fst (getArtistsTopTracks (clientWithoutArtist "gone")
                                        ["a1"; "gone"]%string freshConn))
              [("a1", "Band"); ("gone", "Ghost")]%string
              (["t0"%string], [1 # 2]) "gone" =
  Some (["t0"%string], [1 # 2]).
Proof.
  apply (@radio_skips_failed_lookup (list Q) TapeRandom asciiOnlyLower
           baseConfig [] [] []
           (clientWithoutArtist "gone") ["a1"; "gone"]%string freshConn
           [("a1", "Band"); ("gone", "Ghost")]%string ["t0"%string] [1 # 2]
           "gone" "Ghost").
  - intros n. eexists. reflexivity.
  - reflexivity.
Defined.

(* ------------------------------------------------------------------ *)
(** ** What the bulk lookup costs *)
(* ------------------------------------------------------------------ *)

Lemma withRetry_conn_bounds (R : Type) (func : RemoteOp R) (c : Conn) :
  (invoked c + 1 <= invoked (snd (_withRetry func c)) <= invoked c + 5)%nat /\
  (apiCallCount c <= apiCallCount (snd (_withRetry func c)) <= apiCallCount c + 1)%Z.
Proof.
  pose proof (_withRetry_RunsAs func c) as Hrun.
  destruct (_withRetry func c) as [o c1]. cbn [snd].
  destruct Hrun as (m & Hm & Hi & _ & Ho). destruct o as [r|e].
  - destruct Ho as (H1 & _ & _ & Hapi). lia.
  - destruct Ho as (-> & _ & Hapi & _). lia.
Qed.

Lemma fetchBatch_conn (client : Client) (valid : list string)
      (info : Dict TrackInfo) (c : Conn) (i : nat) :
  snd (fetchBatch client valid (info, c) i) =
  snd (_withRetry (tracks client (batchAt valid i)) c).
Proof.
  unfold fetchBatch. destruct (_withRetry _ c) as [[r|e] c1]; reflexivity.
Qed.

Lemma batchLoop_budget (client : Client) (valid : list string)
      (offsets : list nat) (info : Dict TrackInfo) (c : Conn) :
  let c' := snd (fold_left (fetchBatch client valid) offsets (info, c)) in
  (invoked c + List.length offsets <= invoked c' <=
   invoked c + 5 * List.length offsets)%nat /\
  (apiCallCount c <= apiCallCount c' <=
   apiCallCount c + Z.of_nat (List.length offsets))%Z.
Proof.
  revert info c. induction offsets as [|i offsets IH]; intros info c c'; subst c'.
  - cbn. lia.
  - cbn [fold_left].
    destruct (fetchBatch client valid (info, c) i) as [info1 c1] eqn:Hstep.
    pose proof (fetchBatch_conn client valid info c i) as Hc1.
    rewrite Hstep in Hc1. cbn [snd] in Hc1.
    pose proof (withRetry_conn_bounds (tracks client (batchAt valid i)) c) as Hb.
    rewrite <- Hc1 in Hb. specialize (IH info1 c1). cbn zeta in IH.
    cbn [List.length]. lia.
Qed.

(** X16.  Whatever the service does, [getTracksInfo] sends one bulk
    request per batch of fifty valid ids, each tried between one and five
    times, and adds to [apiCallCount] one per batch at most; with no valid
    id it sends nothing and leaves the connection as it was. *)
Theorem getTracksInfo_budget (client : Client) (trackIds : list PyValue)
        (c : Conn) :
  let batches := ((List.length (validTrackIds trackIds) + 49) / 50)%nat in
  let c' := snd (getTracksInfo client trackIds c) in
  (invoked c + batches <= invoked c' <= invoked c + 5 * batches)%nat /\
  (apiCallCount c <= apiCallCount c' <= apiCallCount c + Z.of_nat batches)%Z /\
  (validTrackIds trackIds = [] -> getTracksInfo client trackIds c = ([], c)).
Proof.
  intros batches c'. subst batches c'. unfold getTracksInfo.
  destruct (List.length (validTrackIds trackIds) =? 0)%nat eqn:Hzero.
  - apply Nat.eqb_eq in Hzero. rewrite Hzero. cbn [snd].
    rewrite (Nat.div_small (0 + 49) 50) by lia.
    repeat split; lia.
  - pose proof (batchLoop_budget client (validTrackIds trackIds)
                  (range_step (List.length (validTrackIds trackIds)) batchSize) [] c)
      as Hb.
    assert (Hlen : List.length
                     (range_step (List.length (validTrackIds trackIds)) batchSize) =
                   ((List.length (validTrackIds trackIds) + 49) / 50)%nat)
      by (unfold range_step, batchSize; rewrite length_map, length_seq;
          f_equal; lia).
    cbn zeta in Hb. rewrite Hlen in Hb.
    destruct Hb as [Hi Ha]. split; [exact Hi|]. split; [exact Ha|].
    intros Hempty. rewrite Hempty in Hzero. discriminate.
Qed.

Lemma getTracksInfo_budget_witness :
  getTracksInfo (clientRefusing "b") [PyNone; PyStr EmptyString; PyInt 7] freshConn =
  ([], freshConn).
Proof.
  destruct (getTracksInfo_budget (clientRefusing "b")
                                 [PyNone; PyStr EmptyString; PyInt 7] freshConn)
    as (_ & _ & Hnone).
  apply Hnone. reflexivity.
Defined.

(* ------------------------------------------------------------------ *)
(** ** The ids the listings yield *)
(* ------------------------------------------------------------------ *)

Lemma trackIdsOf_nonempty (its : list Item) :
  Forall (fun tid => tid <> EmptyString) (trackIdsOf its).
Proof.
  apply Forall_forall. intros tid Hin. unfold trackIdsOf in Hin.
  apply in_flat_map in Hin. destruct Hin as ([[[[t|]]|]] & _ & Ht); cbn in Ht;
    try contradiction.
  destruct (t =? EmptyString)%string eqn:He; [contradiction|].
  destruct Ht as [<-|[]]. apply String.eqb_neq. exact He.
Qed.

Lemma appendTrackIds_nonempty (its : list Item) (acc : list string) :
  Forall (fun tid => tid <> EmptyString) acc ->
  Forall (fun tid => tid <> EmptyString) (appendTrackIds its acc).
Proof.
  intros Hacc. rewrite appendTrackIds_trackIdsOf. apply Forall_app.
  split; [exact Hacc|apply trackIdsOf_nonempty].
Qed.

Lemma playlistPages_nonempty (fuel : nat) (client : Client) (results : option Page)
      (acc : list string) (c c' : Conn) (ids : list string) :
  Forall (fun tid => tid <> EmptyString) acc ->
  playlistPages fuel client results acc c = Some (Returns ids, c') ->
  Forall (fun tid => tid <> EmptyString) ids.
Proof.
  revert results acc c. induction fuel as [|fuel IH]; intros results acc c Hacc Hrun;
    [discriminate|].
  cbn [playlistPages] in Hrun. destruct results as [page|];
    [|injection Hrun as <- _; exact Hacc].
  destruct (next page).
  - destruct (_withRetry _ c) as [[r|e] c1]; [|discriminate].
    apply (IH r (appendTrackIds (items page) acc) c1);
      [apply appendTrackIds_nonempty; exact Hacc|exact Hrun].
  - injection Hrun as <- _. apply appendTrackIds_nonempty. exact Hacc.
Qed.

Lemma likedPages_nonempty (fuel : nat) (client : Client) (offset : Z)
      (acc : list string) (c c' : Conn) (ids : list string) :
  Forall (fun tid => tid <> EmptyString) acc ->
  likedPages fuel client offset acc c = Some (Returns ids, c') ->
  Forall (fun tid => tid <> EmptyString) ids.
Proof.
  revert offset acc c. induction fuel as [|fuel IH]; intros offset acc c Hacc Hrun;
    [discriminate|].
  cbn [likedPages] in Hrun.
  destruct (_withRetry _ c) as [[r|e] c1]; [|discriminate].
  destruct (items r) as [|it its] eqn:Hits; [injection Hrun as <- _; exact Hacc|].
  apply IH in Hrun; [exact Hrun|]. apply appendTrackIds_nonempty. exact Hacc.
Qed.

Lemma getPlaylistTracks_nonempty (fuel : nat) (client : Client) (pid : string)
      (c c' : Conn) (ids : list string) :
  getPlaylistTracks fuel client pid c = Some (Returns ids, c') ->
  Forall (fun tid => tid <> EmptyString) ids.
Proof.
  unfold getPlaylistTracks. destruct (_withRetry _ c) as [[r|e] c1]; [|discriminate].
  apply playlistPages_nonempty. constructor.
Qed.

Lemma getLikedTracks_nonempty (fuel : nat) (client : Client)
      (c c' : Conn) (ids : list string) :
  getLikedTracks fuel client c = Some (Returns ids, c') ->
  Forall (fun tid => tid <> EmptyString) ids.
Proof. unfold getLikedTracks. apply likedPages_nonempty. constructor. Qed.

Lemma validTrackIds_strings (ids : list string) :
  Forall (fun tid => tid <> EmptyString) ids ->
  validTrackIds (map PyStr ids) = ids.
Proof.
  induction 1 as [|tid ids Hne _ IH]; [reflexivity|].
  cbn [map validTrackIds flat_map]. fold (validTrackIds (map PyStr ids)).
  rewrite IH. destruct tid as [|a tid]; [contradiction|]. reflexivity.
Qed.

(** X17.  Whatever the service sends, a listing [getPlaylistTracks] or
    [getLikedTracks] returns holds no empty id: the items without a
    track, without an id or with an empty id are left out.  So the filter
    of [getTracksInfo] removes nothing from such a listing. *)
Theorem listings_hold_valid_ids (fuel : nat) (client : Client)
        (playlistId : string) (c c' : Conn) (ids : list string) :
  getPlaylistTracks fuel client playlistId c = Some (Returns ids, c') \/
  getLikedTracks fuel client c = Some (Returns ids, c') ->
  ~ In EmptyString ids /\ validTrackIds (map PyStr ids) = ids.
Proof.
  intros Hrun.
  assert (Hne : Forall (fun tid => tid <> EmptyString) ids).
  { destruct Hrun as [Hrun|Hrun];
      [exact (getPlaylistTracks_nonempty _ _ _ _ Hrun)
      |exact (getLikedTracks_nonempty _ _ _ Hrun)]. }
  split; [|apply validTrackIds_strings; exact Hne].
  intros Hin. rewrite Forall_forall in Hne. exact (Hne _ Hin eq_refl).
Qed.

Lemma listings_hold_valid_ids_witness :
  ~ In EmptyString ["p2"%string] /\
  validTrackIds (map PyStr ["p2"%string]) = ["p2"%string].
Proof.
  apply (@listings_hold_valid_ids 2
           (reliableClient [itemOf EmptyString; mkItem None; itemOf "p2"] [] [])
           "playlist" freshConn (afterRequests 1 freshConn) ["p2"%string]).
  left. vm_compute. reflexivity.
Defined.

(** X18.  [getLikedTracks] has no bound on the number of pages: against a
    service that answers every request for saved tracks with a page that
    is not empty, whatever the offset, the loop never ends. *)
Theorem getLikedTracks_never_ends (client : Client) (c : Conn) :
  (forall offset k, exists page,
      current_user_saved_tracks client 50 offset k = Returns page /\
      items page <> []) ->
  forall fuel, getLikedTracks fuel client c = None.
Proof.
  intros Hpage fuel. unfold getLikedTracks.
  generalize 0%Z as offset. generalize (@nil string) as acc. revert c.
  induction fuel as [|fuel IH]; intros c acc offset; [reflexivity|].
  cbn [likedPages].
  destruct (Hpage offset (invoked c)) as (page & Hret & Hne).
  rewrite (@_withRetry_first_success _ _ c page Hret).
  destruct (items page) as [|it its]; [contradiction|]. apply IH.
Qed.

Lemma getLikedTracks_never_ends_witness :
  getLikedTracks 7 clientIgnoringOffset freshConn = None.
Proof.
  apply (@getLikedTracks_never_ends clientIgnoringOffset freshConn).
  intros offset k. exists (mkPage [itemOf "s1"] None).
  split; [reflexivity|discriminate].
Defined.

(* ------------------------------------------------------------------ *)
(** ** The playlists [main] reads *)
(* ------------------------------------------------------------------ *)

Lemma dict_get_entry (V : Type) (k : string) (v : V) (d : Dict V) :
  dict_get k d = Some v -> In (k, v) d.
Proof.
  induction d as [|[k0 v0] d IH]; cbn; [discriminate|].
  destruct (String.eqb_spec k k0) as [->|Hne].
  - intros [= ->]. left. reflexivity.
  - intros H. right. exact (IH H).
Qed.

Lemma playlistTracksOf_nonempty (fuel : nat) (client : Client) (ops : ClientMore)
      (name : string) (c c1 : Conn) (tracks : list string) :
  playlistTracksOf fuel client ops name c = Some (Returns tracks, c1) ->
  Forall (fun tid => tid <> EmptyString) tracks.
Proof.
  unfold playlistTracksOf. destruct (name =? "Liked Songs")%string.
  - apply getLikedTracks_nonempty.
  - destruct (getPlaylistIdByName fuel ops name c) as [[[pid|e] c0]|]; try discriminate.
    destruct (noPlaylistId pid); [intros [= <- _]; constructor|].
    destruct pid as [pid|]; [apply getPlaylistTracks_nonempty|].
    intros [= <- _]. constructor.
Qed.

Lemma playlistsLoop_facts (fuel : nat) (client : Client) (ops : ClientMore)
      (names : list string) (d d' : Dict (list string)) (c c' : Conn) :
  playlistsLoop fuel client ops names d c = Some (Returns d', c') ->
  NoDup (dict_keys d) ->
  (forall name l, In (name, l) d -> Forall (fun tid => tid <> EmptyString) l) ->
  NoDup (dict_keys d') /\
  (forall name, In name (dict_keys d') <-> In name (dict_keys d) \/ In name names) /\
  (forall name l, In (name, l) d' -> Forall (fun tid => tid <> EmptyString) l).
Proof.
  revert d c. induction names as [|name names IH]; intros d c Hrun Hnd Hne.
  - cbn in Hrun. injection Hrun as <- _. cbn [In]. repeat split; auto.
    intros [H|[]]. exact H.
  - cbn [playlistsLoop] in Hrun.
    destruct (playlistTracksOf fuel client ops name c) as [[[tracks|e] c1]|] eqn:Hone;
      try discriminate.
    apply playlistTracksOf_nonempty in Hone.
    destruct (IH _ _ Hrun) as (Hnd' & Hkeys & Hne').
    + apply dict_set_NoDup. exact Hnd.
    + intros k l Hin. apply dict_set_In in Hin.
      destruct Hin as [[_ ->]|Hin]; [exact Hone|exact (Hne _ _ Hin)].
    + split; [exact Hnd'|]. split; [|exact Hne'].
      intros k. rewrite Hkeys, dict_set_keys_In. cbn [In]. intuition.
Qed.

Lemma rawIdsLoop_In (d : Dict (list string)) (acc : list string) (tid : string) :
  In tid (fold_left (fun rawIds (entry : string * list string) => rawIds ++ snd entry)
                    d acc) <->
  In tid acc \/ exists name l, In (name, l) d /\ In tid l.
Proof.
  revert acc. induction d as [|[k l0] d IH]; intros acc; cbn [fold_left].
  - split; [auto|]. intros [H|(name & l & [] & _)]. exact H.
  - rewrite IH, in_app_iff. cbn [snd In]. split.
    + intros [[H|H]|(name & l & Hin & Hl)]; [left; exact H| |].
      * right. exists k, l0. split; [left; reflexivity|exact H].
      * right. exists name, l. split; [right; exact Hin|exact Hl].
    + intros [H|(name & l & [[= <- <-]|Hin] & Hl)].
      * left. left. exact H.
      * left. right. exact Hl.
      * right. exists name, l. split; assumption.
Qed.

Lemma firstOccurrences_listing : SetListing firstOccurrences.
Proof.
  intros l. unfold firstOccurrences. split.
  - apply NoDup_rev. apply NoDup_nodup.
  - intros x. rewrite <- in_rev, nodup_In, <- in_rev. reflexivity.
Qed.

(** X19.  When [getPlaylistsTracks] returns, its dictionary has one
    entry for each configured playlist name and no other.  The ids [main]
    then hands to [getTracksInfo], [list(set(rawIds))], are the ids that
    stand in one of the listings, each once, and none of them is removed
    by the filter of [getTracksInfo]: the bulk lookup of [main] always
    works on distinct valid ids. *)
Theorem main_resolves_distinct_ids (fuel : nat) (client : Client)
        (ops : ClientMore) (playlistNames : list string) (c c' : Conn)
        (allPlaylistTracks : Dict (list string))
        (set_list : list string -> list string) :
  SetListing set_list ->
  getPlaylistsTracks fuel client ops playlistNames c =
    Some (Returns allPlaylistTracks, c') ->
  NoDup (dict_keys allPlaylistTracks) /\
  (forall name, In name (dict_keys allPlaylistTracks) <-> In name playlistNames) /\
  let trackIds := set_list (rawIdsOf allPlaylistTracks) in
  NoDup trackIds /\
  validTrackIds (map PyStr trackIds) = trackIds /\
  forall tid,
    In tid trackIds <->
    exists name l, dict_get name allPlaylistTracks = Some l /\ In tid l.
Proof.
  intros Hset Hrun. unfold getPlaylistsTracks in Hrun.
  destruct (playlistsLoop_facts _ _ _ _ _ _ Hrun) as (Hnd & Hkeys & Hne);
    [constructor|intros name l []|].
  split; [exact Hnd|]. split; [intros name; rewrite Hkeys; cbn; tauto|].
  intros trackIds. subst trackIds.
  destruct (Hset (rawIdsOf allPlaylistTracks)) as [Hnodup Hin].
  assert (Hraw : forall tid,
             In tid (rawIdsOf allPlaylistTracks) <->
             exists name l, dict_get name allPlaylistTracks = Some l /\ In tid l).
  { intros tid. unfold rawIdsOf. rewrite rawIdsLoop_In. cbn [In]. split.
    - intros [[]|(name & l & Hl & Ht)]. exists name, l.
      split; [apply dict_get_In; assumption|exact Ht].
    - intros (name & l & Hl & Ht). right. exists name, l.
      split; [apply dict_get_entry; exact Hl|exact Ht]. }
  split; [exact Hnodup|]. split.
  - apply validTrackIds_strings. apply Forall_forall. intros tid Htid.
    apply Hin, Hraw in Htid. destruct Htid as (name & l & Hl & Ht).
    apply dict_get_entry in Hl. specialize (Hne _ _ Hl).
    rewrite Forall_forall in Hne. exact (Hne _ Ht).
  - intros tid. rewrite Hin. apply Hraw.
Qed.

Lemma main_resolves_distinct_ids_witness :
  validTrackIds (map PyStr (firstOccurrences
                              (rawIdsOf [("Liked Songs", ["s1"]);
                                         ("Road", ["p1"; "s1"]);
                                         ("Nowhere", [])]%string))) =
  firstOccurrences (rawIdsOf [("Liked Songs", ["s1"]);
                              ("Road", ["p1"; "s1"]);
                              ("Nowhere", [])]%string).
Proof.
  refine (proj1 (proj2 (proj2 (proj2
    (@main_resolves_distinct_ids 3
       (reliableClient [itemOf "p1"; itemOf "s1"] [itemOf "s1"] [])
       (reliableMore threePlaylists [] "new")
       ["Liked Songs"; "Road"; "Nowhere"]%string freshConn
       (afterRequests 5 freshConn)
       [("Liked Songs", ["s1"]); ("Road", ["p1"; "s1"]); ("Nowhere", [])]%string
       firstOccurrences firstOccurrences_listing _))))).
  vm_compute. reflexivity.
Defined.

(* ------------------------------------------------------------------ *)
(** ** The overplayed artists *)
(* ------------------------------------------------------------------ *)

Section ArtistCounts.
Variable trackOccurrences : Dict Z.

Let countStep (artistNameCounts : Dict Z) (entry : string * TrackInfo) : Dict Z :=
  let '(tid, (_, artistName, _)) := entry in
  if (artistName =? EmptyString)%string then artistNameCounts
  else
    let count := dict_get_default tid 1%Z trackOccurrences in
    dict_set artistName
             (dict_get_default artistName 0%Z artistNameCounts + count)%Z
             artistNameCounts.

Lemma nameCountLoop_NoDup (info : Dict TrackInfo) (acc : Dict Z) :
  NoDup (dict_keys acc) -> NoDup (dict_keys (fold_left countStep info acc)).
Proof.
  revert acc. induction info as [|[tid [[n a] x]] info IH]; intros acc Hnd;
    [exact Hnd|].
  cbn [fold_left]. apply IH. unfold countStep.
  destruct (a =? EmptyString)%string; [exact Hnd|apply dict_set_NoDup; exact Hnd].
Qed.

Lemma nameCountLoop_get (info : Dict TrackInfo) (acc : Dict Z) (artistName : string) :
  artistName <> EmptyString ->
  dict_get_default artistName 0%Z (fold_left countStep info acc) =
  (dict_get_default artistName 0%Z acc +
   artistTotal trackOccurrences info artistName)%Z.
Proof.
  intros Hne. revert acc.
  induction info as [|[tid [[n a] x]] info IH]; intros acc.
  - cbn. lia.
  - cbn [fold_left]. rewrite IH. unfold artistTotal.
    cbn [filter snd fst]. unfold countStep.
    destruct (String.eqb_spec a artistName) as [->|Hdiff].
    + apply String.eqb_neq in Hne. rewrite Hne.
      cbn [map fold_right fst]. unfold dict_get_default at 1.
      rewrite dict_get_set, String.eqb_refl. lia.
    + destruct (a =? EmptyString)%string; [reflexivity|].
      unfold dict_get_default at 1. rewrite dict_get_set.
      replace (artistName =? a)%string with false
        by (symmetry; apply String.eqb_neq; congruence).
      reflexivity.
Qed.

End ArtistCounts.

Lemma set_add_In (x a : string) (s : list string) :
  In a (set_add x s) <-> a = x \/ In a s.
Proof.
  unfold set_add. destruct (existsb (String.eqb x) s) eqn:Hex.
  - split; [auto|]. intros [->|H]; [|exact H].
    apply existsb_exists in Hex. destruct Hex as (y & Hy & Heq).
    apply String.eqb_eq in Heq. subst y. exact Hy.
  - rewrite in_app_iff. cbn [In]. intuition.
Qed.

Lemma set_add_NoDup (x : string) (s : list string) :
  NoDup s -> NoDup (set_add x s).
Proof.
  intros Hnd. unfold set_add. destruct (existsb (String.eqb x) s) eqn:Hex; [exact Hnd|].
  apply NoDup_app; [exact Hnd|repeat constructor; intros []|].
  intros a Ha [<-|[]].
  assert (existsb (String.eqb x) s = true); [|congruence].
  apply existsb_exists. exists x. split; [exact Ha|apply String.eqb_refl].
Qed.

Lemma tooMuchLoop_facts (counts : Dict Z) (info : Dict TrackInfo)
      (acc : list string) :
  let step := fun (artistTooMuch : list string) (entry : string * TrackInfo) =>
                let '(_, (_, artistName, artistId)) := entry in
                match artistId with
                | Some aid =>
                  if (aid =? EmptyString)%string then artistTooMuch
                  else if (dict_get_default artistName 0%Z counts >=? 3)%Z
                       then set_add aid artistTooMuch
                       else artistTooMuch
                | None => artistTooMuch
                end in
  (NoDup acc -> NoDup (fold_left step info acc)) /\
  forall aid,
    In aid (fold_left step info acc) <->
    In aid acc \/
    (aid <> EmptyString /\
     exists tid n a, In (tid, (n, a, Some aid)) info /\
                     (3 <= dict_get_default a 0%Z counts)%Z).
Proof.
  intros step. revert acc.
  induction info as [|[tid [[n a] x]] info IH]; intros acc.
  - cbn [fold_left]. split; [auto|]. intros aid. split; [auto|].
    intros [H|(_ & t & n & a & [] & _)]. exact H.
  - cbn [fold_left]. destruct (IH (step acc (tid, (n, a, x)))) as [Hnd Hin].
    split.
    + intros H. apply Hnd. unfold step. destruct x as [aid0|]; [|exact H].
      destruct (aid0 =? EmptyString)%string; [exact H|].
      destruct (_ >=? 3)%Z; [apply set_add_NoDup; exact H|exact H].
    + intros aid. rewrite Hin. clear Hin Hnd IH.
      assert (Hstep : In aid (step acc (tid, (n, a, x))) <->
                      In aid acc \/
                      (aid <> EmptyString /\ x = Some aid /\
                       (3 <= dict_get_default a 0%Z counts)%Z)).
      { unfold step. destruct x as [aid0|]; [|split; [auto|intros [H|(_ & [=] & _)]; exact H]].
        destruct (String.eqb_spec aid0 EmptyString) as [->|Hne0].
        - split; [auto|]. intros [H|(Hne & [= <-] & _)]; [exact H|contradiction].
        - destruct (dict_get_default a 0%Z counts >=? 3)%Z eqn:Hge.
          + apply Z.geb_le in Hge. rewrite set_add_In. split.
            * intros [->|H]; [right; repeat split; assumption|left; exact H].
            * intros [H|(_ & [= <-] & _)]; [right; exact H|left; reflexivity].
          + split; [auto|]. intros [H|(_ & _ & Hle)]; [exact H|].
            apply Z.geb_le in Hle. congruence. }
      rewrite Hstep. cbn [In]. split.
      * intros [[H|(Hne & -> & Hle)]|(Hne & t & n0 & a0 & Hentry & Hle)].
        -- left. exact H.
        -- right. split; [exact Hne|]. exists tid, n, a. split; [left; reflexivity|exact Hle].
        -- right. split; [exact Hne|]. exists t, n0, a0. split; [right; exact Hentry|exact Hle].
      * intros [H|(Hne & t & n0 & a0 & [[= <- <- <- <-]|Hentry] & Hle)].
        -- left. left. exact H.
        -- left. right. repeat split; assumption.
        -- right. split; [exact Hne|]. exists t, n0, a0. split; assumption.
Qed.

(** X20.  [artistNameCounts] holds, for an artist name that is not empty,
    the sum over the resolved tracks with that first-artist name of the
    occurrences of the track in the overplayed playlist, a resolved track
    the playlist listing does not hold under its id counting once. *)
Theorem artistNameCounts_total (trackOccurrences : Dict Z)
        (tooMuchInfo : Dict TrackInfo) (artistName : string) :
  artistName <> EmptyString ->
  dict_get_default artistName 0%Z (artistNameCountsOf trackOccurrences tooMuchInfo) =
  artistTotal trackOccurrences tooMuchInfo artistName.
Proof.
  intros Hne. unfold artistNameCountsOf.
  exact (nameCountLoop_get trackOccurrences tooMuchInfo [] Hne).
Qed.

Lemma artistNameCounts_total_witness :
  dict_get_default "Band" 0%Z
                   (artistNameCountsOf overplayedOccurrences overplayedInfo) = 11%Z.
Proof.
  apply (@artistNameCounts_total overplayedOccurrences overplayedInfo "Band").
  discriminate.
Defined.

Lemma tiers_of_counts (trackOccurrences : Dict Z) (tooMuchInfo : Dict TrackInfo) :
  let artistNameCounts := artistNameCountsOf trackOccurrences tooMuchInfo in
  let artistTooMuch := artistTooMuchOf artistNameCounts tooMuchInfo in
  let artistBlacklistNames := artistBlacklistNamesOf artistNameCounts in
  (forall name,
      In name artistBlacklistNames <->
      exists count, dict_get name artistNameCounts = Some count /\ (10 <= count)%Z) /\
  (forall aid,
      In aid artistTooMuch <->
      aid <> EmptyString /\
      exists tid n a, In (tid, (n, a, Some aid)) tooMuchInfo /\
                      (3 <= dict_get_default a 0%Z artistNameCounts)%Z) /\
  NoDup artistTooMuch /\
  (forall tid n a aid,
      In (tid, (n, a, Some aid)) tooMuchInfo -> aid <> EmptyString ->
      In a artistBlacklistNames -> In aid artistTooMuch).
Proof.
  intros counts tooMuch blacklist.
  assert (Hnd : NoDup (dict_keys counts))
    by (apply nameCountLoop_NoDup; constructor).
  assert (Hbl : forall name,
             In name blacklist <->
             exists count, dict_get name counts = Some count /\ (10 <= count)%Z).
  { intros name. unfold blacklist, artistBlacklistNamesOf. rewrite in_map_iff. split.
    - intros ([k count] & Hk & Hin). cbn in Hk. subst k.
      apply filter_In in Hin. destruct Hin as [Hin Hge]. cbn in Hge.
      apply Z.geb_le in Hge. exists count.
      split; [apply dict_get_In; assumption|exact Hge].
    - intros (count & Hget & Hge). exists (name, count). split; [reflexivity|].
      apply filter_In. split; [apply dict_get_entry; exact Hget|].
      cbn. apply Z.geb_le. exact Hge. }
  destruct (tooMuchLoop_facts counts tooMuchInfo []) as [Hnodup Hin].
  assert (Htm : forall aid,
             In aid tooMuch <->
             aid <> EmptyString /\
             exists tid n a, In (tid, (n, a, Some aid)) tooMuchInfo /\
                             (3 <= dict_get_default a 0%Z counts)%Z).
  { intros aid. unfold tooMuch, artistTooMuchOf. rewrite Hin. cbn [In]. tauto. }
  split; [exact Hbl|]. split; [exact Htm|]. split; [apply Hnodup; constructor|].
  intros tid n a aid Hentry Hne Hblack. apply Htm. split; [exact Hne|].
  exists tid, n, a. split; [exact Hentry|].
  apply Hbl in Hblack. destruct Hblack as (count & Hget & Hge).
  unfold dict_get_default. rewrite Hget. lia.
Qed.



(* ------------------------------------------------------------------ *)
(** ** What is written to the master playlist *)
(* ------------------------------------------------------------------ *)

Lemma slice_to_length (A : Type) (l : list A) (k : Z) :
  List.length (slice_to l k) =
  if (k <? 0)%Z then (List.length l - Z.to_nat (- k))%nat
  else Nat.min (Z.to_nat k) (List.length l).
Proof.
  unfold slice_to. destruct (k <? 0)%Z; rewrite length_firstn; lia.
Qed.

Lemma firstn_In_list (A : Type) (n : nat) (l : list A) (x : A) :
  In x (firstn n l) -> In x l.
Proof.
  intros H. rewrite <- (firstn_skipn n l). apply in_or_app. left. exact H.
Qed.

Lemma slice_to_In (A : Type) (l : list A) (k : Z) (x : A) :
  In x (slice_to l k) -> In x l.
Proof.
  unfold slice_to. destruct (k <? 0)%Z; apply firstn_In_list.
Qed.

(** X22.  The tracks [main] writes to the master playlist.  The cap
    [masterSongs] applies to the curated tracks only: at most [masterSongs]
    of them are kept (a negative [masterSongs] drops that many from the end
    of the shuffled selection instead).  When [includeRadioInMaster] is set
    and the radio playlist yielded tracks, all of them are added on top of
    the cap.  Every track written is a selected track or a radio track,
    and every radio track that was added is written. *)
Theorem finalMasterTracks_cap (G : Type) (SS : ShuffleSource G) (config : Config)
        (selected : list string) (radioTracks : option (list string)) (g : G) :
  let final := fst (finalMasterTracks config selected radioTracks g) in
  let added := if includeRadioInMaster config
               then match radioTracks with Some l => l | None => [] end
               else [] in
  let kept := if (masterSongs config <? 0)%Z
              then (List.length selected - Z.to_nat (- masterSongs config))%nat
              else Nat.min (Z.to_nat (masterSongs config)) (List.length selected) in
  List.length final = (kept + List.length added)%nat /\
  (forall tid, In tid final -> In tid selected \/ In tid added) /\
  (forall tid, In tid added -> In tid final).
Proof.
  intros final added kept. subst final added kept. unfold finalMasterTracks.
  pose proof (random_shuffle_perm selected g) as Hperm.
  destruct (random_shuffle selected g) as [shuffled g1]. cbn [fst] in Hperm.
  set (capped := if (Z.of_nat (List.length shuffled) >? masterSongs config)%Z
                 then slice_to shuffled (masterSongs config) else shuffled).
  assert (Hlen : List.length capped =
                 if (masterSongs config <? 0)%Z
                 then (List.length selected - Z.to_nat (- masterSongs config))%nat
                 else Nat.min (Z.to_nat (masterSongs config)) (List.length selected)).
  { unfold capped. rewrite (Permutation_length Hperm).
    destruct (Z.of_nat (List.length shuffled) >? masterSongs config)%Z eqn:Hgt.
    - apply slice_to_length.
    - rewrite Z.gtb_ltb in Hgt. apply Z.ltb_ge in Hgt.
      destruct (masterSongs config <? 0)%Z eqn:Hneg; [apply Z.ltb_lt in Hneg; lia|].
      lia. }
  assert (Hin : forall tid, In tid capped -> In tid selected).
  { intros tid Ht. apply (Permutation_in _ (Permutation_sym Hperm)).
    unfold capped in Ht.
    destruct (Z.of_nat (List.length shuffled) >? masterSongs config)%Z;
      [exact (slice_to_In _ _ _ Ht)|exact Ht]. }
  clearbody capped. rewrite <- Hlen. clear Hlen Hperm.
  destruct (includeRadioInMaster config);
    [|cbn [fst List.length]; rewrite Nat.add_0_r; repeat split;
      [intros tid Ht; left; exact (Hin _ Ht)|intros tid []]].
  destruct radioTracks as [[|r radio]|];
    try (cbn [fst List.length]; rewrite Nat.add_0_r; repeat split;
         [intros tid Ht; left; exact (Hin _ Ht)|intros tid []]).
  pose proof (random_shuffle_perm (capped ++ r :: radio) g1) as Hfinal.
  destruct (random_shuffle (capped ++ r :: radio) g1) as [final g2].
  cbn [fst] in *. split; [|split].
  - rewrite <- (Permutation_length Hfinal), length_app. reflexivity.
  - intros tid Ht. apply (Permutation_in _ (Permutation_sym Hfinal)) in Ht.
    apply in_app_or in Ht. destruct Ht as [Ht|Ht]; [left; exact (Hin _ Ht)|right; exact Ht].
  - intros tid Ht. apply (Permutation_in _ Hfinal). apply in_or_app. right. exact Ht.
Qed.

Lemma finalMasterTracks_cap_witness :
  List.length (fst (finalMasterTracks cappedConfig ["m1"; "m2"; "m3"]%string
                                      (Some ["r1"; "r2"; "r3"]%string) tt)) = 5%nat.
Proof.
  destruct (@finalMasterTracks_cap unit KeepOrder cappedConfig
              ["m1"; "m2"; "m3"]%string (Some ["r1"; "r2"; "r3"]%string) tt)
    as (Hlen & _ & _).
  exact Hlen.
Defined.

(* ------------------------------------------------------------------ *)
(** ** Discover Weekly in the radio *)
(* ------------------------------------------------------------------ *)

Section RadioPrefix.
Context {G : Type} `{RandomSource G} {L : StrLower}.
Variable config : Config.
Variables tooMuchCounts topPositions : Dict Z.
Variable artistBlacklistNames : list string.

Lemma radioArtist_extends (allTopTracks : Dict (list TrackObj))
      (artistNames : Dict string) (radioTracks tracks' : list string)
      (g g' : G) (artistId : string) :
  radioArtist config tooMuchCounts topPositions artistBlacklistNames
              allTopTracks artistNames (radioTracks, g) artistId =
    Some (tracks', g') ->
  exists added, tracks' = radioTracks ++ added.
Proof.
  unfold radioArtist. destruct (dict_get artistId artistNames) as [name|];
    [|discriminate].
  destruct (isBlacklisted config artistBlacklistNames name).
  - intros [= <- _]. exists []. rewrite app_nil_r. reflexivity.
  - destruct (fold_left _ _ _) as [eligibleSongs g1].
    destruct (selectSongs config eligibleSongs g1) as [[selectedSongs g2]|];
      [|discriminate].
    intros [= <- _]. exists selectedSongs. reflexivity.
Qed.

Lemma radioLoop_extends (allTopTracks : Dict (list TrackObj))
      (artistNames : Dict string) (chosen : list string)
      (radioTracks tracks' : list string) (g g' : G) :
  radioLoop config tooMuchCounts topPositions artistBlacklistNames
            allTopTracks artistNames chosen (radioTracks, g) = Some (tracks', g') ->
  exists added, tracks' = radioTracks ++ added.
Proof.
  revert radioTracks g. induction chosen as [|a chosen IH]; intros radioTracks g.
  - intros [= <- _]. exists []. rewrite app_nil_r. reflexivity.
  - cbn [radioLoop].
    destruct (radioArtist config tooMuchCounts topPositions artistBlacklistNames
                          allTopTracks artistNames (radioTracks, g) a)
      as [[tracks1 g1]|] eqn:Hone; [|discriminate].
    intros Hrest. apply radioArtist_extends in Hone. destruct Hone as [added1 ->].
    apply IH in Hrest. destruct Hrest as [added ->].
    exists (added1 ++ added). rewrite app_assoc. reflexivity.
Qed.

End RadioPrefix.

(** X23.  With [includeDiscoverWeeklyInRadio] set, every track of the
    Discover Weekly listing goes into the radio, in listing order and ahead
    of the artists' tracks: the excluded words, the weights and the
    blacklist are applied to the artists' top tracks only.  With the option
    off the radio starts empty. *)
Theorem radio_keeps_discover_tracks (G : Type) (RS : RandomSource G)
        (L : StrLower) (config : Config) (tooMuchCounts topPositions : Dict Z)
        (artistBlacklistNames discoverTracks : list string)
        (masterInfo : Dict TrackInfo)
        (topTracksOf : list string -> Dict (list TrackObj))
        (g g' : G) (radioTracks : list string) :
  radioTracksOf config tooMuchCounts topPositions artistBlacklistNames
                discoverTracks masterInfo topTracksOf g = Some (radioTracks, g') ->
  exists fromArtists,
    radioTracks =
    (if includeDiscoverWeeklyInRadio config then discoverTracks else [])
      ++ fromArtists.
Proof.
  unfold radioTracksOf. destruct (artistMapsOf masterInfo) as [artistMap artistNames].
  destruct (chooseArtists config artistMap g) as [[chosen g1]|]; [|discriminate].
  apply radioLoop_extends.
Qed.

Lemma radio_keeps_discover_tracks_witness :
  exists fromArtists,
    ["d1"; "Live d2"]%string = ["d1"; "Live d2"]%string ++ fromArtists.
Proof.
  apply (@radio_keeps_discover_tracks (list Q) TapeRandom asciiOnlyLower
           discoverConfig [] [] []
           ["d1"; "Live d2"]%string [] (fun _ => []) [] []
           ["d1"; "Live d2"]%string).
  vm_compute. reflexivity.
Defined.

Lemma countTracks_occurrences_witness :
  (1 <= 2)%Z /\ 2%Z = Z.of_nat (count_occ string_dec ["a"; "b"; "a"]%string "a"%string).
Proof.
  destruct (countTracks_occurrences ["a"; "b"; "a"]%string "a"%string)
    as (_ & _ & Hsome & _).
  apply Hsome. reflexivity.
Defined.

(* ------------------------------------------------------------------ *)
(** ** The artist sets as [main] computes them *)
(* ------------------------------------------------------------------ *)

Lemma nameCounts_keys (trackOccurrences : Dict Z) (tooMuchInfo : Dict TrackInfo)
      (name : string) :
  In name (dict_keys (artistNameCountsOf trackOccurrences tooMuchInfo)) ->
  name <> EmptyString.
Proof.
  unfold artistNameCountsOf.
  assert (Hgen : forall acc,
             In name (dict_keys
                        (fold_left
                           (fun artistNameCounts (entry : string * TrackInfo) =>
                              let '(tid, (_, artistName, _)) := entry in
                              if (artistName =? EmptyString)%string then artistNameCounts
                              else
                                let count := dict_get_default tid 1%Z trackOccurrences in
                                dict_set artistName
                                  (dict_get_default artistName 0%Z artistNameCounts
                                   + count)%Z
                                  artistNameCounts)
                           tooMuchInfo acc)) ->
             In name (dict_keys acc) \/ name <> EmptyString).
  { induction tooMuchInfo as [|[tid [[n a] x]] info IH]; intros acc Hin;
      [left; exact Hin|].
    cbn [fold_left] in Hin. apply IH in Hin. destruct Hin as [Hin|Hne]; [|right; exact Hne].
    destruct (String.eqb_spec a EmptyString) as [->|Ha]; [left; exact Hin|].
    apply dict_set_keys_In in Hin. destruct Hin as [->|Hin]; [right; exact Ha|left; exact Hin]. }
  intros Hin. destruct (Hgen [] Hin) as [[]|Hne]. exact Hne.
Qed.

Lemma nameCounts_default (trackOccurrences : Dict Z) (tooMuchInfo : Dict TrackInfo)
      (name : string) :
  dict_get_default name 0%Z (artistNameCountsOf trackOccurrences tooMuchInfo) =
  if (name =? EmptyString)%string then 0%Z
  else artistTotal trackOccurrences tooMuchInfo name.
Proof.
  destruct (String.eqb_spec name EmptyString) as [->|Hne].
  - unfold dict_get_default.
    destruct (dict_get EmptyString _) as [n|] eqn:Hget; [|reflexivity].
    exfalso. apply (@nameCounts_keys trackOccurrences tooMuchInfo EmptyString);
      [|reflexivity].
    apply dict_get_keys. rewrite Hget. discriminate.
  - unfold artistNameCountsOf.
    exact (nameCountLoop_get trackOccurrences tooMuchInfo [] Hne).
Qed.

Lemma blacklist_total (trackOccurrences : Dict Z) (tooMuchInfo : Dict TrackInfo)
      (name : string) :
  In name (artistBlacklistNamesOf (artistNameCountsOf trackOccurrences tooMuchInfo)) <->
  name <> EmptyString /\ (10 <= artistTotal trackOccurrences tooMuchInfo name)%Z.
Proof.
  destruct (tiers_of_counts trackOccurrences tooMuchInfo) as (Hbl & _).
  rewrite Hbl. pose proof (nameCounts_default trackOccurrences tooMuchInfo name) as Hd.
  unfold dict_get_default in Hd. split.
  - intros (count & Hget & Hge). rewrite Hget in Hd.
    destruct (String.eqb_spec name EmptyString) as [->|Hne]; [lia|].
    split; [exact Hne|lia].
  - intros [Hne Hge]. apply String.eqb_neq in Hne. rewrite Hne in Hd.
    destruct (dict_get name _) as [count|]; [|lia].
    exists count. split; [reflexivity|lia].
Qed.

Lemma tooMuch_total (trackOccurrences : Dict Z) (tooMuchInfo : Dict TrackInfo)
      (aid : string) :
  In aid (artistTooMuchOf (artistNameCountsOf trackOccurrences tooMuchInfo)
                          tooMuchInfo) <->
  aid <> EmptyString /\
  exists tid n a,
    In (tid, (n, a, Some aid)) tooMuchInfo /\ a <> EmptyString /\
    (3 <= artistTotal trackOccurrences tooMuchInfo a)%Z.
Proof.
  destruct (tiers_of_counts trackOccurrences tooMuchInfo) as (_ & Htm & _).
  rewrite Htm. split.
  - intros (Hne & tid & n & a & Hentry & Hge). split; [exact Hne|].
    exists tid, n, a. rewrite nameCounts_default in Hge.
    destruct (String.eqb_spec a EmptyString) as [->|Ha]; [lia|].
    repeat split; assumption.
  - intros (Hne & tid & n & a & Hentry & Ha & Hge). split; [exact Hne|].
    exists tid, n, a. split; [exact Hentry|]. rewrite nameCounts_default.
    apply String.eqb_neq in Ha. rewrite Ha. exact Hge.
Qed.

(** X24.  The two artist sets [main] hands to the radio and to the master
    loop.  With both options off, or without an id for the overplayed
    playlist, both sets are empty and no request is sent.  Otherwise [main]
    lists the overplayed playlist (again: it was listed for
    [tooMuchCounts]); a failure of the listing ends the run, an empty
    listing gives two empty sets, and else the distinct ids of the listing
    are resolved, on the connection as the listing left it.  Let the total
    of an artist name be the number of entries of the listing, repeats
    included, whose track was resolved with that first-artist name.  A
    name is in [artistBlacklistNames] exactly when the blacklist option is
    on, the name is not empty and its total is 10 or more; an id is in
    [artistTooMuch] exactly when the overplay option is on and it is the
    non-empty first-artist id of a resolved track whose artist name is not
    empty and totals 3 or more. *)
Theorem artistSets_tiers (fuel : nat) (client : Client) (config : Config)
        (tooMuchId : string) (c : Conn) :
  let enabled := artistIHearTooMuch config || artistBlacklist config in
  let listing := getPlaylistTracks fuel client tooMuchId c in
  (enabled = false \/ tooMuchId = EmptyString ->
   artistSets fuel client config tooMuchId c = Some (Returns ([], []), c)) /\
  (enabled = true -> tooMuchId <> EmptyString ->
   (listing = None -> artistSets fuel client config tooMuchId c = None) /\
   (forall e c1, listing = Some (Raises e, c1) ->
                 artistSets fuel client config tooMuchId c = Some (Raises e, c1)) /\
   (forall c1, listing = Some (Returns [], c1) ->
               artistSets fuel client config tooMuchId c =
               Some (Returns ([], []), c1)) /\
   (forall tooMuchTracks c1,
       listing = Some (Returns tooMuchTracks, c1) -> tooMuchTracks <> [] ->
       let trackOccurrences := countTracks tooMuchTracks in
       let resolved :=
           getTracksInfo client (map PyStr (dict_keys trackOccurrences)) c1 in
       let tooMuchInfo := fst resolved in
       exists artistTooMuch artistBlacklistNames,
         artistSets fuel client config tooMuchId c =
           Some (Returns (artistTooMuch, artistBlacklistNames), snd resolved) /\
         (forall name,
             In name artistBlacklistNames <->
             artistBlacklist config = true /\ name <> EmptyString /\
             (10 <= artistTotal trackOccurrences tooMuchInfo name)%Z) /\
         (forall aid,
             In aid artistTooMuch <->
             artistIHearTooMuch config = true /\ aid <> EmptyString /\
             exists tid n a,
               In (tid, (n, a, Some aid)) tooMuchInfo /\ a <> EmptyString /\
               (3 <= artistTotal trackOccurrences tooMuchInfo a)%Z))).
Proof.
  intros enabled listing. split.
  - intros [Hoff|Hid]; unfold artistSets; fold enabled.
    + rewrite Hoff. reflexivity.
    + subst tooMuchId. destruct enabled; reflexivity.
  - intros Hon Hid. unfold artistSets. fold enabled. rewrite Hon.
    apply String.eqb_neq in Hid. rewrite Hid. fold listing.
    split; [intros ->; reflexivity|]. split; [intros e c1 ->; reflexivity|].
    split; [intros c1 ->; reflexivity|].
    intros tooMuchTracks c1 Hl Hne. rewrite Hl.
    destruct tooMuchTracks as [|t0 tracks]; [contradiction|].
    set (tooMuchTracks := t0 :: tracks) in *.
    destruct (getTracksInfo client (map PyStr (dict_keys (countTracks tooMuchTracks)))
                            c1) as [info c2].
    cbn [fst snd].
    eexists. eexists. split; [reflexivity|]. split.
    + intros name. destruct (artistBlacklist config).
      * rewrite blacklist_total. tauto.
      * cbn [In]. split; [contradiction|intros [H _]; discriminate].
    + intros aid. destruct (artistIHearTooMuch config).
      * rewrite tooMuch_total. tauto.
      * cbn [In]. split; [contradiction|intros [H _]; discriminate].
Qed.

(** The overplayed playlist holds one track three times: its artist goes
    into [artistTooMuch], after the listing and one bulk lookup. *)
Lemma artistSets_tiers_witness :
  exists artistTooMuch artistBlacklistNames,
    artistSets 2 (reliableClient (map itemOf ["t1"; "t1"; "t1"]%string) []
                                 [plainTrack "t1"])
               artistConfig "p1" freshConn =
      Some (Returns (artistTooMuch, artistBlacklistNames), afterRequests 2 freshConn) /\
    In "artist-1"%string artistTooMuch /\
    ~ In "Artist"%string artistBlacklistNames.
Proof.
  destruct (artistSets_tiers 2 (reliableClient (map itemOf ["t1"; "t1"; "t1"]%string)
                                               [] [plainTrack "t1"])
                             artistConfig "p1" freshConn) as (_ & Hon).
  destruct Hon as (_ & _ & _ & Hsets); [reflexivity|discriminate|].
  destruct (Hsets ["t1"; "t1"; "t1"]%string (afterRequests 1 freshConn))
    as (artistTooMuch & artistBlacklistNames & Hrun & Hbl & Htm).
  - vm_compute. reflexivity.
  - discriminate.
  - exists artistTooMuch, artistBlacklistNames. split; [exact Hrun|]. split.
    + apply Htm. split; [reflexivity|]. split; [discriminate|].
      exists "t1"%string, ("Title of t1")%string, "Artist"%string.
      split; [vm_compute; left; reflexivity|]. split; [discriminate|].
      vm_compute. discriminate.
    + intros Hin. apply Hbl in Hin. destruct Hin as [Hflag _]. discriminate Hflag.
Defined.

(* ------------------------------------------------------------------ *)
(** ** The two playlists the program rewrites *)
(* ------------------------------------------------------------------ *)

(** X25.  [main] touches the master playlist only when the curation
    selected a track: with an empty selection it sends nothing, and the
    playlist keeps what it held.  Otherwise, when the run returns, and
    counting only the requests the service answered (a request abandoned
    after a time-out, which may still reach the service, is not counted),
    the playlist holds exactly the final tracks, whatever it held
    before. *)
Theorem master_written_or_untouched (G : Type) (SS : ShuffleSource G)
        (fuel : nat) (client : Client) (ops : ClientMore) (config : Config)
        (masterId : string) (selected contents : list string) (g : G)
        (c c' : Conn) (accepted accepted' : list Request) :
  writeMaster fuel client ops config masterId [] g (c, accepted) =
    Some (Returns tt, (c, accepted)) /\
  (selected <> [] ->
   writeMaster fuel client ops config masterId selected g (c, accepted) =
     Some (Returns tt, (c', accepted')) ->
   exists radioTracks c1,
     radioTracksForMaster fuel client ops config c = Some (Returns radioTracks, c1) /\
     contentsAfter masterId contents accepted' =
     fst (finalMasterTracks config selected radioTracks g)).
Proof.
  split; [reflexivity|]. intros Hne Hrun. unfold writeMaster in Hrun.
  destruct selected as [|s0 selected]; [contradiction|].
  destruct (radioTracksForMaster fuel client ops config c)
    as [[[radioTracks|e] c1]|]; try discriminate.
  exists radioTracks, c1. split; [reflexivity|].
  destruct (finalMasterTracks config (s0 :: selected) radioTracks g)
    as [finalTracks g1]. cbn [fst].
  destruct (clearPlaylist ops masterId (c1, accepted)) as [[[]|e] w1] eqn:Hclear;
    [|discriminate].
  destruct (@clear_then_add ops masterId finalTracks contents (c1, accepted) w1 Hclear)
    as (k & Hcont & Hout).
  injection Hrun as Hrun. rewrite Hrun in Hcont, Hout. cbn [fst snd] in Hcont, Hout.
  rewrite Hcont. exact Hout.
Qed.

Lemma master_written_or_untouched_witness :
  exists radioTracks c1,
    radioTracksForMaster 2 (reliableClient [] [] [])
                         (reliableMore threePlaylists [] "new") cappedConfig
                         freshConn = Some (Returns radioTracks, c1) /\
    contentsAfter "p2" ["old"%string]
                  [ReplaceItems "p2" []; AddItems "p2" ["m1"; "m2"]%string] =
    fst (finalMasterTracks cappedConfig ["m1"; "m2"; "m3"]%string radioTracks tt).
Proof.
  refine (proj2 (@master_written_or_untouched unit KeepOrder 2
                   (reliableClient [] [] []) (reliableMore threePlaylists [] "new")
                   cappedConfig "p2" ["m1"; "m2"; "m3"]%string ["old"%string] tt
                   freshConn (afterRequests 3 freshConn) []
                   [ReplaceItems "p2" []; AddItems "p2" ["m1"; "m2"]%string])
                _ _).
  - discriminate.
  - vm_compute. reflexivity.
Defined.

(** X26.  [generateRadio] rewrites the radio playlist in every run that
    gets that far: when the run returns, and counting only the requests the
    service answered (a request abandoned after a time-out, which may still
    reach the service, is not counted), the playlist [getOrCreatePlaylist]
    answered for ["[RX] Radio"] holds the radio tracks and nothing else, in
    the order the shuffle gave them; with no radio track it is left
    empty. *)
Theorem radio_playlist_rewritten (G : Type) (SS : ShuffleSource G)
        (fuel : nat) (ops : ClientMore) (description : string)
        (radioTracks contents : list string) (g : G)
        (c c' : Conn) (accepted accepted' : list Request) :
  writeRadio fuel ops description radioTracks g (c, accepted) =
    Some (Returns tt, (c', accepted')) ->
  exists radioId c1,
    getOrCreatePlaylist fuel ops "[RX] Radio" description c =
      Some (Returns radioId, c1) /\
    contentsAfter radioId contents accepted' = fst (random_shuffle radioTracks g) /\
    Permutation radioTracks (contentsAfter radioId contents accepted').
Proof.
  intros Hrun. unfold writeRadio in Hrun.
  destruct (getOrCreatePlaylist fuel ops "[RX] Radio" description c)
    as [[[radioId|e] c1]|]; try discriminate.
  exists radioId, c1. split; [reflexivity|].
  assert (Hcont : contentsAfter radioId contents accepted' =
                  fst (random_shuffle radioTracks g)).
  { destruct (clearPlaylist ops radioId (c1, accepted)) as [[[]|e] w1] eqn:Hclear;
      [|discriminate].
    destruct radioTracks as [|r0 radioTracks].
    - injection Hrun as ->. unfold clearPlaylist in Hclear.
      destruct (_withRetry _ c1) as [[r|e] c2]; [|discriminate].
      injection Hclear as _ <-. rewrite contentsAfter_app.
      cbn [contentsAfter fold_left applyRequest]. rewrite String.eqb_refl.
      pose proof (random_shuffle_perm (@nil string) g) as Hp.
      apply Permutation_nil in Hp. symmetry. exact Hp.
    - destruct (random_shuffle (r0 :: radioTracks) g) as [shuffled g1]. cbn [fst].
      destruct (@clear_then_add ops radioId shuffled contents (c1, accepted) w1 Hclear)
        as (k & Hcont & Hout).
      injection Hrun as Hrun. rewrite Hrun in Hcont, Hout. cbn [fst snd] in Hcont, Hout.
      rewrite Hcont. exact Hout. }
  split; [exact Hcont|]. rewrite Hcont. apply random_shuffle_perm.
Qed.

Lemma radio_playlist_rewritten_witness :
  exists radioId c1,
    getOrCreatePlaylist 2 (reliableMore threePlaylists [] "new") "[RX] Radio"
                        "generated" freshConn = Some (Returns radioId, c1) /\
    contentsAfter radioId ["old"%string]
                  [ReplaceItems "new" []; AddItems "new" ["r1"; "r2"]%string] =
    fst (random_shuffle ["r1"; "r2"]%string tt) /\
    Permutation ["r1"; "r2"]%string
                (contentsAfter radioId ["old"%string]
                   [ReplaceItems "new" []; AddItems "new" ["r1"; "r2"]%string]).
Proof.
  refine (@radio_playlist_rewritten unit KeepOrder 2
            (reliableMore threePlaylists [] "new") "generated"
            ["r1"; "r2"]%string ["old"%string] tt
            freshConn (afterRequests 4 freshConn) []
            [ReplaceItems "new" []; AddItems "new" ["r1"; "r2"]%string] _).
  vm_compute. reflexivity.
Defined.
